(** * RL_rubiks: the MCTS engine (mcts.py) and the ADI trainer (adi.py)

    A shallow embedding of the two Python modules, and the properties of
    them that the specification states.

    Python objects live on a heap and are named by their address; a method
    that mutates [self] takes the heap and returns the new one.  A Python
    exception is a value of [outcome]; a [while] loop takes a fuel argument
    and answers [Diverge] when it runs out, so that "the call returns" is a
    statement about some sufficient amount of fuel. *)

From Stdlib Require Import Arith ZArith Lia Bool.
From Stdlib Require QArith Qround DecimalString DecimalNat.
From Stdlib Require Import String Ascii.
From stdpp Require Import base tactics option list sets relations strings.

Set Warnings "-clear-no-such-hyp".

(** ** Python outcomes *)

Module Py.

(** The exceptions the two modules can raise. *)
Inductive exn : Type :=
| ValueError          (* max() of an empty sequence *)
| AttributeError      (* attribute of None *)
| IndexError          (* random.choice of an empty sequence *)
| ZeroDivisionError   (* division by zero *)
| AssertionError (msg : string)
| FileNotFoundError (path : string).   (* a file that cannot be opened *)

(** The result of running a piece of Python: a value, an exception, a loop
    that has not finished within the fuel given, or a dangling address
    (which a Python reference never is: the heaps the theorems speak of
    never produce it). *)
Inductive outcome (A : Type) : Type :=
| Return (a : A)
| Raise (e : exn)
| Diverge
| Stuck.
Arguments Return {A} a.
Arguments Raise {A} e.
Arguments Diverge {A}.
Arguments Stuck {A}.

Definition bind {A B} (m : outcome A) (k : A → outcome B) : outcome B :=
  match m with
  | Return a => k a
  | Raise e => Raise e
  | Diverge => Diverge
  | Stuck => Stuck
  end.

#[global] Instance outcome_bind : MBind outcome := fun A B k m => bind m k.
#[global] Instance outcome_ret : MRet outcome := fun A a => Return a.

(** [for x in xs: ...] over a computation that may raise. *)
Fixpoint for_each {A B} (f : A → outcome B) (xs : list A) : outcome (list B) :=
  match xs with
  | [] => Return []
  | x :: xs' => y ← f x; ys ← for_each f xs'; Return (y :: ys)
  end.

(** Python's [max(iterable, key=...)] once the keys are computed: the first
    item is the candidate, and a later item replaces it only when its key is
    strictly greater ([>]) than the candidate's. *)
Definition max_step {A K} (gtb : K → K → bool) (best x : A * K) : A * K :=
  if gtb x.2 best.2 then x else best.

Definition max_by {A K} (gtb : K → K → bool) (xs : list (A * K)) : outcome A :=
  match xs with
  | [] => Raise ValueError
  | x :: xs' => Return (foldl (max_step gtb) x xs').1
  end.

(** A Python dict as the list of its items in insertion order.
    [d[k] = v] replaces the value of an existing key in place and appends a
    new key at the end. *)
Fixpoint dict_set {V} (k : nat) (v : V) (d : list (nat * V)) : list (nat * V) :=
  match d with
  | [] => [(k, v)]
  | (k', v') :: d' =>
      if decide (k = k') then (k, v) :: d' else (k', v') :: dict_set k v d'
  end.

(** [d.get(k)]: the value stored under [k], if any. *)
Fixpoint dict_get {V} (k : nat) (d : list (nat * V)) : option V :=
  match d with
  | [] => None
  | (k', v) :: d' => if decide (k = k') then Some v else dict_get k d'
  end.

(** The numbers of the search statistics and of the training targets: Python
    floats (and ints silently converted to them).  The development is
    generic in their arithmetic: every theorem holds whatever the
    operations compute, rounding included. *)
Class PyNum (num : Type) : Type := {
  num_of_nat : nat → num;
  num_add : num → num → num;
  num_sub : num → num → num;
  num_mul : num → num → num;
  num_div : num → num → num;
  num_sqrt : num → num;
  num_gtb : num → num → bool
}.

(** The comparison [>] on numbers that are not NaN is a strict weak order.
    Only the statements that call a selected item "maximal" need it. *)
Class PyNumOrder (num : Type) `{PyNum num} : Prop := {
  gtb_irrefl x : num_gtb x x = false;
  gtb_trans x y z : num_gtb x y = true → num_gtb y z = true → num_gtb x z = true;
  gtb_incomp x y z : num_gtb x y = false → num_gtb y z = false → num_gtb x z = false
}.

(** *** Facts about outcomes, [max_by] and [dict_set] *)

Lemma bind_Return {A B} (m : outcome A) (k : A → outcome B) b :
  m ≫= k = Return b → ∃ a, m = Return a ∧ k a = Return b.
Proof. destruct m; simpl; intros E; try discriminate. eauto. Qed.

Lemma Return_bind {A B} (a : A) (k : A → outcome B) : Return a ≫= k = k a.
Proof. done. Qed.

Tactic Notation "inv_bind" hyp(E) "as" simple_intropattern(x) simple_intropattern(E1) :=
  apply bind_Return in E; destruct E as (x & E1 & E).

Lemma for_each_Return {A B} (f : A → outcome B) xs ys :
  for_each f xs = Return ys → Forall2 (λ x y, f x = Return y) xs ys.
Proof.
  revert ys. induction xs as [|x xs IH]; simpl; intros ys E.
  - injection E as <-. constructor.
  - inv_bind E as y Ey. inv_bind E as ys' Eys. injection E as <-. constructor; auto.
Qed.

Lemma for_each_defined {A B} (f : A → outcome B) xs :
  Forall (λ x, ∃ y, f x = Return y) xs → ∃ ys, for_each f xs = Return ys.
Proof.
  induction 1 as [|x xs [y Hy] _ [ys IH]]; simpl.
  - eauto.
  - rewrite Hy. simpl. rewrite IH. simpl. eauto.
Qed.

(** The candidate kept by the loop of [max] splits the items seen so far:
    it is one of them, no later item made the comparison [>] succeed against
    it, and it made the comparison succeed against the candidates before. *)
Lemma foldl_max_step_elem {A K} (gtb : K → K → bool) (x : A * K) xs :
  foldl (max_step gtb) x xs ∈ x :: xs.
Proof.
  revert x. induction xs as [|y xs IH]; intros x; simpl.
  - apply elem_of_cons. by left.
  - pose proof (IH (max_step gtb x y)) as IH'. unfold max_step in IH' |- *.
    destruct (gtb y.2 x.2).
    + apply elem_of_cons. by right.
    + apply elem_of_cons in IH' as [->|IH']; apply elem_of_cons; [by left|right].
      apply elem_of_cons. by right.
Qed.

Lemma max_by_elem {A K} (gtb : K → K → bool) (xs : list (A * K)) a :
  max_by gtb xs = Return a → a ∈ xs.*1.
Proof.
  destruct xs as [|x xs]; intros E; [discriminate|].
  injection E as <-.
  apply list_elem_of_fmap. eexists. split; [done|].
  apply foldl_max_step_elem.
Qed.

Lemma max_by_defined {A K} (gtb : K → K → bool) (xs : list (A * K)) :
  xs ≠ [] → ∃ a, max_by gtb xs = Return a.
Proof. destruct xs; [done|]. simpl. eauto. Qed.

Section MaxOrder.
Context {A K : Type} (gtb : K → K → bool).
Hypothesis irrefl : ∀ x, gtb x x = false.
Hypothesis trans : ∀ x y z, gtb x y = true → gtb y z = true → gtb x z = true.
Hypothesis incomp : ∀ x y z, gtb x y = false → gtb y z = false → gtb x z = false.

Lemma gtb_asym x y : gtb x y = true → gtb y x = false.
Proof using irrefl trans.
  intros Hxy. destruct (gtb y x) eqn:Hyx; [|done].
  rewrite <- (irrefl x). symmetry. eauto.
Qed.

Lemma foldl_max_step_split (pre : list (A * K)) (b : A * K) (mid xs : list (A * K)) :
  (∀ x, x ∈ pre → gtb b.2 x.2 = true) →
  (∀ x, x ∈ mid → gtb x.2 b.2 = false) →
  ∃ pre' b' post',
    pre ++ b :: mid ++ xs = pre' ++ b' :: post' ∧
    length pre ≤ length pre' ∧
    foldl (max_step gtb) b xs = b' ∧
    (∀ x, x ∈ pre' → gtb b'.2 x.2 = true) ∧
    (∀ x, x ∈ post' → gtb x.2 b'.2 = false).
Proof using irrefl trans incomp.
  revert pre b mid. induction xs as [|y xs IH]; intros pre b mid Hpre Hmid; simpl.
  - exists pre, b, mid. rewrite app_nil_r. done.
  - unfold max_step at 2. destruct (gtb y.2 b.2) eqn:Hy.
    + destruct (IH (pre ++ b :: mid) y []) as (pre' & b' & post' & E & Hl & Hf & H1 & H2).
      * intros x [Hx|Hx]%elem_of_app.
        { eauto. }
        apply elem_of_cons in Hx as [->|Hx]; [done|].
        destruct (gtb y.2 x.2) eqn:Hyx; [done|].
        rewrite <- Hy. symmetry. eapply incomp; eauto.
      * intros x Hx. by apply elem_of_nil in Hx.
      * exists pre', b', post'. split_and!; try done.
        { rewrite <- E. simpl. by rewrite <- app_assoc. }
        { rewrite length_app in Hl. lia. }
    + destruct (IH pre b (mid ++ [y])) as (pre' & b' & post' & E & Hl & Hf & H1 & H2).
      * done.
      * intros x [Hx|Hx]%elem_of_app; [eauto|].
        apply list_elem_of_singleton in Hx as ->. done.
      * exists pre', b', post'. split_and!; try done.
        rewrite <- E. by rewrite <- app_assoc.
Qed.

(** [max] returns the first item whose key is maximal. *)
Lemma max_by_first_maximal (xs : list (A * K)) a :
  max_by gtb xs = Return a →
  ∃ pre k post, xs = pre ++ (a, k) :: post ∧
    (∀ x, x ∈ pre → gtb k x.2 = true) ∧
    (∀ x, x ∈ post → gtb x.2 k = false).
Proof using irrefl trans incomp.
  destruct xs as [|x xs]; simpl; intros E; [discriminate|].
  injection E as <-.
  destruct (foldl_max_step_split [] x [] xs) as (pre' & b' & post' & E & _ & Hf & H1 & H2).
  - intros ? Hx. by apply elem_of_nil in Hx.
  - intros ? Hx. by apply elem_of_nil in Hx.
  - simpl in E. exists pre', b'.2, post'. rewrite Hf.
    destruct b' as [a k]. simpl in *. done.
Qed.

End MaxOrder.

Lemma foldl_ext {A B} (f g : A → B → A) (a : A) (l : list B) :
  (∀ a x, f a x = g a x) → foldl f a l = foldl g a l.
Proof. intros E. revert a. induction l as [|x l IH]; simpl; intros a; [done|]. by rewrite E, IH. Qed.

Lemma filter_all {A} (P : A → Prop) `{∀ x, Decision (P x)} (l : list A) :
  (∀ x, P x) → filter P l = l.
Proof. intros HP. induction l as [|x l IH]; [done|]. by rewrite filter_cons_True, IH. Qed.

Lemma dict_set_keys {V} k (v : V) d :
  ∀ k', k' ∈ d.*1 → k' ∈ (dict_set k v d).*1.
Proof.
  induction d as [|[k0 v0] d IH]; simpl; intros k' Hk'.
  - by apply elem_of_nil in Hk'.
  - case_decide; subst; simpl in *; set_solver.
Qed.

Lemma dict_set_fresh {V} k (v : V) d :
  k ∉ d.*1 → dict_set k v d = d ++ [(k, v)].
Proof.
  induction d as [|[k0 v0] d IH]; simpl; intros Hk; [done|].
  case_decide; [set_solver|]. f_equal. apply IH. set_solver.
Qed.

Lemma dict_get_set {V} k k' (v : V) d :
  dict_get k' (dict_set k v d) = if decide (k' = k) then Some v else dict_get k' d.
Proof.
  induction d as [|[k0 v0] d IH]; simpl; [done|].
  destruct (decide (k = k0)) as [->|Hne]; simpl.
  - repeat case_decide; congruence.
  - rewrite IH. repeat case_decide; congruence.
Qed.

(** Exact rational arithmetic: what Python's floats compute as long as no
    operation rounds.  [num_sqrt] is the integer square root, which is the
    square root on the perfect squares; the examples of the search take
    square roots there only, or where the choice of the child does not
    depend on the root. *)
#[export] Instance rational : PyNum QArith_base.Q := {|
  num_of_nat := λ k, QArith_base.inject_Z (Z.of_nat k);
  num_add := QArith_base.Qplus;
  num_sub := QArith_base.Qminus;
  num_mul := QArith_base.Qmult;
  num_div := QArith_base.Qdiv;
  num_sqrt := λ q, QArith_base.inject_Z (Z.sqrt (Qround.Qfloor q));
  num_gtb := λ x y, negb (QArith_base.Qle_bool x y)
|}.

#[export] Instance rational_order : PyNumOrder QArith_base.Q.
Proof.
  split; simpl.
  - intros x. apply negb_false_iff, QArith_base.Qle_bool_iff, QArith_base.Qle_refl.
  - intros x y z Hxy%negb_true_iff Hyz%negb_true_iff. apply negb_true_iff.
    apply not_true_iff_false. apply not_true_iff_false in Hxy, Hyz.
    rewrite QArith_base.Qle_bool_iff in *.
    apply QArith_base.Qnot_le_lt in Hxy, Hyz. apply QArith_base.Qlt_not_le.
    eapply QArith_base.Qlt_trans; eauto.
  - intros x y z Hxy%negb_false_iff Hyz%negb_false_iff. apply negb_false_iff.
    rewrite QArith_base.Qle_bool_iff in *. eapply QArith_base.Qle_trans; eauto.
Qed.

End Py.

(** ** mcts.py *)

Module MCTS.
Import Py.

(** The interface of [GameState]: one operation, [play]. *)
Class Game (game_state : Type) : Type := {
  play : game_state → nat → game_state
}.

(** The interface of [NeuralNet.evaluate].  The stub draws its answer from
    numpy's random generator, so two calls on the same state differ: the
    first argument is the number of the call within the search. *)
Class Evaluator (game_state num : Type) : Type := {
  evaluate : nat → game_state → list num * num
}.

(** An object is named by its position in the heap. *)
Abbreviation addr := nat.

Section Definitions.
Context {num : Type} `{PyNum num}.
Context {game_state : Type} `{Game game_state}.

(** [class UCTNode]: the seven attributes set by [__init__]. *)
Record UCTNode : Type := mkUCTNode {
  game_state_of : game_state;
  is_expanded : bool;
  parent : option addr;
  children : list (nat * addr);
  prior : num;
  total_value : num;
  number_visits : nat
}.

(** [UCTNode.__init__(game_state, parent, prior)] *)
Definition init (gs : game_state) (par : option addr) (p : num) : UCTNode :=
  {| game_state_of := gs; is_expanded := false; parent := par; children := [];
     prior := p; total_value := num_of_nat 0; number_visits := 0 |}.

Definition deref (h : list UCTNode) (a : addr) : outcome UCTNode :=
  match h !! a with
  | Some n => Return n
  | None => Stuck
  end.

(** [Q]: total_value / (1 + number_visits) *)
Definition Q (n : UCTNode) : num :=
  num_div (total_value n) (num_of_nat (1 + number_visits n)).

(** [U]: sqrt(parent.number_visits) * prior / (1 + number_visits); the
    attribute access on a [None] parent raises. *)
Definition U (h : list UCTNode) (n : UCTNode) : outcome num :=
  match parent n with
  | None => Raise AttributeError
  | Some p =>
      pn ← deref h p;
      Return (num_div (num_mul (num_sqrt (num_of_nat (number_visits pn))) (prior n))
                      (num_of_nat (1 + number_visits n)))
  end.

(** The key of [best_child]: [node.Q() + node.U()]. *)
Definition score (h : list UCTNode) (c : addr) : outcome num :=
  n ← deref h c; u ← U h n; Return (num_add (Q n) u).

(** [best_child]: max over [children.values()] by [Q + U]. *)
Definition best_child (h : list UCTNode) (a : addr) : outcome addr :=
  n ← deref h a;
  keyed ← for_each (λ c, s ← score h c; Return (c, s)) (children n).*2;
  max_by num_gtb keyed.

(** The two statistics updates in the body of [select_leaf]'s loop. *)
Definition visit (n : UCTNode) : UCTNode :=
  {| game_state_of := game_state_of n; is_expanded := is_expanded n;
     parent := parent n; children := children n; prior := prior n;
     total_value := num_sub (total_value n) (num_of_nat 1);
     number_visits := number_visits n + 1 |}.

(** [select_leaf]: one unit of fuel per iteration of the [while]. *)
Fixpoint select_leaf (fuel : nat) (h : list UCTNode) (current : addr)
  : outcome (list UCTNode * addr) :=
  n ← deref h current;
  if is_expanded n then
    match fuel with
    | 0 => Diverge
    | S fuel' =>
        let h1 := <[current := visit n]> h in
        c ← best_child h1 current;
        select_leaf fuel' h1 c
    end
  else Return (h, current).

Definition set_expanded (n : UCTNode) : UCTNode :=
  {| game_state_of := game_state_of n; is_expanded := true;
     parent := parent n; children := children n; prior := prior n;
     total_value := total_value n; number_visits := number_visits n |}.

Definition set_child (move : nat) (c : addr) (n : UCTNode) : UCTNode :=
  {| game_state_of := game_state_of n; is_expanded := is_expanded n;
     parent := parent n; children := dict_set move c (children n);
     prior := prior n; total_value := total_value n;
     number_visits := number_visits n |}.

(** [add_child]: a new node is allocated at the end of the heap and stored
    under [move] in [self.children]. *)
Definition add_child (h : list UCTNode) (a : addr) (move : nat) (p : num)
  : outcome (list UCTNode) :=
  n ← deref h a;
  let c := length h in
  let h1 := h ++ [init (play (game_state_of n) move) (Some a) p] in
  Return (<[a := set_child move c n]> h1).

(** The loop of [expand] over [enumerate(child_priors)], from index [move]. *)
Fixpoint expand_from (h : list UCTNode) (a : addr) (move : nat) (priors : list num)
  : outcome (list UCTNode) :=
  match priors with
  | [] => Return h
  | p :: ps => h1 ← add_child h a move p; expand_from h1 a (S move) ps
  end.

(** [expand] *)
Definition expand (h : list UCTNode) (a : addr) (child_priors : list num)
  : outcome (list UCTNode) :=
  n ← deref h a;
  expand_from (<[a := set_expanded n]> h) a 0 child_priors.

Definition add_value (v : num) (n : UCTNode) : UCTNode :=
  {| game_state_of := game_state_of n; is_expanded := is_expanded n;
     parent := parent n; children := children n; prior := prior n;
     total_value := num_add (total_value n) (num_add v (num_of_nat 1));
     number_visits := number_visits n |}.

(** [backup]: one unit of fuel per iteration of the [while]. *)
Fixpoint backup (fuel : nat) (h : list UCTNode) (current : addr) (value_estimate : num)
  : outcome (list UCTNode) :=
  n ← deref h current;
  match parent n with
  | None => Return h
  | Some p =>
      match fuel with
      | 0 => Diverge
      | S fuel' => backup fuel' (<[current := add_value value_estimate n]> h) p value_estimate
      end
  end.

Context `{Evaluator game_state num}.

(** The body of the [for] loop of [UCT_search], for read number [i]. *)
Definition read (fuel : nat) (root : addr) (i : nat) (h : list UCTNode)
  : outcome (list UCTNode) :=
  '(h1, leaf) ← select_leaf fuel h root;
  n ← deref h1 leaf;
  let '(child_priors, value_estimate) := evaluate i (game_state_of n) in
  h2 ← expand h1 leaf child_priors;
  backup fuel h2 leaf value_estimate.

(** [for _ in range(num_reads)]: reads [i], [i+1], ... *)
Fixpoint reads (fuel : nat) (root : addr) (i count : nat) (h : list UCTNode)
  : outcome (list UCTNode) :=
  match count with
  | 0 => Return h
  | S count' => h1 ← read fuel root i h; reads fuel root (S i) count' h1
  end.

(** The heap after the loop of [UCT_search]; the root is the first object
    allocated. *)
Definition search_heap (fuel : nat) (gs : game_state) (num_reads : nat)
  : outcome (list UCTNode) :=
  reads fuel 0 0 num_reads [init gs None (num_of_nat 0)].

(** The last line of [UCT_search]: max over [root.children.items()] by the
    child's [number_visits]. *)
Definition visits_key (h : list UCTNode) (item : nat * addr) : outcome nat :=
  c ← deref h item.2; Return (number_visits c).

Definition most_visited (h : list UCTNode) (root : addr) : outcome (nat * addr) :=
  r ← deref h root;
  keyed ← for_each (λ item, k ← visits_key h item; Return (item, k)) (children r);
  max_by (λ x y, y <? x) keyed.

(** [UCT_search]: the returned (move, node) pair, and the heap it points
    into. *)
Definition UCT_search (fuel : nat) (gs : game_state) (num_reads : nat)
  : outcome ((nat * addr) * list UCTNode) :=
  h ← search_heap fuel gs num_reads;
  item ← most_visited h 0;
  Return (item, h).

End Definitions.

Arguments UCTNode : clear implicits.

(** *** The stubs of mcts.py, and numbers to run the engine on *)

(** [class GameState]: [play] ignores the move and returns a fresh state. *)
#[export] Instance GameState : Game unit := {| play := λ _ _, tt |}.

(** [class NeuralNet]: [evaluate] returns 362 random priors and a random
    value, whatever the state.  [tape] is the sequence of numbers that the
    random generator hands out, 363 of them per call. *)
Definition NeuralNet {game_state num : Type} (tape : nat → num) : Evaluator game_state num :=
  {| evaluate := λ i _, (tape <$> seq (363 * i) 362, tape (363 * i + 362)) |}.

(** A fixed evaluator in place of the random one: the priors 1/4 and 3/4
    and the value 0, on every call. *)
#[export] Instance fixed_evaluator : Evaluator unit QArith_base.Q :=
  {| evaluate := λ _ _,
       ([QArith_base.Qmake 1 4; QArith_base.Qmake 3 4], QArith_base.Qmake 0 1) |}.

Abbreviation qnode := (UCTNode QArith_base.Q unit).

(** A root that was just created. *)
Definition fresh_root : list qnode := [init tt None (num_of_nat 0)].

(** The root expanded with the priors 1/4 and 3/4: a two-level tree. *)
Definition two_level_root : qnode :=
  {| game_state_of := tt; is_expanded := true; parent := None;
     children := [(0, 1); (1, 2)]; prior := num_of_nat 0;
     total_value := num_of_nat 0; number_visits := 0 |}.

Definition two_level : list qnode :=
  [ two_level_root;
    init tt (Some 0) (QArith_base.Qmake 1 4);
    init tt (Some 0) (QArith_base.Qmake 3 4) ].

(** Root, child, grandchild: the root expanded with one prior, then its
    child expanded with one prior. *)
Definition three_level : list qnode :=
  [ {| game_state_of := tt; is_expanded := true; parent := None;
       children := [(0, 1)]; prior := num_of_nat 0;
       total_value := num_of_nat 0; number_visits := 0 |};
    {| game_state_of := tt; is_expanded := true; parent := Some 0;
       children := [(0, 2)]; prior := num_of_nat 1;
       total_value := num_of_nat 0; number_visits := 0 |};
    init tt (Some 1) (num_of_nat 1) ].

(** The heap after three reads of [UCT_search] with the fixed evaluator. *)
Definition three_reads : list qnode :=
  Eval vm_compute in
    match search_heap 3 tt 3 with Return h => h | _ => [] end.

(** The root expanded with no prior at all. *)
Definition childless : list qnode :=
  [ {| game_state_of := tt; is_expanded := true; parent := None;
       children := []; prior := num_of_nat 0;
       total_value := num_of_nat 0; number_visits := 0 |} ].

(** *** Properties of the engine *)

Section Properties.
Context {num : Type} `{PyNum num}.
Context {game_state : Type} `{Game game_state}.

Abbreviation node := (UCTNode num game_state).
Abbreviation heap := (list (UCTNode num game_state)).

Implicit Types (h : heap) (n : node) (a c p x : addr) (v : num).

(** What [select_leaf] and [backup] never write: the expansion flag, the
    parent reference and the children mapping. *)
Definition shape (n : node) : bool * option addr * list (nat * addr) :=
  (is_expanded n, parent n, children n).

Definition shapes (h : heap) : list (bool * option addr * list (nat * addr)) :=
  shape <$> h.

Lemma deref_Return h a n : deref h a = Return n ↔ h !! a = Some n.
Proof. unfold deref. destruct (h !! a); split; congruence. Qed.

Lemma shapes_lookup h h' a n :
  shapes h' = shapes h → h !! a = Some n →
  ∃ n', h' !! a = Some n' ∧ shape n' = shape n.
Proof.
  intros E Ha.
  assert (shapes h' !! a = Some (shape n)) as Hs.
  { rewrite E. unfold shapes. rewrite list_lookup_fmap, Ha. done. }
  unfold shapes in Hs. rewrite list_lookup_fmap in Hs.
  destruct (h' !! a) as [n'|]; [|done].
  exists n'. split; [done|]. simpl in Hs. congruence.
Qed.

Lemma shapes_length h h' : shapes h' = shapes h → length h' = length h.
Proof. unfold shapes. intros E. by rewrite <- (length_fmap shape h'), E, length_fmap. Qed.

Lemma shapes_insert h a n n' :
  h !! a = Some n → shape n' = shape n → shapes (<[a := n']> h) = shapes h.
Proof.
  intros Ha E. unfold shapes. rewrite list_fmap_insert, E.
  apply list_insert_id. by rewrite list_lookup_fmap, Ha.
Qed.

Lemma shape_visit n : shape (visit n) = shape n.
Proof. done. Qed.

Lemma shape_add_value v n : shape (add_value v n) = shape n.
Proof. done. Qed.

(** **** [best_child] *)

Lemma best_child_child h a c :
  best_child h a = Return c →
  ∃ n, h !! a = Some n ∧ c ∈ (children n).*2.
Proof.
  unfold best_child. intros E. inv_bind E as n Hn. inv_bind E as keyed Hk.
  apply deref_Return in Hn. exists n. split; [done|].
  apply max_by_elem in E. apply for_each_Return in Hk.
  apply list_elem_of_fmap in E as ([c' s] & -> & Hin).
  apply list_elem_of_lookup in Hin as [i Hi].
  destruct (Forall2_lookup_r _ _ _ _ _ Hk Hi) as (c0 & Hc0 & Hf).
  inv_bind Hf as s' Hs. injection Hf as -> ->.
  apply list_elem_of_lookup. eauto.
Qed.

(** A node whose parent reference points into the heap has a score. *)
Lemma score_defined h c nc p pn :
  h !! c = Some nc → parent nc = Some p → h !! p = Some pn →
  ∃ s, score h c = Return s.
Proof.
  intros Hc Hp Hpn. unfold score, U, deref. rewrite Hc. simpl.
  rewrite Hp, Hpn. simpl. eauto.
Qed.

Lemma best_child_defined h a n :
  h !! a = Some n → children n ≠ [] →
  (∀ c, c ∈ (children n).*2 → ∃ s, score h c = Return s) →
  ∃ c, best_child h a = Return c.
Proof.
  intros Ha Hne Hsc. unfold best_child, deref. rewrite Ha. simpl.
  destruct (for_each_defined (λ c, s ← score h c; Return (c, s)) (children n).*2)
    as [keyed Hk].
  { apply Forall_forall. intros c Hc. destruct (Hsc c Hc) as [s ->]. simpl. eauto. }
  rewrite Hk. simpl. apply max_by_defined.
  apply for_each_Return, Forall2_length in Hk.
  destruct keyed; [|done]. rewrite length_fmap in Hk.
  destruct (children n); simpl in *; congruence.
Qed.

(** The specification's reading of [best_child]: [c] is the first child of
    [a], in the iteration order of the mapping, whose [Q + U] no other
    child's exceeds. *)
Definition selects (h : heap) (a c : addr) : Prop :=
  ∃ n pre post s,
    h !! a = Some n ∧ (children n).*2 = pre ++ c :: post ∧
    score h c = Return s ∧
    (∀ x, x ∈ pre → ∃ sx, score h x = Return sx ∧ num_gtb s sx = true) ∧
    (∀ x, x ∈ post → ∃ sx, score h x = Return sx ∧ num_gtb sx s = false).

Lemma for_each_keyed_fst {A K} (f : A → outcome K) (xs : list A) (keyed : list (A * K)) :
  for_each (λ y, s ← f y; Return (y, s)) xs = Return keyed →
  keyed.*1 = xs ∧ ∀ y s, (y, s) ∈ keyed → f y = Return s.
Proof.
  revert keyed. induction xs as [|z xs IH]; simpl; intros keyed E.
  - injection E as <-. split; [done|]. intros ?? Hin. by apply elem_of_nil in Hin.
  - inv_bind E as ys Ey. inv_bind E as keyed' Ek. inv_bind Ey as s0 Es.
    injection Ey as <-. injection E as <-.
    destruct (IH _ Ek) as [IH1 IH2]. split.
    + by rewrite fmap_cons, IH1.
    + intros y s [Hin|Hin]%elem_of_cons; [by simplify_eq|eauto].
Qed.

Lemma best_child_selects `{!PyNumOrder num} h a c :
  best_child h a = Return c → selects h a c.
Proof.
  unfold best_child. intros E. inv_bind E as n Hn. inv_bind E as keyed Hk.
  apply deref_Return in Hn. apply for_each_keyed_fst in Hk as [Hfst Hsc].
  apply (max_by_first_maximal num_gtb gtb_irrefl gtb_trans gtb_incomp) in E
    as (pre & k & post & -> & Hpre & Hpost).
  exists n, pre.*1, post.*1, k. split_and!.
  - done.
  - rewrite <- Hfst. by rewrite fmap_app.
  - apply Hsc. apply elem_of_app. right. apply elem_of_cons. by left.
  - intros y ([y' sy] & -> & Hin)%list_elem_of_fmap. exists sy. split.
    + apply Hsc. apply elem_of_app. by left.
    + apply (Hpre _ Hin).
  - intros y ([y' sy] & -> & Hin)%list_elem_of_fmap. exists sy. split.
    + apply Hsc. apply elem_of_app. right. apply elem_of_cons. by right.
    + apply (Hpost _ Hin).
Qed.

(** **** [select_leaf] *)

(** A finite tree in the heap: some height function [rank] decreases from
    every expanded node to each of its children, and each child refers back
    to the node as its parent.  [populated] adds that every expanded node
    has at least one child. *)
Definition finite_tree (h : heap) (rank : addr → nat) : Prop :=
  ∀ a n, h !! a = Some n → is_expanded n = true →
    ∀ c, c ∈ (children n).*2 →
      rank c < rank a ∧ ∃ nc, h !! c = Some nc ∧ parent nc = Some a.

Definition populated (h : heap) : Prop :=
  ∀ a n, h !! a = Some n → is_expanded n = true → children n ≠ [].

(** The specification's reading of [select_leaf], as a relation: from [a] in
    heap [h], passing through the expanded nodes [path] (in order, [a]
    first), the walk ends at [leaf] in heap [h'].  [R h a c] says which child
    is taken from [a]. *)
Inductive descent (R : heap → addr → addr → Prop)
  : heap → addr → list addr → heap → addr → Prop :=
| descent_stop h a n :
    h !! a = Some n → is_expanded n = false →
    descent R h a [] h a
| descent_down h a n c path h' leaf :
    h !! a = Some n → is_expanded n = true →
    R (<[a := visit n]> h) a c →
    descent R (<[a := visit n]> h) c path h' leaf →
    descent R h a (a :: path) h' leaf.

Lemma descent_mono (R R' : heap → addr → addr → Prop) h a path h' leaf :
  (∀ h a c, R h a c → R' h a c) →
  descent R h a path h' leaf → descent R' h a path h' leaf.
Proof. intros HR. induction 1; econstructor; eauto. Qed.

Definition picks (h : heap) (a c : addr) : Prop := best_child h a = Return c.

Lemma select_leaf_descent fuel h a h' leaf :
  select_leaf fuel h a = Return (h', leaf) →
  ∃ path, descent picks h a path h' leaf.
Proof.
  revert h a. induction fuel as [|fuel IH]; intros h a E; simpl in E.
  - inv_bind E as n Hn. apply deref_Return in Hn.
    destruct (is_expanded n) eqn:Hex; [discriminate|].
    injection E as <- <-. exists []. by econstructor.
  - inv_bind E as n Hn. apply deref_Return in Hn.
    destruct (is_expanded n) eqn:Hex.
    + inv_bind E as c Hc. destruct (IH _ _ E) as [path Hd].
      exists (a :: path). by econstructor.
    + injection E as <- <-. exists []. by econstructor.
Qed.

Lemma finite_tree_shapes h h' rank :
  shapes h' = shapes h → finite_tree h rank → finite_tree h' rank.
Proof.
  intros E Ht a n' Ha Hex c Hc.
  destruct (shapes_lookup h' h a n') as (n & Hn & Hs); [done..|].
  injection Hs as Hs1 Hs2 Hs3.
  destruct (Ht a n Hn) with (c := c) as (Hr & nc & Hnc & Hp); [congruence..|].
  split; [done|].
  destruct (shapes_lookup h h' c nc) as (nc' & Hnc' & Hs'); [done..|].
  injection Hs' as Hs1' Hs2' Hs3'. exists nc'. split; congruence.
Qed.

Lemma populated_shapes h h' :
  shapes h' = shapes h → populated h → populated h'.
Proof.
  intros E Hp a n' Ha Hex.
  destruct (shapes_lookup h' h a n') as (n & Hn & Hs); [done..|].
  injection Hs as Hs1 Hs2 Hs3. rewrite <- Hs3. apply (Hp a n Hn). congruence.
Qed.

Lemma picks_child h a c :
  picks h a c → ∃ n, h !! a = Some n ∧ c ∈ (children n).*2.
Proof. apply best_child_child. Qed.

(** On a finite tree whose expanded nodes have children, the loop of
    [select_leaf] ends within [rank a] iterations. *)
Lemma select_leaf_returns fuel h a n rank :
  finite_tree h rank → populated h → h !! a = Some n → rank a ≤ fuel →
  ∃ h' leaf, select_leaf fuel h a = Return (h', leaf).
Proof.
  revert h a n. induction fuel as [|fuel IH]; intros h a n Ht Hp Ha Hr.
  - simpl. unfold deref. rewrite Ha. simpl.
    destruct (is_expanded n) eqn:Hex; [|eauto].
    pose proof (Hp a n Ha Hex) as Hne.
    destruct (children n) as [|[m c] cs] eqn:Hcs; [done|].
    destruct (Ht a n Ha Hex c) as [Hlt _]; [|lia].
    rewrite Hcs. apply elem_of_cons. by left.
  - simpl. unfold deref at 1. rewrite Ha. simpl.
    destruct (is_expanded n) eqn:Hex; [|eauto].
    set (h1 := <[a := visit n]> h).
    assert (shapes h1 = shapes h) as Hs by by eapply shapes_insert.
    assert (h1 !! a = Some (visit n)) as Ha1.
    { apply list_lookup_insert_eq. by eapply lookup_lt_Some. }
    assert (finite_tree h1 rank) as Ht1 by by eapply finite_tree_shapes.
    assert (populated h1) as Hp1 by by eapply populated_shapes.
    destruct (best_child_defined h1 a (visit n)) as [c Hc]; [done|by apply (Hp a n)|..].
    { intros c Hc. destruct (Ht1 a (visit n) Ha1 Hex c Hc) as (_ & nc & Hnc & Hpar).
      by eapply score_defined. }
    rewrite Hc. simpl.
    destruct (picks_child _ _ _ Hc) as (n1 & Hn1 & Hin).
    rewrite Ha1 in Hn1. injection Hn1 as <-.
    destruct (Ht1 a (visit n) Ha1 Hex c Hin) as (Hlt & nc & Hnc & _).
    eapply IH; eauto with lia.
Qed.

(** What a walk does to the heap of a finite tree. *)
Lemma descent_effect (R : heap → addr → addr → Prop) h a path h' leaf rank :
  (∀ h a c, R h a c → ∃ n, h !! a = Some n ∧ c ∈ (children n).*2) →
  finite_tree h rank →
  descent R h a path h' leaf →
  shapes h' = shapes h ∧
  (∀ x nx, h !! x = Some nx →
     h' !! x = Some (if decide (x ∈ path) then visit nx else nx)) ∧
  (∀ x, x ∈ path → rank x ≤ rank a ∧ ∃ nx, h !! x = Some nx ∧ is_expanded nx = true) ∧
  NoDup path ∧
  rank leaf ≤ rank a ∧
  (∃ nl, h !! leaf = Some nl ∧ is_expanded nl = false) ∧
  a ∈ path ++ [leaf] ∧
  (∀ x, x ∈ path ++ [leaf] → x = a ∨ rank x < rank a).
Proof.
  intros HR Ht Hd. induction Hd as [h a n Ha Hex|h a n c path h' leaf Ha Hex Hc Hd IH].
  - split_and!.
    + done.
    + intros x nx Hx. rewrite decide_False; [done|]. apply not_elem_of_nil.
    + intros x Hx. by apply elem_of_nil in Hx.
    + constructor.
    + done.
    + eauto.
    + apply list_elem_of_singleton. done.
    + intros x Hx. apply list_elem_of_singleton in Hx. by left.
  - set (h1 := <[a := visit n]> h) in *.
    assert (shapes h1 = shapes h) as Hs by by eapply shapes_insert.
    assert (h1 !! a = Some (visit n)) as Ha1.
    { apply list_lookup_insert_eq. by eapply lookup_lt_Some. }
    assert (finite_tree h1 rank) as Ht1 by by eapply finite_tree_shapes.
    destruct (IH Ht1) as (IHs & IHx & IHp & IHn & IHl & (nl & Hnl & Hexl) & IHa & IHc).
    destruct (HR _ _ _ Hc) as (n1 & Hn1 & Hin).
    rewrite Ha1 in Hn1. injection Hn1 as <-.
    destruct (Ht1 a (visit n) Ha1 Hex c Hin) as (Hlt & nc1 & Hnc1 & Hpar1).
    assert (a ∉ path) as Hnot.
    { intros Hin'. destruct (IHp a Hin') as [Hle _]. lia. }
    assert (leaf ≠ a) as Hleaf by (intros ->; lia).
    split_and!.
    + congruence.
    + intros x nx Hx. destruct (decide (x = a)) as [->|Hne].
      * rewrite decide_True by (apply elem_of_cons; by left).
        rewrite (IHx a (visit n) Ha1), decide_False by done. congruence.
      * assert (h1 !! x = Some nx) as Hx1.
        { unfold h1. by rewrite list_lookup_insert_ne. }
        rewrite (IHx x nx Hx1). f_equal.
        destruct (decide (x ∈ path)).
        -- rewrite decide_True; [done|]. apply elem_of_cons. by right.
        -- rewrite decide_False; [done|]. intros [?|?]%elem_of_cons; done.
    + intros x [->|Hx]%elem_of_cons; [eauto|].
      destruct (IHp x Hx) as (Hle & nx & Hnx & Hexx). split; [lia|].
      assert (x ≠ a) by (intros ->; done).
      unfold h1 in Hnx. rewrite list_lookup_insert_ne in Hnx by done. eauto.
    + by constructor.
    + lia.
    + unfold h1 in Hnl. rewrite list_lookup_insert_ne in Hnl by done. eauto.
    + apply elem_of_cons. by left.
    + intros x Hx. destruct (decide (x = a)) as [->|Hne]; [by left|right].
      assert (x ∈ path ++ [leaf]) as Hx'.
      { change (a :: path) with ([a] ++ path) in Hx. rewrite <- app_assoc in Hx.
        apply elem_of_app in Hx as [Hx|Hx]; [|done].
        by apply list_elem_of_singleton in Hx. }
      destruct (IHc x Hx') as [->|Hlt']; lia.
Qed.

(** **** [backup] *)

(** [ancestry h a path root]: following the parent references from [a]
    reaches the node [root], which has no parent; [path] lists the nodes
    passed before it, [a] first.  So [path] is [a] together with its strict
    ancestors below the root, and it is empty when [a] is the root. *)
Inductive ancestry (h : heap) : addr → list addr → addr → Prop :=
| ancestry_root a n :
    h !! a = Some n → parent n = None → ancestry h a [] a
| ancestry_up a n p path root :
    h !! a = Some n → parent n = Some p → ancestry h p path root →
    ancestry h a (a :: path) root.

Lemma ancestry_unique h a path1 root1 path2 root2 :
  ancestry h a path1 root1 → ancestry h a path2 root2 →
  path1 = path2 ∧ root1 = root2.
Proof.
  intros H1. revert path2 root2.
  induction H1 as [a n Ha Hp|a n p path root Ha Hp _ IH]; intros path2 root2 H2;
    inversion H2; simplify_eq; [done|].
  destruct (IH _ _ ltac:(eassumption)) as [-> ->]. done.
Qed.

Lemma ancestry_suffix h a path root x :
  ancestry h a path root → x ∈ path →
  ∃ path', ancestry h x (x :: path') root ∧ length path' < length path.
Proof.
  induction 1 as [a n Ha Hp|a n p path root Ha Hp Hanc IH]; intros Hx.
  - by apply elem_of_nil in Hx.
  - apply elem_of_cons in Hx as [->|Hx].
    + exists path. split; [by econstructor|simpl; lia].
    + destruct (IH Hx) as (path' & Hanc' & Hlen). exists path'. simpl. split; [done|lia].
Qed.

Lemma ancestry_root_last h a path root :
  ancestry h a path root → ∃ nr, h !! root = Some nr ∧ parent nr = None.
Proof. induction 1; eauto. Qed.

(** The parent references of a tree do not loop: [a] is not among its own
    strict ancestors, and the root is not on the path. *)
Lemma ancestry_head_fresh h a path root :
  ancestry h a (a :: path) root → a ∉ path.
Proof.
  intros Hanc Hin. inversion Hanc as [|? n p' ? ? Ha Hp Hanc']; subst.
  destruct (ancestry_suffix _ _ _ _ _ Hanc' Hin) as (path' & Ha' & Hlen).
  destruct (ancestry_unique _ _ _ _ _ _ Hanc Ha') as [E _].
  injection E as <-. lia.
Qed.

Lemma ancestry_root_fresh h a path root :
  ancestry h a path root → root ∉ path.
Proof.
  intros Hanc Hin.
  destruct (ancestry_suffix _ _ _ _ _ Hanc Hin) as (path' & Ha' & _).
  destruct (ancestry_root_last _ _ _ _ Hanc) as (nr & Hnr & Hp).
  inversion Ha'; simplify_eq.
Qed.

Lemma ancestry_NoDup h a path root : ancestry h a path root → NoDup path.
Proof.
  induction 1 as [|a n p path root Ha Hp Hanc IH]; constructor; [|done].
  eapply ancestry_head_fresh. by econstructor.
Qed.

Lemma ancestry_shapes h h' a path root :
  shapes h' = shapes h → ancestry h a path root → ancestry h' a path root.
Proof.
  intros E. induction 1 as [a n Ha Hp|a n p path root Ha Hp _ IH].
  - destruct (shapes_lookup h h' a n) as (n' & Hn' & Hs); [done..|].
    injection Hs as Hs1 Hs2 Hs3. apply (ancestry_root h' a n'); congruence.
  - destruct (shapes_lookup h h' a n) as (n' & Hn' & Hs); [done..|].
    injection Hs as Hs1 Hs2 Hs3. apply (ancestry_up h' a n' p); congruence.
Qed.

(** [backup] returns after one iteration per node of the path and adds
    [value_estimate + 1] to the total of exactly those nodes. *)
Lemma backup_spec fuel h a path root v :
  ancestry h a path root → length path ≤ fuel →
  ∃ h', backup fuel h a v = Return h' ∧
    shapes h' = shapes h ∧
    ∀ x nx, h !! x = Some nx →
      h' !! x = Some (if decide (x ∈ path) then add_value v nx else nx).
Proof.
  revert fuel h a. induction path as [|b path IH]; intros fuel h a Hanc Hf;
    inversion Hanc as [? n Ha Hp|? n p ? ? Ha Hp Hanc']; subst.
  - exists h. split_and!; [|done|].
    + destruct fuel; simpl; unfold deref; rewrite Ha; simpl; by rewrite Hp.
    + intros x nx Hx. rewrite decide_False; [done|]. apply not_elem_of_nil.
  - destruct fuel as [|fuel]; [simpl in Hf; lia|].
    simpl. unfold deref at 1. rewrite Ha. simpl. rewrite Hp.
    set (h1 := <[b := add_value v n]> h).
    assert (shapes h1 = shapes h) as Hs by by eapply shapes_insert.
    assert (h1 !! b = Some (add_value v n)) as Ha1.
    { apply list_lookup_insert_eq. by eapply lookup_lt_Some. }
    destruct (IH fuel h1 p) as (h' & Hb & Hs' & Hx').
    { by eapply ancestry_shapes. }
    { simpl in Hf; lia. }
    exists h'. split_and!; [done|congruence|].
    assert (b ∉ path) as Hnot by by eapply ancestry_head_fresh.
    intros x nx Hx. destruct (decide (x = b)) as [->|Hne].
    + rewrite decide_True by (apply elem_of_cons; by left).
      rewrite (Hx' b _ Ha1), decide_False by done. congruence.
    + assert (h1 !! x = Some nx) as Hx1.
      { unfold h1. by rewrite list_lookup_insert_ne. }
      rewrite (Hx' x nx Hx1). f_equal.
      destruct (decide (x ∈ path)).
      * rewrite decide_True; [done|]. apply elem_of_cons. by right.
      * rewrite decide_False; [done|]. intros [?|?]%elem_of_cons; done.
Qed.

(** **** [expand] *)

Definition with_children (d : list (nat * addr)) (n : node) : node :=
  {| game_state_of := game_state_of n; is_expanded := is_expanded n;
     parent := parent n; children := d; prior := prior n;
     total_value := total_value n; number_visits := number_visits n |}.

(** The mapping after the assignments [children[move + i] = L + i] for
    [i < k], in this order. *)
Definition children_after (move L k : nat) (d : list (nat * addr)) : list (nat * addr) :=
  foldl (λ d i, dict_set (move + i) (L + i) d) d (seq 0 k).

Lemma with_children_id n : with_children (children n) n = n.
Proof. by destruct n. Qed.

Lemma children_after_S move L k d :
  children_after move L (S k) d = children_after (S move) (S L) k (dict_set move L d).
Proof.
  unfold children_after. simpl. rewrite <- fmap_S_seq, foldl_fmap.
  rewrite !Nat.add_0_r. apply foldl_ext. intros d' i. f_equal; lia.
Qed.

Lemma children_after_keys move L k d key :
  key ∈ d.*1 → key ∈ (children_after move L k d).*1.
Proof.
  revert move L d. induction k as [|k IH]; intros move L d Hin; [done|].
  rewrite children_after_S. apply IH. by apply dict_set_keys.
Qed.

Lemma children_after_get k : ∀ move L d key,
  dict_get key (children_after move L k d)
  = if decide (move ≤ key < move + k) then Some (L + (key - move)) else dict_get key d.
Proof.
  induction k as [|k IH]; intros move L d key.
  - change (children_after move L 0 d) with d. by rewrite decide_False by lia.
  - rewrite children_after_S, IH, dict_get_set.
    repeat case_decide; try lia; try done; f_equal; lia.
Qed.

Lemma children_after_fresh L k :
  children_after 0 L k [] = (λ i, (i, L + i)) <$> seq 0 k.
Proof.
  unfold children_after. induction k as [|k IH]; [done|].
  rewrite seq_S, foldl_app, IH, fmap_app. simpl.
  apply dict_set_fresh. rewrite <- list_fmap_compose.
  intros (i & -> & Hi%elem_of_seq)%list_elem_of_fmap. simpl in Hi. lia.
Qed.

Lemma expand_from_spec priors : ∀ h a move n,
  h !! a = Some n →
  ∃ h', expand_from h a move priors = Return h' ∧
    length h' = length h + length priors ∧
    h' !! a = Some (with_children
                      (children_after move (length h) (length priors) (children n)) n) ∧
    (∀ x, x ≠ a → x < length h → h' !! x = h !! x) ∧
    (∀ i q, priors !! i = Some q →
       h' !! (length h + i) = Some (init (play (game_state_of n) (move + i)) (Some a) q)).
Proof.
  induction priors as [|q0 priors IH]; intros h a move n Ha.
  - exists h. simpl. split_and!; [done|lia| |done|].
    + change (children_after move (length h) 0 (children n)) with (children n).
      by rewrite with_children_id.
    + intros i q Hi. by rewrite lookup_nil in Hi.
  - pose proof (lookup_lt_Some _ _ _ Ha) as Hlt.
    simpl. unfold add_child, deref. rewrite Ha. simpl.
    set (new := init (play (game_state_of n) move) (Some a) q0).
    set (h1 := <[a := set_child move (length h) n]> (h ++ [new])).
    assert (length h1 = S (length h)) as Hlen.
    { unfold h1. rewrite length_insert, length_app. simpl. lia. }
    assert (h1 !! a = Some (set_child move (length h) n)) as Ha1.
    { apply list_lookup_insert_eq. rewrite length_app. lia. }
    destruct (IH h1 a (S move) _ Ha1) as (h' & E & Hl & Hn & Hfr & Hnew).
    exists h'. split_and!.
    + done.
    + rewrite Hl, Hlen. simpl. lia.
    + rewrite Hn, Hlen. simpl. by rewrite children_after_S.
    + intros x Hne Hx. rewrite Hfr by lia. unfold h1.
      rewrite list_lookup_insert_ne by done. by apply lookup_app_l.
    + intros [|i] q Hi; simpl in Hi.
      * injection Hi as <-. rewrite Hfr by lia. unfold h1.
        rewrite list_lookup_insert_ne by lia. rewrite !Nat.add_0_r.
        by rewrite list_lookup_middle.
      * replace (length h + S i) with (length h1 + i) by lia.
        rewrite (Hnew i q Hi). simpl. do 3 f_equal. lia.
Qed.

Lemma expand_spec h a priors n :
  h !! a = Some n →
  ∃ h', expand h a priors = Return h' ∧
    length h' = length h + length priors ∧
    h' !! a = Some (with_children
                      (children_after 0 (length h) (length priors) (children n))
                      (set_expanded n)) ∧
    (∀ x, x ≠ a → x < length h → h' !! x = h !! x) ∧
    (∀ i q, priors !! i = Some q →
       h' !! (length h + i) = Some (init (play (game_state_of n) i) (Some a) q)).
Proof.
  intros Ha. unfold expand, deref. rewrite Ha. simpl.
  pose proof (lookup_lt_Some _ _ _ Ha) as Hlt.
  destruct (expand_from_spec priors (<[a := set_expanded n]> h) a 0 (set_expanded n))
    as (h' & E & Hl & Hn & Hfr & Hnew).
  { by apply list_lookup_insert_eq. }
  rewrite length_insert in *. exists h'. split_and!; [done..| |done].
  intros x Hne Hx. rewrite Hfr by done. by rewrite list_lookup_insert_ne.
Qed.

Lemma expand_Return h a priors h' :
  expand h a priors = Return h' → ∃ n, h !! a = Some n.
Proof. unfold expand. intros E. inv_bind E as n Hn. apply deref_Return in Hn. eauto. Qed.

(** **** What the loops never write *)

Lemma select_leaf_shapes fuel h a h' leaf :
  select_leaf fuel h a = Return (h', leaf) →
  shapes h' = shapes h ∧ ∃ nl, h' !! leaf = Some nl ∧ is_expanded nl = false.
Proof.
  intros E. destruct (select_leaf_descent _ _ _ _ _ E) as [path Hd].
  clear E. induction Hd as [h a n Ha Hex|h a n c path h' leaf Ha Hex Hc Hd IH].
  - eauto.
  - destruct IH as [IH1 IH2]. split; [|done].
    rewrite IH1. by eapply shapes_insert.
Qed.

Lemma backup_shapes fuel h a v h' :
  backup fuel h a v = Return h' → shapes h' = shapes h.
Proof.
  revert h a. induction fuel as [|fuel IH]; intros h a E; simpl in E;
    inv_bind E as n Hn; apply deref_Return in Hn;
    destruct (parent n) eqn:Hp; try discriminate; try (by injection E as <-).
  rewrite (IH _ _ E). by eapply shapes_insert.
Qed.

(** **** The claims about [select_leaf] and [backup] *)

(** C3. For a node [n] with at least one ancestor, [backup(v)] on [n]
    returns and adds [v + 1] to the cumulative value total of [n] and of
    every strict ancestor of [n] below the root ([path] lists exactly these
    nodes), and it leaves the root node as it was. *)
Theorem backup_adds_below_root h a path root v fuel :
  ancestry h a path root → path ≠ [] → length path ≤ fuel →
  ∃ h', backup fuel h a v = Return h' ∧
    a ∈ path ∧
    (∀ x, x ∈ path → ∃ nx nx',
       h !! x = Some nx ∧ h' !! x = Some nx' ∧
       total_value nx' = num_add (total_value nx) (num_add v (num_of_nat 1))) ∧
    (∃ nr, h !! root = Some nr ∧ parent nr = None ∧ h' !! root = Some nr).
Proof.
  intros Hanc Hne Hf.
  destruct (backup_spec fuel h a path root v Hanc Hf) as (h' & Hb & _ & Hx).
  exists h'. split_and!.
  - done.
  - inversion Hanc; subst; [done|]. apply elem_of_cons. by left.
  - intros x Hin.
    assert (∃ nx, h !! x = Some nx) as [nx Hnx].
    { destruct (ancestry_suffix _ _ _ _ _ Hanc Hin) as (path' & Hanc' & _).
      inversion Hanc'; eauto. }
    exists nx, (add_value v nx). split_and!; [done| |done].
    by rewrite (Hx x nx Hnx), decide_True.
  - destruct (ancestry_root_last _ _ _ _ Hanc) as (nr & Hnr & Hp).
    exists nr. split_and!; [done..|].
    rewrite (Hx root nr Hnr), decide_False; [done|].
    by eapply ancestry_root_fresh.
Qed.

(** C10 (amended). [backup] returns, changes no visit count, and changes
    the cumulative value total of exactly the nodes on the path from the
    invoked node up to, and excluding, the root: to each of them it adds
    [value_estimate + 1], whether or not [select_leaf] decremented it
    before.  Every other attribute of every node stays as it was. *)
Theorem backup_frame h a path root v fuel :
  ancestry h a path root → length path ≤ fuel →
  ∃ h', backup fuel h a v = Return h' ∧
    (root ∉ path) ∧
    (∀ x nx, h !! x = Some nx →
      ∃ nx', h' !! x = Some nx' ∧
        number_visits nx' = number_visits nx ∧
        shape nx' = shape nx ∧
        prior nx' = prior nx ∧
        game_state_of nx' = game_state_of nx ∧
        total_value nx' =
          (if decide (x ∈ path)
           then num_add (total_value nx) (num_add v (num_of_nat 1))
           else total_value nx)).
Proof.
  intros Hanc Hf.
  destruct (backup_spec fuel h a path root v Hanc Hf) as (h' & Hb & _ & Hx).
  exists h'. split_and!; [done|by eapply ancestry_root_fresh|].
  intros x nx Hnx. rewrite (Hx x nx Hnx).
  destruct (decide (x ∈ path)); eexists; split_and!; done.
Qed.

(** C7 (amended). On a finite tree whose expanded nodes all have at least
    one child, [select_leaf] returns, and the node it returns is unexpanded.
    The expanded nodes it passes through ([path], starting with the node it
    was invoked on when that node is expanded) each get their visit count
    incremented and their cumulative value total decremented by 1, once;
    no other node changes; and every step of the walk goes to the first
    child whose [Q + U] no other child's exceeds ([descent selects]). *)
Theorem select_leaf_walk `{!PyNumOrder num} h a n rank fuel :
  finite_tree h rank → populated h → h !! a = Some n → rank a ≤ fuel →
  ∃ h' leaf path,
    select_leaf fuel h a = Return (h', leaf) ∧
    (∃ nl, h' !! leaf = Some nl ∧ is_expanded nl = false) ∧
    descent selects h a path h' leaf ∧
    (is_expanded n = true → a ∈ path) ∧
    NoDup path ∧
    (∀ x, x ∈ path → ∃ nx nx',
       h !! x = Some nx ∧ is_expanded nx = true ∧ h' !! x = Some nx' ∧
       number_visits nx' = number_visits nx + 1 ∧
       total_value nx' = num_sub (total_value nx) (num_of_nat 1)) ∧
    (∀ x, x ∉ path → h' !! x = h !! x).
Proof.
  intros Ht Hp Ha Hf.
  destruct (select_leaf_returns fuel h a n rank Ht Hp Ha Hf) as (h' & leaf & E).
  destruct (select_leaf_descent _ _ _ _ _ E) as [path Hd].
  destruct (descent_effect picks h a path h' leaf rank picks_child Ht Hd)
    as (Hs & Hx & Hpath & Hnd & _ & (nl & Hnl & Hexl) & _ & _).
  assert (leaf ∉ path) as Hleaf.
  { intros Hin. destruct (Hpath leaf Hin) as (_ & nx & Hnx & Hexx). congruence. }
  exists h', leaf, path. split_and!.
  - done.
  - exists nl. split; [|done]. by rewrite (Hx leaf nl Hnl), decide_False.
  - eapply descent_mono; [|done]. intros ???. by apply best_child_selects.
  - intros Hex. inversion Hd; subst; [congruence|]. apply elem_of_cons. by left.
  - done.
  - intros x Hin. destruct (Hpath x Hin) as (_ & nx & Hnx & Hexx).
    exists nx, (visit nx). split_and!; [done..| |done|done].
    by rewrite (Hx x nx Hnx), decide_True.
  - intros x Hin. destruct (h !! x) as [nx|] eqn:Hnx.
    + by rewrite (Hx x nx Hnx), decide_False.
    + apply lookup_ge_None. apply lookup_ge_None in Hnx.
      apply shapes_length in Hs. lia.
Qed.

(** **** The node state machine *)

Section Search.
Context `{Evaluator game_state num}.

(** The operations of the engine as steps on the heap: creating a node,
    [select_leaf], [expand], [backup], and one read of the search driver.
    With [once = true], [expand] is only applied to a node that is not
    expanded yet. *)
Inductive op_step (once : bool) : heap → heap → Prop :=
| step_init h gs par q :
    op_step once h (h ++ [init gs par q])
| step_select_leaf h fuel a h' leaf :
    select_leaf fuel h a = Return (h', leaf) → op_step once h h'
| step_expand h a n priors h' :
    h !! a = Some n → (once = true → is_expanded n = false) →
    expand h a priors = Return h' → op_step once h h'
| step_backup h fuel a v h' :
    backup fuel h a v = Return h' → op_step once h h'
| step_read h fuel root i h' :
    read fuel root i h = Return h' → op_step once h h'.

(** The first state of a node: not expanded, and then without children. *)
Definition unexpanded_childless (h : heap) : Prop :=
  ∀ a n, h !! a = Some n → is_expanded n = false → children n = [].

(** From [h] to [h'] every node stays, an expanded node stays expanded, and
    no move leaves a children mapping; with [once = true] the mapping of an
    expanded node stays what it is. *)
Definition grows (once : bool) (h h' : heap) : Prop :=
  ∀ a n, h !! a = Some n →
    ∃ n', h' !! a = Some n' ∧
      (is_expanded n = true → is_expanded n' = true) ∧
      (∀ move, move ∈ (children n).*1 → move ∈ (children n').*1) ∧
      (once = true → is_expanded n = true → children n' = children n).

Lemma grows_refl once h : grows once h h.
Proof. intros a n Ha. exists n. split_and!; done. Qed.

Lemma grows_trans once h1 h2 h3 :
  grows once h1 h2 → grows once h2 h3 → grows once h1 h3.
Proof.
  intros H12 H23 a n Ha.
  destruct (H12 a n Ha) as (n2 & Ha2 & He2 & Hk2 & Hc2).
  destruct (H23 a n2 Ha2) as (n3 & Ha3 & He3 & Hk3 & Hc3).
  exists n3. split_and!; [done|auto|auto|].
  intros Ho Hex. rewrite Hc3, Hc2; auto.
Qed.

Lemma shapes_grows once h h' : shapes h' = shapes h → grows once h h'.
Proof.
  intros E a n Ha. destruct (shapes_lookup h h' a n E Ha) as (n' & Hn' & Hs).
  injection Hs as Hs1 Hs2 Hs3. exists n'. rewrite Hs1, Hs3. split_and!; done.
Qed.

Lemma shapes_unexpanded_childless h h' :
  shapes h' = shapes h → unexpanded_childless h → unexpanded_childless h'.
Proof.
  intros E Hu a n' Ha Hex.
  destruct (shapes_lookup h' h a n') as (n & Hn & Hs); [done..|].
  injection Hs as Hs1 Hs2 Hs3. rewrite <- Hs3. apply (Hu a n Hn). congruence.
Qed.

Lemma expand_grows once h a n priors h' :
  h !! a = Some n → (once = true → is_expanded n = false) →
  expand h a priors = Return h' →
  grows once h h' ∧ (unexpanded_childless h → unexpanded_childless h').
Proof.
  intros Ha Honce E.
  destruct (expand_spec h a priors n Ha) as (h2 & E2 & Hl & Hn & Hfr & Hnew).
  rewrite E in E2. injection E2 as <-. split.
  - intros x nx Hx. destruct (decide (x = a)) as [->|Hne].
    + rewrite Ha in Hx. injection Hx as <-. eexists. split; [exact Hn|].
      split_and!; simpl; [done| |].
      * intros move. apply children_after_keys.
      * intros Ho Hex. rewrite Honce in Hex; done.
    + exists nx. rewrite Hfr; [|done|by eapply lookup_lt_Some]. split_and!; done.
  - intros Hu x nx Hx Hex. destruct (decide (x = a)) as [->|Hne].
    + rewrite Hn in Hx. injection Hx as <-. done.
    + destruct (decide (x < length h)) as [Hlt|Hge].
      * rewrite Hfr in Hx by done. eauto.
      * pose proof (lookup_lt_Some _ _ _ Hx) as Hlt. rewrite Hl in Hlt.
        destruct (lookup_lt_is_Some_2 priors (x - length h)) as [q Hq]; [lia|].
        specialize (Hnew _ _ Hq). replace (length h + (x - length h)) with x in Hnew by lia.
        rewrite Hnew in Hx. by injection Hx as <-.
Qed.

Lemma read_grows once fuel root i h h' :
  read fuel root i h = Return h' →
  grows once h h' ∧ (unexpanded_childless h → unexpanded_childless h').
Proof.
  unfold read. intros E. inv_bind E as [h1 leaf] Hsel. inv_bind E as n Hn.
  apply deref_Return in Hn.
  destruct (evaluate i (game_state_of n)) as [child_priors value_estimate].
  inv_bind E as h2 Hexp.
  destruct (select_leaf_shapes _ _ _ _ _ Hsel) as (Hs1 & nl & Hnl & Hex).
  rewrite Hn in Hnl. injection Hnl as <-.
  destruct (expand_grows once h1 leaf n child_priors h2) as [Hg2 Hu2]; [done..|].
  pose proof (backup_shapes _ _ _ _ _ E) as Hs3. split.
  - eapply grows_trans; [by apply shapes_grows|].
    eapply grows_trans; [done|]. by apply shapes_grows.
  - intros Hu. eapply shapes_unexpanded_childless; [done|].
    apply Hu2. by eapply shapes_unexpanded_childless.
Qed.

Lemma op_step_grows once h h' :
  op_step once h h' →
  grows once h h' ∧ (unexpanded_childless h → unexpanded_childless h').
Proof.
  destruct 1 as [h gs par q|h fuel a h' leaf E|h a n priors h' Ha Ho E
                |h fuel a v h' E|h fuel root i h' E].
  - split.
    + intros a n Ha. exists n. rewrite lookup_app_l by by eapply lookup_lt_Some.
      split_and!; done.
    + intros Hu a n Ha Hex. destruct (decide (a < length h)) as [Hlt|Hge].
      * rewrite lookup_app_l in Ha by done. eauto.
      * rewrite lookup_app_r in Ha by lia.
        destruct (a - length h) as [|k]; simpl in Ha; [|by rewrite lookup_nil in Ha].
        by injection Ha as <-.
  - destruct (select_leaf_shapes _ _ _ _ _ E) as [Hs _].
    split; [by apply shapes_grows|by apply shapes_unexpanded_childless].
  - by eapply expand_grows.
  - pose proof (backup_shapes _ _ _ _ _ E) as Hs.
    split; [by apply shapes_grows|by apply shapes_unexpanded_childless].
  - by eapply read_grows.
Qed.

(** The search driver only makes steps of the state machine. *)
Lemma reads_steps once fuel root count : ∀ i h h',
  reads fuel root i count h = Return h' → rtc (op_step once) h h'.
Proof.
  induction count as [|count IH]; intros i h h' E; simpl in E.
  - injection E as <-. apply rtc_refl.
  - inv_bind E as h1 Hr. eapply rtc_l; [by eapply step_read|]. eauto.
Qed.

Lemma rtc_op_step_grows once h h' :
  rtc (op_step once) h h' → unexpanded_childless h →
  unexpanded_childless h' ∧ grows once h h'.
Proof.
  induction 1 as [h|h1 h2 h3 Hstep _ IH]; intros Hu.
  - split; [done|apply grows_refl].
  - destruct (op_step_grows _ _ _ Hstep) as [Hg Hu2].
    destruct (IH (Hu2 Hu)) as [Hu3 Hg3].
    split; [done|]. by eapply grows_trans.
Qed.

(** C8 (amended). Along any sequence of operations of the engine, starting
    from a heap in which the unexpanded nodes have no children: the
    unexpanded nodes still have no children; a node that is expanded stays
    expanded; no move is ever removed from a children mapping; and when
    [expand] is applied to unexpanded nodes only ([once = true], as in the
    search driver) the children mapping of an expanded node never changes
    again.  [expand] itself has no guard: applied to any node of the heap
    reached, expanded or not, it returns, leaves the node expanded, stores
    under each move that has a prior a node that it has just created, at an
    address that the heap did not have, in place of whatever child was
    stored there, and keeps the entries of the other moves. *)
Theorem node_state_machine once h h' :
  rtc (op_step once) h h' → unexpanded_childless h →
  unexpanded_childless h' ∧ grows once h h' ∧
  ∀ a n priors, h' !! a = Some n →
    ∃ h'' n'',
      expand h' a priors = Return h'' ∧ h'' !! a = Some n'' ∧
      is_expanded n'' = true ∧
      (∀ move q, priors !! move = Some q →
         dict_get move (children n'') = Some (length h' + move) ∧
         h' !! (length h' + move) = None ∧
         h'' !! (length h' + move)
           = Some (init (play (game_state_of n) move) (Some a) q)) ∧
      (∀ move, length priors ≤ move →
         dict_get move (children n'') = dict_get move (children n)).
Proof.
  intros Hsteps Hu.
  destruct (rtc_op_step_grows _ _ _ Hsteps Hu) as [Hu' Hg].
  split_and!; [done|done|].
  intros a n priors Ha.
  destruct (expand_spec h' a priors n Ha) as (h2 & E & Hl & Hn & Hfr & Hnew).
  eexists h2, _. split_and!; [exact E|exact Hn|done| |].
  - intros move q Hq. pose proof (lookup_lt_Some _ _ _ Hq) as Hlt. split_and!.
    + simpl. rewrite children_after_get. rewrite decide_True by lia.
      f_equal. lia.
    + apply lookup_ge_None. lia.
    + by apply Hnew.
  - intros move Hmove. simpl. rewrite children_after_get. by rewrite decide_False by lia.
Qed.

(** **** The search driver *)

(** The tree that the reads build, read off the shapes of the heap: the
    root is the first object and is expanded; a child refers back to its
    parent; [dep] is the depth of a node; after [t] reads no node is deeper
    than [t], and no expanded node deeper than [t - 1]. *)
Abbreviation shape_t := (bool * option addr * list (nat * addr))%type.

Record tree_ok (t : nat) (dep : addr → nat) (sh : list shape_t) : Prop := {
  ok_root : ∃ cs, sh !! 0 = Some (true, None, cs) ∧ NoDup cs.*2;
  ok_child : ∀ a (e : bool) (par : option addr) (cs : list (nat * addr)) c,
    sh !! a = Some (e, par, cs) → c ∈ cs.*2 → ∃ e' cs', sh !! c = Some (e', Some a, cs');
  ok_parent : ∀ a (e : bool) p (cs : list (nat * addr)),
    sh !! a = Some (e, Some p, cs) → dep a = S (dep p) ∧ is_Some (sh !! p);
  ok_populated : ∀ a (par : option addr) (cs : list (nat * addr)),
    sh !! a = Some (true, par, cs) → cs ≠ [];
  ok_childless : ∀ a (par : option addr) (cs : list (nat * addr)),
    sh !! a = Some (false, par, cs) → cs = [];
  ok_depth : ∀ a (e : bool) (par : option addr) (cs : list (nat * addr)),
    sh !! a = Some (e, par, cs) → dep a ≤ t ∧ (e = true → dep a < t)
}.

Lemma lookup_shapes h a : shapes h !! a = shape <$> h !! a.
Proof. apply list_lookup_fmap. Qed.

Lemma lookup_shapes_Some h a n : h !! a = Some n → shapes h !! a = Some (shape n).
Proof. intros Ha. by rewrite lookup_shapes, Ha. Qed.

(** The shapes after expanding an unexpanded node [leaf] with [k] priors. *)
Definition expanded_shapes (sh : list shape_t) (leaf : addr) (par : option addr) (k : nat)
  : list shape_t :=
  <[leaf := (true, par, (λ i, (i, length sh + i)) <$> seq 0 k)]> sh
  ++ replicate k (false, Some leaf, []).

Lemma expand_shapes h leaf n priors h2 :
  h !! leaf = Some n → children n = [] → expand h leaf priors = Return h2 →
  shapes h2 = expanded_shapes (shapes h) leaf (parent n) (length priors).
Proof.
  intros Hn Hc E.
  destruct (expand_spec h leaf priors n Hn) as (h' & E' & Hl & Hleaf & Hfr & Hnew).
  rewrite E in E'. injection E' as <-.
  pose proof (lookup_lt_Some _ _ _ Hn) as Hlt.
  assert (length (shapes h) = length h) as Hsl by apply length_fmap.
  apply list_eq. intros i. unfold expanded_shapes. rewrite lookup_shapes, Hsl.
  destruct (decide (i < length h)) as [Hi|Hi].
  - rewrite lookup_app_l by (rewrite length_insert; lia).
    destruct (decide (i = leaf)) as [->|Hne].
    + rewrite Hleaf, list_lookup_insert_eq by lia. simpl. unfold shape. simpl.
      by rewrite Hc, children_after_fresh.
    + rewrite Hfr, list_lookup_insert_ne by done. by rewrite lookup_shapes.
  - rewrite lookup_app_r by (rewrite length_insert; lia).
    rewrite length_insert, Hsl.
    destruct (decide (i < length h + length priors)) as [Hi2|Hi2].
    + destruct (lookup_lt_is_Some_2 priors (i - length h)) as [q Hq]; [lia|].
      specialize (Hnew _ _ Hq). replace (length h + (i - length h)) with i in Hnew by lia.
      rewrite Hnew. simpl. symmetry. apply lookup_replicate. split; [done|lia].
    + rewrite (lookup_ge_None_2 h2) by lia. symmetry.
      apply lookup_ge_None_2. rewrite length_replicate. lia.
Qed.

Lemma lookup_expanded_shapes sh leaf (par : option addr) k a s :
  leaf < length sh →
  expanded_shapes sh leaf par k !! a = Some s ↔
    (a = leaf ∧ s = (true, par, (λ i, (i, length sh + i)) <$> seq 0 k)) ∨
    (a ≠ leaf ∧ sh !! a = Some s) ∨
    (length sh ≤ a < length sh + k ∧ s = (false, Some leaf, [])).
Proof.
  intros Hlt. unfold expanded_shapes.
  destruct (decide (a < length sh)) as [Ha|Ha].
  - rewrite lookup_app_l by (rewrite length_insert; lia).
    destruct (decide (a = leaf)) as [->|Hne].
    + rewrite list_lookup_insert_eq by done. split.
      * intros [= <-]. by left.
      * intros [[_ ->]|[[? _]|[? _]]]; [done|done|lia].
    + rewrite list_lookup_insert_ne by done. split.
      * intros Hs. right. by left.
      * intros [[? _]|[[_ ?]|[? _]]]; [done|done|lia].
  - rewrite lookup_app_r by (rewrite length_insert; lia).
    rewrite length_insert. split.
    + intros [-> Hk]%lookup_replicate. right. right. split; [lia|done].
    + intros [[-> _]|[[_ Hs]|[? ->]]]; [lia| |].
      * apply lookup_lt_Some in Hs. lia.
      * apply lookup_replicate. split; [done|lia].
Qed.

Lemma tree_ok_expand t dep sh leaf (par : option addr) k :
  tree_ok t dep sh → sh !! leaf = Some (false, par, []) → 0 < k →
  tree_ok (S t) (λ x, if decide (x < length sh) then dep x else S (dep leaf))
          (expanded_shapes sh leaf par k).
Proof.
  intros [(cs0 & Hroot & Hnd) Hchild Hparent Hpop Hless Hdepth] Hleaf Hk.
  pose proof (lookup_lt_Some _ _ _ Hleaf) as Hlt.
  assert (leaf ≠ 0) as Hleaf0 by (intros ->; congruence).
  pose proof (λ a s, lookup_expanded_shapes sh leaf par k a s Hlt) as Hlook.
  assert (∀ a s, sh !! a = Some s → is_Some (expanded_shapes sh leaf par k !! a)) as Hkeep.
  { intros a s Hs. destruct (decide (a = leaf)) as [->|Hne].
    - eexists. apply Hlook. by left.
    - exists s. apply Hlook. right. by left. }
  split.
  - exists cs0. split; [|done]. apply Hlook. right. by left.
  - intros a e p' cs c Ha Hc.
    apply Hlook in Ha as [[-> Hs]|[[Hne Ha]|[Hr Hs]]].
    + injection Hs as -> -> ->.
      apply list_elem_of_fmap in Hc as ([m c'] & -> & Hc).
      apply list_elem_of_fmap in Hc as (i & Hmc & Hi%elem_of_seq).
      injection Hmc as -> ->.
      exists false, []. apply Hlook. right. right. simpl. split; [lia|done].
    + destruct (Hchild a e p' cs c Ha Hc) as (e' & cs' & Hc').
      destruct (decide (c = leaf)) as [->|Hne'].
      * rewrite Hleaf in Hc'. injection Hc' as <- -> <-.
        eexists _, _. apply Hlook. by left.
      * exists e', cs'. apply Hlook. right. by left.
    + injection Hs as -> -> ->. by apply elem_of_nil in Hc.
  - intros a e p' cs Ha.
    apply Hlook in Ha as [[-> Hs]|[[Hne Ha]|[Hr Hs]]].
    + injection Hs as -> <- ->.
      destruct (Hparent leaf false p' [] Hleaf) as [Hd [s Hs]].
      pose proof (lookup_lt_Some _ _ _ Hs). rewrite !decide_True by lia.
      split; [done|]. by eapply Hkeep.
    + destruct (Hparent a e p' cs Ha) as [Hd [s Hs]].
      pose proof (lookup_lt_Some _ _ _ Hs). pose proof (lookup_lt_Some _ _ _ Ha).
      rewrite !decide_True by lia. split; [done|]. by eapply Hkeep.
    + injection Hs as -> -> ->.
      rewrite decide_False by lia. rewrite decide_True by lia.
      split; [done|]. by eapply Hkeep.
  - intros a p' cs Ha.
    apply Hlook in Ha as [[-> Hs]|[[Hne Ha]|[Hr Hs]]].
    + injection Hs as -> ->. destruct k; [lia|]. done.
    + by eauto.
    + discriminate.
  - intros a p' cs Ha.
    apply Hlook in Ha as [[-> Hs]|[[Hne Ha]|[Hr Hs]]].
    + discriminate.
    + by eauto.
    + by injection Hs as -> ->.
  - intros a e p' cs Ha.
    apply Hlook in Ha as [[-> Hs]|[[Hne Ha]|[Hr Hs]]].
    + injection Hs as -> -> ->.
      destruct (Hdepth leaf false par [] Hleaf) as [Hd _].
      rewrite decide_True by lia. split; [lia|]. intros _. lia.
    + destruct (Hdepth a e p' cs Ha) as [Hd Hd'].
      pose proof (lookup_lt_Some _ _ _ Ha). rewrite decide_True by lia.
      split; [lia|]. intros He. specialize (Hd' He). lia.
    + injection Hs as -> -> ->.
      destruct (Hdepth leaf false par [] Hleaf) as [Hd _].
      rewrite decide_False by lia. split; [lia|done].
Qed.

Lemma shapes_lookup_Some h a (e : bool) (par : option addr) (cs : list (nat * addr)) :
  shapes h !! a = Some (e, par, cs) →
  ∃ n, h !! a = Some n ∧ is_expanded n = e ∧ parent n = par ∧ children n = cs.
Proof.
  rewrite lookup_shapes. destruct (h !! a) as [n|]; [|done].
  intros [= <- <- <-]. eauto.
Qed.

Lemma tree_ok_finite_tree t dep h :
  tree_ok t dep (shapes h) → finite_tree h (λ a, t - dep a).
Proof.
  intros Hok a n Ha Hex c Hc.
  apply lookup_shapes_Some in Ha. unfold shape in Ha. rewrite Hex in Ha.
  destruct (ok_child _ _ _ Hok _ _ _ _ c Ha Hc) as (e' & cs' & Hc').
  destruct (ok_depth _ _ _ Hok _ _ _ _ Ha) as [_ Hd]. specialize (Hd eq_refl).
  destruct (ok_parent _ _ _ Hok _ _ _ _ Hc') as [Hdc _].
  apply shapes_lookup_Some in Hc' as (nc & Hnc & _ & Hp & _).
  split; [lia|eauto].
Qed.

Lemma tree_ok_populated t dep h : tree_ok t dep (shapes h) → populated h.
Proof.
  intros Hok a n Ha Hex. apply lookup_shapes_Some in Ha. unfold shape in Ha.
  rewrite Hex in Ha. by eapply ok_populated.
Qed.

(** In such a tree the parent references of every node lead to a root, in
    as many steps as the node is deep, at most. *)
Lemma tree_ok_ancestry t dep h :
  tree_ok t dep (shapes h) →
  ∀ k a n, dep a ≤ k → h !! a = Some n →
    ∃ path root, ancestry h a path root ∧ length path ≤ dep a.
Proof.
  intros Hok. induction k as [|k IH]; intros a n Hk Ha.
  - destruct (parent n) as [p|] eqn:Hp.
    + apply lookup_shapes_Some in Ha. unfold shape in Ha. rewrite Hp in Ha.
      destruct (ok_parent _ _ _ Hok _ _ _ _ Ha) as [Hd _]. lia.
    + exists [], a. split; [by econstructor|simpl; lia].
  - destruct (parent n) as [p|] eqn:Hp.
    + pose proof (lookup_shapes_Some _ _ _ Ha) as Hs. unfold shape in Hs. rewrite Hp in Hs.
      destruct (ok_parent _ _ _ Hok _ _ _ _ Hs) as [Hd [sp Hsp]].
      destruct sp as [[ep pp] cp].
      apply shapes_lookup_Some in Hsp as (np & Hnp & _).
      destruct (IH p np) as (path & root & Hanc & Hlen); [lia|done|].
      exists (a :: path), root. split; [by econstructor|simpl; lia].
    + exists [], a. split; [by econstructor|simpl; lia].
Qed.

(** The statistics of the root's children that the search returns from. *)
Definition visits_of (h : heap) (c : addr) : nat :=
  default 0 (number_visits <$> h !! c).

Definition expanded_of (h : heap) (c : addr) : nat :=
  default 0 ((λ n : node, if is_expanded n then 1 else 0) <$> h !! c).

Definition visit_sum (h : heap) (cs : list addr) : nat := sum_list_with (visits_of h) cs.

Definition expanded_count (h : heap) (cs : list addr) : nat :=
  sum_list_with (expanded_of h) cs.

Lemma sum_with_plus {A} (f g : A → nat) (l : list A) :
  sum_list_with f l + sum_list_with g l = sum_list_with (λ y, f y + g y) l.
Proof. induction l as [|y l IH]; simpl; [done|]. rewrite <- IH. lia. Qed.

Lemma sum_with_ext {A} (f g : A → nat) (l : list A) :
  (∀ y, y ∈ l → g y = f y) → sum_list_with g l = sum_list_with f l.
Proof.
  induction l as [|y l IH]; simpl; intros E; [done|].
  rewrite E, IH; [done| |apply elem_of_cons; by left].
  intros z Hz. apply E. apply elem_of_cons. by right.
Qed.

Lemma sum_with_bump (f g : addr → nat) (l : list addr) c1 :
  NoDup l → c1 ∈ l →
  (∀ c, c ∈ l → g c = f c + (if decide (c = c1) then 1 else 0)) →
  sum_list_with g l = S (sum_list_with f l).
Proof.
  induction l as [|y l IH]; intros Hnd Hin E.
  - by apply elem_of_nil in Hin.
  - apply NoDup_cons in Hnd as [Hy Hnd]. simpl.
    rewrite (E y) by (apply elem_of_cons; by left).
    destruct (decide (y = c1)) as [->|Hne].
    + rewrite (sum_with_ext f g l); [lia|].
      intros z Hz. rewrite E by (apply elem_of_cons; by right).
      rewrite decide_False; [lia|]. intros ->. done.
    + rewrite IH; [lia|done| |].
      * apply elem_of_cons in Hin as [->|Hin]; done.
      * intros z Hz. apply E. apply elem_of_cons. by right.
Qed.

(** One read of the search on a tree built by earlier reads: it returns,
    leaves such a tree, visits the root once more, and adds one in total to
    the visit counts and expansion flags of the root's children. *)
Lemma read_step t dep fuel i h r :
  (∀ j gs, (evaluate j gs).1 ≠ []) →
  tree_ok t dep (shapes h) → t ≤ fuel → h !! 0 = Some r →
  ∃ h' dep' r',
    read fuel 0 i h = Return h' ∧ tree_ok (S t) dep' (shapes h') ∧
    h' !! 0 = Some r' ∧ number_visits r' = S (number_visits r) ∧
    children r' = children r ∧
    visit_sum h' (children r).*2 + expanded_count h' (children r).*2 =
      S (visit_sum h (children r).*2 + expanded_count h (children r).*2).
Proof.
  intros Hev Hok Hfuel Hr.
  pose proof (tree_ok_finite_tree _ _ _ Hok) as Ht.
  pose proof (tree_ok_populated _ _ _ Hok) as Hpop.
  destruct (ok_root _ _ _ Hok) as (cs0 & Hroot & Hnd).
  pose proof (lookup_shapes_Some _ _ _ Hr) as Hr'. rewrite Hroot in Hr'.
  injection Hr' as Hre Hrp Hrc. subst cs0.
  set (rank := λ a, t - dep a) in *.
  destruct (select_leaf_returns fuel h 0 r rank Ht Hpop Hr) as (h1 & leaf & E1);
    [unfold rank; lia|].
  destruct (select_leaf_descent _ _ _ _ _ E1) as [path Hd].
  destruct (descent_effect picks h 0 path h1 leaf rank picks_child Ht Hd)
    as (Hs1 & Hx1 & Hpath & Hndp & _ & (nl & Hnl & Hexl) & Hain & Hrank).
  inversion Hd as [? ? n0 Hn0 Hex0|? ? n0 c1 path' ? ? Hn0 Hex0 Hpick Hd'];
    simplify_eq; [congruence|].
  assert (shapes (<[0 := visit r]> h) = shapes h) as Hs0 by by eapply shapes_insert.
  assert (finite_tree (<[0 := visit r]> h) rank) as Ht0 by by eapply finite_tree_shapes.
  destruct (descent_effect picks _ c1 path' h1 leaf rank picks_child Ht0 Hd')
    as (_ & _ & _ & _ & _ & _ & Hain' & Hrank').
  destruct (picks_child _ _ _ Hpick) as (n0' & Hn0' & Hc1in).
  rewrite list_lookup_insert_eq in Hn0' by by eapply lookup_lt_Some.
  injection Hn0' as <-. simpl in Hc1in.
  assert (leaf ∉ 0 :: path') as Hleafpath.
  { intros Hin. destruct (Hpath leaf Hin) as (_ & nx & Hnx & Hexx). congruence. }
  assert (leaf ≠ 0) as Hleaf0.
  { intros ->. apply Hleafpath, elem_of_cons. by left. }
  assert (h1 !! leaf = Some nl) as Hnl1 by by rewrite (Hx1 leaf nl Hnl), decide_False.
  pose proof (lookup_shapes_Some _ _ _ Hnl) as Hsl. unfold shape in Hsl. rewrite Hexl in Hsl.
  pose proof (ok_childless _ _ _ Hok _ _ _ Hsl) as Hcl. rewrite Hcl in Hsl.
  destruct (evaluate i (game_state_of nl)) as [priors v] eqn:Hevi.
  assert (priors ≠ []) as Hpri.
  { specialize (Hev i (game_state_of nl)). by rewrite Hevi in Hev. }
  destruct (expand_spec h1 leaf priors nl Hnl1) as (h2 & E2 & Hl2 & Hleaf2 & Hfr2 & Hnew2).
  pose proof (expand_shapes h1 leaf nl priors h2 Hnl1 Hcl E2) as Hs2.
  set (dep' := λ x, if decide (x < length (shapes h)) then dep x else S (dep leaf)).
  assert (tree_ok (S t) dep' (shapes h2)) as Hok2.
  { rewrite Hs2, Hs1. apply tree_ok_expand; [done..|].
    destruct priors; [done|simpl; lia]. }
  assert (dep' leaf ≤ t) as Hdl.
  { unfold dep'. rewrite decide_True by by eapply lookup_lt_Some.
    by destruct (ok_depth _ _ _ Hok _ _ _ _ Hsl). }
  destruct (tree_ok_ancestry _ _ _ Hok2 (dep' leaf) leaf _ (le_n _) Hleaf2)
    as (bpath & broot & Hanc & Hblen).
  destruct (backup_spec fuel h2 leaf bpath broot v Hanc) as (h3 & E3 & Hs3 & Hx3); [lia|].
  assert (h1 !! 0 = Some (visit r)) as Hr1.
  { rewrite (Hx1 0 r Hr), decide_True; [done|]. apply elem_of_cons. by left. }
  assert (h2 !! 0 = Some (visit r)) as Hr2.
  { rewrite Hfr2; [done..|]. by eapply lookup_lt_Some. }
  assert (∀ x n2, h2 !! x = Some n2 →
            visits_of h3 x = number_visits n2 ∧
            expanded_of h3 x = (if is_expanded n2 then 1 else 0)) as Hst3.
  { intros x n2 Hx2. unfold visits_of, expanded_of. rewrite (Hx3 x n2 Hx2).
    destruct (decide (x ∈ bpath)); done. }
  exists h3, dep', (visit r). split_and!.
  - unfold read. rewrite E1. simpl. unfold deref. rewrite Hnl1. simpl.
    rewrite Hevi, E2. simpl. exact E3.
  - by rewrite Hs3.
  - rewrite (Hx3 0 _ Hr2), decide_False; [done|].
    intros Hin. destruct (ancestry_suffix _ _ _ _ _ Hanc Hin) as (p' & Hanc' & _).
    inversion Hanc'; simplify_eq. simpl in *. congruence.
  - simpl. lia.
  - done.
  - unfold visit_sum, expanded_count. rewrite !sum_with_plus.
    apply sum_with_bump with (c1 := c1); [done..|].
    intros c Hc.
    destruct (ok_child _ _ _ Hok 0 _ _ _ c Hroot Hc) as (e' & cs' & Hcs).
    destruct (ok_parent _ _ _ Hok _ _ _ _ Hcs) as [Hdc _].
    apply shapes_lookup_Some in Hcs as (nc & Hnc & Hec & Hpc & _).
    destruct (ok_child _ _ _ Hok 0 _ _ _ c1 Hroot Hc1in) as (e1 & cs1 & Hcs1).
    destruct (ok_parent _ _ _ Hok _ _ _ _ Hcs1) as [Hdc1 _].
    destruct (ok_depth _ _ _ Hok _ _ _ _ Hcs1) as [Hdle1 _].
    assert (c ≠ 0) as Hc0 by (intros ->; congruence).
    pose proof (lookup_lt_Some _ _ _ Hnc) as Hclt.
    apply shapes_length in Hs1.
    destruct (decide (c = c1)) as [->|Hne].
    + destruct (is_expanded nc) eqn:Hexc.
      * assert (c1 ≠ leaf) as Hcl1 by (intros ->; congruence).
        assert (c1 ∈ 0 :: path') as Hin.
        { apply elem_of_cons. right. apply elem_of_app in Hain' as [?|Hin]; [done|].
          by apply list_elem_of_singleton in Hin. }
        assert (h2 !! c1 = Some (visit nc)) as Hc2.
        { rewrite Hfr2 by (done || lia). by rewrite (Hx1 c1 nc Hnc), decide_True. }
        destruct (Hst3 _ _ Hc2) as [-> ->]. unfold visits_of, expanded_of.
        rewrite Hnc. simpl. rewrite Hexc. lia.
      * assert (c1 ∉ 0 :: path') as Hnin.
        { intros Hin. destruct (Hpath c1 Hin) as (_ & nx & Hnx & Hexx). congruence. }
        assert (c1 = leaf) as ->.
        { apply elem_of_app in Hain' as [Hin|Hin].
          - exfalso. apply Hnin, elem_of_cons. by right.
          - by apply list_elem_of_singleton in Hin. }
        destruct (Hst3 _ _ Hleaf2) as [-> ->]. unfold visits_of, expanded_of.
        rewrite Hnc. simpl. rewrite Hexc. simplify_eq. lia.
    + assert (c ∉ path' ++ [leaf]) as Hnin.
      { intros Hin. destruct (Hrank' c Hin) as [->|Hlt]; [done|]. unfold rank in Hlt. lia. }
      assert (h2 !! c = Some nc) as Hc2.
      { rewrite Hfr2; [|intros ->; apply Hnin, elem_of_app; right;
                          by apply list_elem_of_singleton|lia].
        rewrite (Hx1 c nc Hnc), decide_False; [done|].
        intros [?|Hin]%elem_of_cons; [done|]. apply Hnin, elem_of_app. by left. }
      destruct (Hst3 _ _ Hc2) as [-> ->]. unfold visits_of, expanded_of.
      rewrite Hnc. simpl. lia.
Qed.

Lemma seq_children L k : ((λ i, (i, L + i)) <$> seq 0 k).*2 = seq L k.
Proof.
  rewrite <- list_fmap_compose. change (Nat.add L <$> seq 0 k = seq L k).
  rewrite fmap_add_seq. f_equal. lia.
Qed.

(** The first read expands the root. *)
Lemma first_read fuel i gs :
  (∀ j gs, (evaluate j gs).1 ≠ []) →
  ∃ h' dep' r',
    read fuel 0 i [init gs None (num_of_nat 0)] = Return h' ∧
    tree_ok 1 dep' (shapes h') ∧
    h' !! 0 = Some r' ∧ number_visits r' = 0 ∧
    visit_sum h' (children r').*2 + expanded_count h' (children r').*2 = 0.
Proof.
  intros Hev. set (root := init gs None (num_of_nat 0)).
  assert (select_leaf fuel [root] 0 = Return ([root], 0)) as E1 by by destruct fuel.
  destruct (evaluate i gs) as [priors v] eqn:Hevi.
  assert (priors ≠ []) as Hpri.
  { specialize (Hev i gs). by rewrite Hevi in Hev. }
  destruct (expand_spec [root] 0 priors root eq_refl) as (h2 & E2 & Hl2 & Hroot2 & Hfr2 & Hnew2).
  pose proof (expand_shapes [root] 0 root priors h2 eq_refl eq_refl E2) as Hs2.
  assert (backup fuel h2 0 v = Return h2) as E3.
  { destruct fuel; simpl; unfold deref; rewrite Hroot2; done. }
  assert (∀ a s, expanded_shapes (shapes [root]) 0 None (length priors) !! a = Some s ↔
            (a = 0 ∧ s = (true, None, (λ i, (i, 1 + i)) <$> seq 0 (length priors))) ∨
            (a ≠ 0 ∧ [shape root] !! a = Some s) ∨
            (1 ≤ a < 1 + length priors ∧ s = (false, Some 0, []))) as Hlook.
  { intros a s.
    apply (lookup_expanded_shapes (shapes [root]) 0 None (length priors) a s Nat.lt_0_1). }
  simpl in Hnew2.
  eexists h2, (λ x, match x with 0 => 0 | _ => 1 end), _. split_and!.
  - unfold read. rewrite E1. simpl. rewrite Hevi, E2. simpl. exact E3.
  - rewrite Hs2. split.
    + eexists. split; [apply Hlook; by left|].
      rewrite seq_children. apply NoDup_seq.
    + intros a e par cs c Ha Hc.
      apply Hlook in Ha as [[-> Hs]|[[Hne Ha]|[Hr Hs]]].
      * injection Hs as -> -> ->.
        change (c ∈ ((λ i, (i, 1 + i)) <$> seq 0 (length priors)).*2) in Hc.
        rewrite seq_children in Hc.
        apply elem_of_seq in Hc. exists false, []. apply Hlook. right. right.
        split; [lia|done].
      * destruct a as [|a']; [done|]. simpl in Ha. by rewrite lookup_nil in Ha.
      * injection Hs as -> -> ->. by apply elem_of_nil in Hc.
    + intros a e p cs Ha.
      apply Hlook in Ha as [[-> Hs]|[[Hne Ha]|[Hr Hs]]].
      * discriminate.
      * destruct a as [|a']; [done|]. simpl in Ha. by rewrite lookup_nil in Ha.
      * injection Hs as -> -> ->. destruct a; [lia|]. split; [done|].
        eexists. apply Hlook. by left.
    + intros a par cs Ha.
      apply Hlook in Ha as [[-> Hs]|[[Hne Ha]|[Hr Hs]]].
      * injection Hs as -> ->. destruct priors; done.
      * destruct a as [|a']; [done|]. simpl in Ha. by rewrite lookup_nil in Ha.
      * discriminate.
    + intros a par cs Ha.
      apply Hlook in Ha as [[-> Hs]|[[Hne Ha]|[Hr Hs]]].
      * discriminate.
      * destruct a as [|a']; [done|]. simpl in Ha. by rewrite lookup_nil in Ha.
      * by injection Hs as -> ->.
    + intros a e par cs Ha.
      apply Hlook in Ha as [[-> Hs]|[[Hne Ha]|[Hr Hs]]].
      * split; [lia|]. intros _. lia.
      * destruct a as [|a']; [done|]. simpl in Ha. by rewrite lookup_nil in Ha.
      * injection Hs as -> -> ->. destruct a; [lia|]. split; [lia|done].
  - exact Hroot2.
  - done.
  - simpl. rewrite children_after_fresh, seq_children.
    unfold visit_sum, expanded_count. rewrite sum_with_plus.
    rewrite (sum_with_ext (λ _, 0)).
    + induction (seq 1 (length priors)); simpl; lia.
    + intros c [Hc1 Hc2]%elem_of_seq. unfold visits_of, expanded_of.
      destruct (lookup_lt_is_Some_2 priors (c - 1)) as [q Hq]; [lia|].
      specialize (Hnew2 _ _ Hq). replace (S (c - 1)) with c in Hnew2 by lia.
      by rewrite Hnew2.
Qed.

Lemma reads_inv fuel count : ∀ t dep i h r,
  (∀ j gs, (evaluate j gs).1 ≠ []) →
  tree_ok t dep (shapes h) → t + count ≤ S fuel → h !! 0 = Some r →
  ∃ h' dep' r',
    reads fuel 0 i count h = Return h' ∧ tree_ok (t + count) dep' (shapes h') ∧
    h' !! 0 = Some r' ∧ number_visits r' = number_visits r + count ∧
    children r' = children r ∧
    visit_sum h' (children r).*2 + expanded_count h' (children r).*2 =
      visit_sum h (children r).*2 + expanded_count h (children r).*2 + count.
Proof.
  induction count as [|count IH]; intros t dep i h r Hev Hok Hfuel Hr.
  - exists h, dep, r. rewrite !Nat.add_0_r. done.
  - destruct (read_step t dep fuel i h r Hev Hok) as (h1 & dep1 & r1 & E1 & Hok1 & Hr1 & Hv1 & Hc1 & Hs1);
      [lia|done|].
    destruct (IH (S t) dep1 (S i) h1 r1 Hev Hok1) as (h2 & dep2 & r2 & E2 & Hok2 & Hr2 & Hv2 & Hc2 & Hs2);
      [lia|done|].
    exists h2, dep2, r2. simpl. rewrite E1. simpl. rewrite Hc1 in *.
    replace (t + S count) with (S t + count) by lia.
    split_and!; [done..|lia|congruence|lia].
Qed.

(** C2 (amended). When the evaluator never returns an empty prior vector,
    [UCT_search] with [num_reads = N ≥ 1] returns (the loops of
    [select_leaf] and [backup] make at most [N] iterations each).  The pair
    it returns is an entry of the root's children mapping whose child has
    the highest visit count, the first such entry in the iteration order of
    the mapping.  The root has been visited [N - 1] times, and the visit
    counts of the root's children add up to [N - 1] minus the number of
    those children that are expanded: not to [N]. *)
Theorem UCT_search_most_visited gs N fuel :
  (∀ j gs, (evaluate j gs).1 ≠ []) → 1 ≤ N → N ≤ fuel →
  ∃ move child h r nc pre post,
    UCT_search fuel gs N = Return ((move, child), h) ∧
    h !! 0 = Some r ∧ parent r = None ∧
    children r = pre ++ (move, child) :: post ∧
    h !! child = Some nc ∧
    (∀ item, item ∈ pre → visits_of h item.2 < number_visits nc) ∧
    (∀ item, item ∈ post → visits_of h item.2 ≤ number_visits nc) ∧
    number_visits r = N - 1 ∧
    visit_sum h (children r).*2 + expanded_count h (children r).*2 = N - 1.
Proof.
  intros Hev HN Hfuel. destruct N as [|N]; [lia|].
  destruct (first_read fuel 0 gs Hev) as (h1 & dep1 & r1 & E1 & Hok1 & Hr1 & Hv1 & Hs1).
  destruct (reads_inv fuel N 1 dep1 1 h1 r1 Hev Hok1) as (h & dep & r & E & Hok & Hr & Hv & Hc & Hs);
    [lia|done|].
  assert (search_heap fuel gs (S N) = Return h) as Eh.
  { unfold search_heap. simpl. rewrite E1. simpl. exact E. }
  destruct (ok_root _ _ _ Hok) as (cs0 & Hroot & Hnd).
  pose proof (lookup_shapes_Some _ _ _ Hr) as Hr'. rewrite Hroot in Hr'.
  injection Hr' as Hre Hrp Hrc. subst cs0.
  destruct (for_each_defined (λ item, k ← visits_key h item; Return (item, k)) (children r))
    as [keyed Hk].
  { apply Forall_forall. intros [m c] Hin.
    destruct (ok_child _ _ _ Hok 0 _ _ _ c Hroot) as (e' & cs' & Hcs).
    { apply list_elem_of_fmap. by exists (m, c). }
    apply shapes_lookup_Some in Hcs as (nc & Hnc & _).
    unfold visits_key, deref. simpl. rewrite Hnc. simpl. eauto. }
  pose proof (for_each_keyed_fst _ _ _ Hk) as [Hfst Hkey].
  destruct (max_by_defined (λ x y : nat, y <? x) keyed) as [[move child] Hmax].
  { intros ->. simpl in Hfst. symmetry in Hfst.
    by apply (ok_populated _ _ _ Hok 0 None (children r)). }
  assert (∀ x : nat, (x <? x) = false) as Hirr by apply Nat.ltb_irrefl.
  assert (∀ x y z : nat, (y <? x) = true → (z <? y) = true → (z <? x) = true) as Htr.
  { intros x y z Hxy%Nat.ltb_lt Hyz%Nat.ltb_lt. apply Nat.ltb_lt. lia. }
  assert (∀ x y z : nat, (y <? x) = false → (z <? y) = false → (z <? x) = false) as Hinc.
  { intros x y z Hxy%Nat.ltb_ge Hyz%Nat.ltb_ge. apply Nat.ltb_ge. lia. }
  destruct (max_by_first_maximal (λ x y : nat, y <? x) Hirr Htr Hinc keyed (move, child) Hmax)
    as (pre & k & post & -> & Hpre & Hpost).
  assert (∀ item kk, (item, kk) ∈ pre ++ ((move, child), k) :: post →
            ∃ ni, h !! item.2 = Some ni ∧ number_visits ni = kk) as Hvis.
  { intros item kk Hin. specialize (Hkey _ _ Hin). unfold visits_key in Hkey.
    inv_bind Hkey as ni Hni. apply deref_Return in Hni. injection Hkey as <-. eauto. }
  destruct (Hvis (move, child) k) as (nc & Hnc & Hknc).
  { apply elem_of_app. right. apply elem_of_cons. by left. }
  exists move, child, h, r, nc, pre.*1, post.*1. split_and!.
  - unfold UCT_search. rewrite Eh. simpl. unfold most_visited, deref. rewrite Hr. simpl.
    rewrite Hk. simpl. by rewrite Hmax.
  - done.
  - done.
  - rewrite <- Hfst. by rewrite fmap_app.
  - done.
  - intros item ([item' kk] & -> & Hin)%list_elem_of_fmap. simpl.
    destruct (Hvis item' kk) as (ni & Hni & <-); [apply elem_of_app; by left|].
    unfold visits_of. rewrite Hni. simpl. rewrite Hknc.
    apply Nat.ltb_lt. apply (Hpre _ Hin).
  - intros item ([item' kk] & -> & Hin)%list_elem_of_fmap. simpl.
    destruct (Hvis item' kk) as (ni & Hni & <-).
    { apply elem_of_app. right. apply elem_of_cons. by right. }
    unfold visits_of. rewrite Hni. simpl. rewrite Hknc.
    apply Nat.ltb_ge. apply (Hpost _ Hin).
  - lia.
  - rewrite Hc, Hs, Hs1. lia.
Qed.

End Search.

End Properties.

(** *** Examples *)

(** The example heaps are what the constructor and [expand] build. *)
Lemma two_level_built :
  expand fresh_root 0 [QArith_base.Qmake 1 4; QArith_base.Qmake 3 4] = Return two_level.
Proof. reflexivity. Qed.

Lemma three_level_built :
  (h ← expand fresh_root 0 [num_of_nat 1]; expand h 1 [num_of_nat 1]) = Return three_level.
Proof. reflexivity. Qed.

Lemma childless_built : expand fresh_root 0 [] = Return childless.
Proof. reflexivity. Qed.

Lemma three_level_ancestry : ancestry three_level 2 [2; 1] 0.
Proof.
  eapply ancestry_up; [reflexivity..|].
  eapply ancestry_up; [reflexivity..|].
  eapply ancestry_root; reflexivity.
Qed.

Lemma two_level_finite_tree :
  finite_tree two_level (λ a, match a with 0 => 1 | _ => 0 end).
Proof.
  intros [|[|[|a]]] n Ha Hex c Hc; simpl in Ha; simplify_eq; simpl in *;
    try discriminate.
  apply elem_of_cons in Hc as [->|Hc]; [split; [lia|eauto]|].
  apply list_elem_of_singleton in Hc as ->. split; [lia|eauto].
Qed.

Lemma two_level_populated : populated two_level.
Proof.
  intros [|[|[|a]]] n Ha Hex; simpl in Ha; simplify_eq; simpl in *; done.
Qed.

(** Backing up 1/2 from the grandchild of the three-level tree. *)
Lemma backup_adds_below_root_witness :
  ∃ h', backup 2 three_level 2 (QArith_base.Qmake 1 2) = Return h' ∧
    2 ∈ [2; 1] ∧
    (∀ x, x ∈ [2; 1] → ∃ nx nx',
       three_level !! x = Some nx ∧ h' !! x = Some nx' ∧
       total_value nx' =
         num_add (total_value nx) (num_add (QArith_base.Qmake 1 2) (num_of_nat 1))) ∧
    (∃ nr, three_level !! 0 = Some nr ∧ parent nr = None ∧ h' !! 0 = Some nr).
Proof.
  apply (backup_adds_below_root three_level 2 [2; 1] 0 (QArith_base.Qmake 1 2) 2).
  - exact three_level_ancestry.
  - discriminate.
  - simpl. lia.
Defined.

Lemma backup_frame_witness :
  ∃ h', backup 2 three_level 2 (QArith_base.Qmake 1 2) = Return h' ∧
    (0 ∉ [2; 1]) ∧
    (∀ x nx, three_level !! x = Some nx →
      ∃ nx', h' !! x = Some nx' ∧
        number_visits nx' = number_visits nx ∧
        shape nx' = shape nx ∧
        prior nx' = prior nx ∧
        game_state_of nx' = game_state_of nx ∧
        total_value nx' =
          (if decide (x ∈ [2; 1])
           then num_add (total_value nx) (num_add (QArith_base.Qmake 1 2) (num_of_nat 1))
           else total_value nx)).
Proof.
  apply (backup_frame three_level 2 [2; 1] 0 (QArith_base.Qmake 1 2) 2).
  - exact three_level_ancestry.
  - simpl. lia.
Defined.

(** [select_leaf] on the two-level tree, from its root. *)
Lemma select_leaf_walk_witness :
  ∃ h' leaf path,
    select_leaf 1 two_level 0 = Return (h', leaf) ∧
    (∃ nl, h' !! leaf = Some nl ∧ is_expanded nl = false) ∧
    descent selects two_level 0 path h' leaf ∧
    (is_expanded two_level_root = true → 0 ∈ path) ∧
    NoDup path ∧
    (∀ x, x ∈ path → ∃ nx nx',
       two_level !! x = Some nx ∧ is_expanded nx = true ∧ h' !! x = Some nx' ∧
       number_visits nx' = number_visits nx + 1 ∧
       total_value nx' = num_sub (total_value nx) (num_of_nat 1)) ∧
    (∀ x, x ∉ path → h' !! x = two_level !! x).
Proof.
  apply (select_leaf_walk two_level 0 two_level_root
           (λ a, match a with 0 => 1 | _ => 0 end) 1).
  - exact two_level_finite_tree.
  - exact two_level_populated.
  - reflexivity.
  - simpl. lia.
Defined.

(** The walk of the witness: the root is passed, the child with the larger
    prior is returned, and a second call ends there as well. *)
Lemma select_leaf_two_level_twice :
  ∃ h1 h2 r1 r2,
    select_leaf 1 two_level 0 = Return (h1, 2) ∧
    select_leaf 1 h1 0 = Return (h2, 2) ∧
    h1 !! 0 = Some r1 ∧ number_visits r1 = 1 ∧
    h2 !! 0 = Some r2 ∧ number_visits r2 = 2.
Proof. do 4 eexists. split_and!; reflexivity. Qed.

(** C7, as stated, fails: the root expanded with an empty prior vector is a
    finite tree on which [select_leaf] raises instead of returning. *)
Lemma select_leaf_childless_raises :
  expand fresh_root 0 [] = Return childless ∧
  finite_tree childless (λ _, 0) ∧
  select_leaf 1 childless 0 = Raise ValueError ∧
  (∀ fuel r, select_leaf fuel childless 0 ≠ Return r).
Proof.
  split_and!.
  - reflexivity.
  - intros [|a] n Ha Hex c Hc; simpl in Ha; simplify_eq. simpl in Hc.
    by apply elem_of_nil in Hc.
  - reflexivity.
  - intros [|fuel] r; discriminate.
Qed.

(** C10, as stated, fails: on the three-level tree [select_leaf] takes 1
    off the child's total and the [backup] that follows, with the value 0,
    puts it back. *)
Lemma backup_compensates_virtual_loss :
  ∃ h1 h2 n0 n1 n2,
    select_leaf 2 three_level 0 = Return (h1, 2) ∧
    backup 2 h1 2 (num_of_nat 0) = Return h2 ∧
    three_level !! 1 = Some n0 ∧ h1 !! 1 = Some n1 ∧ h2 !! 1 = Some n2 ∧
    total_value n0 = QArith_base.Qmake 0 1 ∧
    total_value n1 = QArith_base.Qmake (-1) 1 ∧
    total_value n2 = QArith_base.Qmake 0 1.
Proof. do 5 eexists. split_and!; reflexivity. Qed.

(** The stub evaluator never returns an empty prior vector. *)
Lemma NeuralNet_priors {game_state num : Type} (tape : nat → num) i (gs : game_state) :
  length (@evaluate _ _ (NeuralNet tape) i gs).1 = 362.
Proof. unfold evaluate, NeuralNet. cbn [fst]. by rewrite length_fmap, length_seq. Qed.

(** Three reads with the fixed evaluator. *)
Lemma UCT_search_most_visited_witness :
  ∃ move child (h : list qnode) r nc pre post,
    UCT_search 3 tt 3 = Return ((move, child), h) ∧
    h !! 0 = Some r ∧ parent r = None ∧
    children r = pre ++ (move, child) :: post ∧
    h !! child = Some nc ∧
    (∀ item, item ∈ pre → visits_of h item.2 < number_visits nc) ∧
    (∀ item, item ∈ post → visits_of h item.2 ≤ number_visits nc) ∧
    number_visits r = 3 - 1 ∧
    visit_sum h (children r).*2 + expanded_count h (children r).*2 = 3 - 1.
Proof.
  apply (UCT_search_most_visited (num := QArith_base.Q) tt 3 3).
  - intros j gs. discriminate.
  - lia.
  - lia.
Defined.

(** C2, as stated, fails: after three reads with the fixed evaluator the
    root's two children have been visited 0 times and once, which adds up
    to 1 and not to 3; after one read, to 0 and not to 1. *)
Lemma visits_do_not_add_up :
  (∃ h r, UCT_search 3 tt 3 = Return ((1, 2), h) ∧
     h = three_reads ∧ h !! 0 = Some r ∧ children r = [(0, 1); (1, 2)] ∧
     visits_of h 1 = 0 ∧ visits_of h 2 = 1 ∧
     visit_sum h (children r).*2 = 1) ∧
  (∃ h r, UCT_search 1 tt 1 = Return ((0, 1), h) ∧
     h !! 0 = Some r ∧ children r = [(0, 1); (1, 2)] ∧
     visit_sum h (children r).*2 = 0).
Proof. split; do 2 eexists; split_and!; reflexivity. Qed.

(** Two reads from the two-level tree, whose root is expanded already and
    has two children: the reads expand two more nodes, and the root keeps
    its children. *)
Definition two_level_reads : list qnode :=
  Eval vm_compute in
    match reads 2 0 0 2 two_level with Return h => h | _ => [] end.

Lemma two_level_reads_steps : rtc (op_step true) two_level two_level_reads.
Proof. apply (reads_steps true 2 0 2 0). reflexivity. Qed.

Lemma two_level_unexpanded_childless : unexpanded_childless two_level.
Proof.
  intros [|[|[|a]]] n Ha Hex; simpl in Ha; simplify_eq; done.
Qed.

Lemma two_level_reads_example :
  ∃ r r', two_level !! 0 = Some r ∧ two_level_reads !! 0 = Some r' ∧
    is_expanded r = true ∧ children r = [(0, 1); (1, 2)] ∧ children r' = children r ∧
    length two_level = 3 ∧ length two_level_reads = 7 ∧
    is_expanded <$> two_level = [true; false; false] ∧
    is_expanded <$> two_level_reads = [true; false; true; false; true; false; false].
Proof. do 2 eexists. split_and!; reflexivity. Qed.

(** The two reads, as steps of the state machine. *)
Lemma node_state_machine_witness :
  unexpanded_childless two_level_reads ∧ grows true two_level two_level_reads ∧
  ∀ a n priors, two_level_reads !! a = Some n →
    ∃ h'' n'',
      expand two_level_reads a priors = Return h'' ∧ h'' !! a = Some n'' ∧
      is_expanded n'' = true ∧
      (∀ move q, priors !! move = Some q →
         dict_get move (children n'') = Some (length two_level_reads + move) ∧
         two_level_reads !! (length two_level_reads + move) = None ∧
         h'' !! (length two_level_reads + move)
           = Some (init (play (game_state_of n) move) (Some a) q)) ∧
      (∀ move, length priors ≤ move →
         dict_get move (children n'') = dict_get move (children n)).
Proof.
  apply (node_state_machine true two_level two_level_reads).
  - exact two_level_reads_steps.
  - exact two_level_unexpanded_childless.
Defined.

(** C8, as stated, fails: [expand] applied a second time to an expanded
    node stores new nodes under the moves of its children mapping. *)
Lemma expand_twice_replaces_children :
  ∃ h1 h2 n1 n2,
    expand fresh_root 0 [QArith_base.Qmake 1 1] = Return h1 ∧
    expand h1 0 [QArith_base.Qmake 1 1] = Return h2 ∧
    h1 !! 0 = Some n1 ∧ is_expanded n1 = true ∧ children n1 = [(0, 1)] ∧
    h2 !! 0 = Some n2 ∧ is_expanded n2 = true ∧ children n2 = [(0, 2)].
Proof. do 4 eexists. split_and!; reflexivity. Qed.

(** *** One read of the search, and the tree that the reads grow *)

Section Reads.
Context {num : Type} `{PyNum num}.
Context {game_state : Type} `{Game game_state}.
Context `{Evaluator game_state num}.

Abbreviation node := (UCTNode num game_state).
Abbreviation heap := (list (UCTNode num game_state)).

Implicit Types (h : heap) (n : node).

(** X1. [expand] on a node without children: one new node per prior, in the
    order of the priors, stored under the index of the prior; the node
    itself only gets the flag and the mapping; nothing else changes. *)
Theorem expand_fresh h (a : addr) n (priors : list num) :
  h !! a = Some n → children n = [] →
  ∃ h' n',
    expand h a priors = Return h' ∧
    length h' = length h + length priors ∧
    h' !! a = Some n' ∧ is_expanded n' = true ∧
    children n' = (λ i, (i, length h + i)) <$> seq 0 (length priors) ∧
    parent n' = parent n ∧ prior n' = prior n ∧ game_state_of n' = game_state_of n ∧
    total_value n' = total_value n ∧ number_visits n' = number_visits n ∧
    (∀ x : addr, x ≠ a → x < length h → h' !! x = h !! x) ∧
    (∀ i q, priors !! i = Some q →
       h' !! (length h + i) =
         Some {| game_state_of := play (game_state_of n) i; is_expanded := false;
                 parent := Some a; children := []; prior := q;
                 total_value := num_of_nat 0; number_visits := 0 |}).
Proof.
  intros Ha Hc.
  destruct (expand_spec h a priors n Ha) as (h' & E & Hl & Hn & Hfr & Hnew).
  eexists h', _. split_and!; [exact E|exact Hl|exact Hn|simpl..|exact Hfr|exact Hnew]; try done.
  by rewrite Hc, children_after_fresh.
Qed.

(** X2. Without a child at the root there is nothing to return: the search
    with no read at all, and the search whose evaluator gives the root no
    prior, end in the [ValueError] of [max] on an empty sequence. *)
Theorem UCT_search_no_children (gs : game_state) (N fuel : nat) :
  1 ≤ fuel → N = 0 ∨ (evaluate 0 gs).1 = [] →
  UCT_search fuel gs N = Raise ValueError.
Proof.
  intros Hfuel [->|Hev]; [done|].
  destruct fuel as [|fuel]; [lia|].
  assert (read (S fuel) 0 0 [init gs None (num_of_nat 0)]
          = Return [set_expanded (init gs None (num_of_nat 0))]) as E1.
  { unfold read. cbn. destruct (evaluate 0 gs) as [priors v]. simpl in Hev. by subst. }
  destruct N as [|[|N]]; [done|..]; unfold UCT_search, search_heap; simpl; rewrite E1; done.
Qed.

(** **** The walk of [select_leaf] and the climb of [backup] *)

Lemma ancestry_parents h h' (a : addr) path root :
  (∀ (x : addr) n, h !! x = Some n → ∃ n', h' !! x = Some n' ∧ parent n' = parent n) →
  ancestry h a path root → ancestry h' a path root.
Proof.
  intros Hp. induction 1 as [a n Ha Hpar|a n p path root Ha Hpar _ IH].
  - destruct (Hp a n Ha) as (n' & Hn' & E). apply (ancestry_root h' a n'); congruence.
  - destruct (Hp a n Ha) as (n' & Hn' & E). apply (ancestry_up h' a n' p); congruence.
Qed.

Lemma descent_head (R : heap → addr → addr → Prop) h (a : addr) path h' leaf :
  descent R h a path h' leaf → ∃ rest, path ++ [leaf] = a :: rest.
Proof. destruct 1; simpl; eauto. Qed.

Lemma descent_length (R : heap → addr → addr → Prop) h (a : addr) path h' leaf rank :
  (∀ h a c, R h a c → ∃ n, h !! a = Some n ∧ c ∈ (children n).*2) →
  finite_tree h rank → descent R h a path h' leaf → length path ≤ rank a.
Proof.
  intros HR Ht Hd. induction Hd as [h a n Ha Hex|h a n c path h' leaf Ha Hex Hc Hd IH].
  - simpl. lia.
  - assert (shapes (<[a := visit n]> h) = shapes h) as Hs by by eapply shapes_insert.
    assert (finite_tree (<[a := visit n]> h) rank) as Ht1 by by eapply finite_tree_shapes.
    destruct (HR _ _ _ Hc) as (n1 & Hn1 & Hin).
    rewrite list_lookup_insert_eq in Hn1 by by eapply lookup_lt_Some.
    injection Hn1 as <-.
    destruct (Ht a n Ha Hex c Hin) as [Hlt _].
    specialize (IH Ht1). simpl. lia.
Qed.

(** The nodes that [select_leaf] walks down, [backup] climbs back up: the
    parent references from the leaf lead through the walk in reverse. *)
Lemma descent_ancestry (R : heap → addr → addr → Prop) h (a : addr) path h' leaf rank :
  (∀ h a c, R h a c → ∃ n, h !! a = Some n ∧ c ∈ (children n).*2) →
  finite_tree h rank → descent R h a path h' leaf →
  ∀ up root, ancestry h a up root →
  ∃ rest, path ++ [leaf] = a :: rest ∧ ancestry h leaf (reverse rest ++ up) root.
Proof.
  intros HR Ht Hd. induction Hd as [h a n Ha Hex|h a n c path h' leaf Ha Hex Hc Hd IH];
    intros up root Hanc.
  - exists []. done.
  - assert (shapes (<[a := visit n]> h) = shapes h) as Hs by by eapply shapes_insert.
    assert (finite_tree (<[a := visit n]> h) rank) as Ht1 by by eapply finite_tree_shapes.
    destruct (HR _ _ _ Hc) as (n1 & Hn1 & Hin).
    rewrite list_lookup_insert_eq in Hn1 by by eapply lookup_lt_Some.
    injection Hn1 as <-.
    destruct (Ht a n Ha Hex c Hin) as (_ & nc & Hnc & Hpc).
    assert (ancestry h c (c :: up) root) as Hancc by by eapply ancestry_up.
    destruct (IH Ht1 (c :: up) root) as (rest' & Erest & Hleaf).
    { by eapply ancestry_shapes. }
    exists (path ++ [leaf]). split; [done|].
    rewrite Erest, reverse_cons, <- app_assoc. simpl.
    eapply ancestry_shapes; [|exact Hleaf]. done.
Qed.

(** **** One read *)

(** Each node of the walk is a child of the node before it. *)
Lemma descent_links (R : heap → addr → addr → Prop) h (a : addr) path h' leaf rank :
  (∀ h a c, R h a c → ∃ n, h !! a = Some n ∧ c ∈ (children n).*2) →
  finite_tree h rank → descent R h a path h' leaf →
  ∀ i x y, (path ++ [leaf]) !! i = Some x → (path ++ [leaf]) !! S i = Some y →
    ∃ nx, h !! x = Some nx ∧ y ∈ (children nx).*2.
Proof.
  intros HR Ht Hd. induction Hd as [h a n Ha Hex|h a n c path h' leaf Ha Hex Hc Hd IH];
    intros i x y Hx Hy.
  - simpl in Hy. by rewrite lookup_nil in Hy.
  - assert (shapes (<[a := visit n]> h) = shapes h) as Hs by by eapply shapes_insert.
    assert (finite_tree (<[a := visit n]> h) rank) as Ht1 by by eapply finite_tree_shapes.
    pose proof (lookup_lt_Some _ _ _ Ha) as Hlt.
    destruct i as [|i]; simpl in Hx, Hy.
    + injection Hx as <-. destruct (descent_head _ _ _ _ _ _ Hd) as [rest Erest].
      rewrite Erest in Hy. simpl in Hy. injection Hy as <-.
      destruct (HR _ _ _ Hc) as (n1 & Hn1 & Hin).
      rewrite list_lookup_insert_eq in Hn1 by done. injection Hn1 as <-. eauto.
    + destruct (IH Ht1 i x y Hx Hy) as (nx1 & Hnx1 & Hin).
      destruct (decide (x = a)) as [->|Hne].
      * rewrite list_lookup_insert_eq in Hnx1 by done. injection Hnx1 as <-. eauto.
      * rewrite list_lookup_insert_ne in Hnx1 by done. eauto.
Qed.

(** The read in full: what it does to every node, and the shape of the
    walk, the nodes of [path] followed by [leaf], that it took. *)
Lemma read_walk (fuel : nat) (root : addr) (i : nat) h (rank : addr → nat) (r : node) :
  finite_tree h rank → populated h → unexpanded_childless h →
  h !! root = Some r → parent r = None → rank root ≤ fuel →
  ∃ h' path leaf nl priors v,
    read fuel root i h = Return h' ∧
    h !! leaf = Some nl ∧ is_expanded nl = false ∧ (leaf ∉ path) ∧
    evaluate i (game_state_of nl) = (priors, v) ∧
    (∃ rest, path ++ [leaf] = root :: rest) ∧
    length h' = length h + length priors ∧
    (∀ x nx, x ∈ path → h !! x = Some nx →
       is_expanded nx = true ∧
       ∃ nx', h' !! x = Some nx' ∧ shape nx' = shape nx ∧
         prior nx' = prior nx ∧ game_state_of nx' = game_state_of nx ∧
         number_visits nx' = number_visits nx + 1 ∧
         total_value nx' =
           (if decide (x = root) then num_sub (total_value nx) (num_of_nat 1)
            else num_add (num_sub (total_value nx) (num_of_nat 1))
                         (num_add v (num_of_nat 1)))) ∧
    (∃ nl', h' !! leaf = Some nl' ∧ is_expanded nl' = true ∧
       children nl' = (λ j, (j, length h + j)) <$> seq 0 (length priors) ∧
       parent nl' = parent nl ∧ prior nl' = prior nl ∧
       game_state_of nl' = game_state_of nl ∧
       number_visits nl' = number_visits nl ∧
       total_value nl' =
         (if decide (leaf = root) then total_value nl
          else num_add (total_value nl) (num_add v (num_of_nat 1)))) ∧
    (∀ x : addr, x ∉ path → x ≠ leaf → x < length h → h' !! x = h !! x) ∧
    (∀ j q, priors !! j = Some q →
       h' !! (length h + j) = Some (init (play (game_state_of nl) j) (Some leaf) q)) ∧
    NoDup (path ++ [leaf]) ∧
    (∀ x, x ∈ path → ∃ nx, h !! x = Some nx ∧ is_expanded nx = true) ∧
    (∀ j x y, (path ++ [leaf]) !! j = Some x → (path ++ [leaf]) !! S j = Some y →
       ∃ nx, h !! x = Some nx ∧ y ∈ (children nx).*2).
Proof.
  intros Ht Hpop Hu Hr Hpar Hfuel.
  destruct (select_leaf_returns fuel h root r rank Ht Hpop Hr Hfuel) as (h1 & leaf & E1).
  destruct (select_leaf_descent _ _ _ _ _ E1) as [path Hd].
  destruct (descent_effect picks h root path h1 leaf rank picks_child Ht Hd)
    as (Hs1 & Hx1 & Hpath & Hndp & _ & (nl & Hnl & Hexl) & _ & _).
  pose proof (descent_length picks h root path h1 leaf rank picks_child Ht Hd) as Hlen.
  destruct (descent_ancestry picks h root path h1 leaf rank picks_child Ht Hd [] root)
    as (rest & Erest & Hanc).
  { by eapply ancestry_root. }
  rewrite app_nil_r in Hanc.
  assert (leaf ∉ path) as Hleaf.
  { intros Hin. destruct (Hpath leaf Hin) as (_ & nx & Hnx & Hexx). congruence. }
  assert (h1 !! leaf = Some nl) as Hnl1 by by rewrite (Hx1 leaf nl Hnl), decide_False.
  pose proof (Hu leaf nl Hnl Hexl) as Hcl.
  pose proof (shapes_length _ _ Hs1) as Hl1.
  destruct (evaluate i (game_state_of nl)) as [priors v] eqn:Hev.
  destruct (expand_spec h1 leaf priors nl Hnl1) as (h2 & E2 & Hl2 & Hleaf2 & Hfr2 & Hnew2).
  rewrite Hcl, children_after_fresh, Hl1 in Hleaf2. rewrite Hl1 in Hl2, Hfr2, Hnew2.
  assert (ancestry h2 leaf (reverse rest) root) as Hanc2.
  { eapply ancestry_parents; [|exact Hanc]. intros x nx Hx.
    pose proof (lookup_lt_Some _ _ _ Hx) as Hxlt.
    destruct (decide (x = leaf)) as [->|Hne].
    - rewrite Hnl in Hx. injection Hx as <-. eexists. split; [exact Hleaf2|done].
    - rewrite (Hfr2 x Hne Hxlt), (Hx1 x nx Hx). eexists. split; [done|].
      by destruct (decide (x ∈ path)). }
  assert (length (reverse rest) ≤ fuel) as Hrl.
  { rewrite length_reverse.
    assert (length (path ++ [leaf]) = S (length rest)) as Hlr by by rewrite Erest.
    rewrite length_app in Hlr. simpl in Hlr. lia. }
  destruct (backup_spec fuel h2 leaf (reverse rest) root v Hanc2 Hrl) as (h3 & E3 & Hs3 & Hx3).
  assert (∀ x : addr, x ∈ reverse rest ↔ x ≠ root ∧ (x ∈ path ∨ x = leaf)) as Hmem.
  { intros x. rewrite elem_of_reverse. split.
    - intros Hin. split.
      + intros ->. apply (ancestry_root_fresh _ _ _ _ Hanc2). by apply elem_of_reverse.
      + assert (x ∈ path ++ [leaf]) as Hin'.
        { rewrite Erest. apply elem_of_cons. by right. }
        apply elem_of_app in Hin' as [?|Hin']; [by left|right].
        by apply list_elem_of_singleton in Hin'.
    - intros [Hne Hin].
      assert (x ∈ path ++ [leaf]) as Hin'.
      { apply elem_of_app. destruct Hin as [?|Heq]; [by left|right].
        by apply list_elem_of_singleton. }
      rewrite Erest in Hin'. by apply elem_of_cons in Hin' as [?|?]. }
  exists h3, path, leaf, nl, priors, v. split_and!.
  - unfold read. rewrite E1. simpl. unfold deref. rewrite Hnl1. simpl.
    rewrite Hev, E2. simpl. exact E3.
  - done.
  - done.
  - done.
  - done.
  - eauto.
  - apply shapes_length in Hs3. lia.
  - intros x nx Hin Hx. destruct (Hpath x Hin) as (_ & nx0 & Hnx0 & Hexx).
    rewrite Hx in Hnx0. injection Hnx0 as <-. split; [done|].
    assert (x ≠ leaf) as Hxl by (intros ->; done).
    pose proof (lookup_lt_Some _ _ _ Hx) as Hxlt.
    assert (h2 !! x = Some (visit nx)) as Hx2.
    { by rewrite (Hfr2 x Hxl Hxlt), (Hx1 x nx Hx), decide_True. }
    rewrite (Hx3 x _ Hx2).
    destruct (decide (x = root)) as [->|Hne].
    + rewrite decide_False by (rewrite Hmem; intros [? _]; done).
      eexists. split_and!; [done..|simpl; lia|done].
    + rewrite decide_True by (rewrite Hmem; split; [done|by left]).
      eexists. split_and!; [done..|simpl; lia|done].
  - rewrite (Hx3 leaf _ Hleaf2).
    destruct (decide (leaf = root)) as [Heq|Hne].
    + rewrite decide_False by (rewrite Hmem; intros [? _]; done).
      eexists. split_and!; done.
    + rewrite decide_True by (rewrite Hmem; split; [done|by right]).
      eexists. split_and!; done.
  - intros x Hnp Hxl Hxlt.
    destruct (lookup_lt_is_Some_2 h x Hxlt) as [nx Hx].
    assert (h2 !! x = Some nx) as Hx2.
    { by rewrite (Hfr2 x Hxl Hxlt), (Hx1 x nx Hx), decide_False. }
    rewrite (Hx3 x _ Hx2), decide_False; [done|].
    rewrite Hmem. intros [_ [?|?]]; done.
  - intros j q Hq. pose proof (Hnew2 j q Hq) as Hj2.
    rewrite (Hx3 _ _ Hj2), decide_False; [done|].
    rewrite Hmem. intros [_ [Hin|Heq]].
    + destruct (Hpath _ Hin) as (_ & nx & Hnx & _). apply lookup_lt_Some in Hnx. lia.
    + apply lookup_lt_Some in Hnl. lia.
  - apply NoDup_app. split_and!; [done| |apply NoDup_singleton].
    intros x Hin Hx. apply list_elem_of_singleton in Hx as ->. done.
  - intros x Hin. destruct (Hpath x Hin) as (_ & nx & Hnx & Hexx). eauto.
  - exact (descent_links picks h root path h1 leaf rank picks_child Ht Hd).
Qed.


(** X3. One iteration of the loop of [UCT_search] on a finite tree in which
    every expanded node has at least one child and no unexpanded node has
    any, from a root without parent, with fuel for the rank of the root.
    [select_leaf] walks down [path] to [leaf], an unexpanded node;
    [evaluate] gives priors and a value [v] for its state; then:
    - every node of [path] has one more visit; its total is down by 1 if it
      is the root, and otherwise has 1 taken off and [v + 1] added;
    - [leaf] is expanded, with one new child per prior; it has no more
      visits than before, and [v + 1] added to its total unless it is the
      root;
    - the new children are as [__init__] makes them, and every other node
      is as it was. *)
Theorem read_effect (fuel : nat) (root : addr) (i : nat) h (rank : addr → nat) (r : node) :
  finite_tree h rank → populated h → unexpanded_childless h →
  h !! root = Some r → parent r = None → rank root ≤ fuel →
  ∃ h' path leaf nl priors v,
    read fuel root i h = Return h' ∧
    h !! leaf = Some nl ∧ is_expanded nl = false ∧ (leaf ∉ path) ∧
    evaluate i (game_state_of nl) = (priors, v) ∧
    (∃ rest, path ++ [leaf] = root :: rest) ∧
    length h' = length h + length priors ∧
    (∀ x nx, x ∈ path → h !! x = Some nx →
       is_expanded nx = true ∧
       ∃ nx', h' !! x = Some nx' ∧ shape nx' = shape nx ∧
         prior nx' = prior nx ∧ game_state_of nx' = game_state_of nx ∧
         number_visits nx' = number_visits nx + 1 ∧
         total_value nx' =
           (if decide (x = root) then num_sub (total_value nx) (num_of_nat 1)
            else num_add (num_sub (total_value nx) (num_of_nat 1))
                         (num_add v (num_of_nat 1)))) ∧
    (∃ nl', h' !! leaf = Some nl' ∧ is_expanded nl' = true ∧
       children nl' = (λ j, (j, length h + j)) <$> seq 0 (length priors) ∧
       parent nl' = parent nl ∧ prior nl' = prior nl ∧
       game_state_of nl' = game_state_of nl ∧
       number_visits nl' = number_visits nl ∧
       total_value nl' =
         (if decide (leaf = root) then total_value nl
          else num_add (total_value nl) (num_add v (num_of_nat 1)))) ∧
    (∀ x : addr, x ∉ path → x ≠ leaf → x < length h → h' !! x = h !! x) ∧
    (∀ j q, priors !! j = Some q →
       h' !! (length h + j) = Some (init (play (game_state_of nl) j) (Some leaf) q)).
Proof.
  intros Ht Hpop Hu Hr Hpar Hfuel.
  destruct (read_walk fuel root i h rank r Ht Hpop Hu Hr Hpar Hfuel)
    as (h' & path & leaf & nl & priors & v & W).
  exists h', path, leaf, nl, priors, v.
  destruct W as (W1 & W2 & W3 & W4 & W5 & W6 & W7 & W8 & W9 & W10 & W11 & _).
  split_and!; assumption.
Qed.

(** **** The tree after [N] reads *)

(** The number of expanded nodes of a heap. *)
Definition expanded_nodes (h : heap) : nat :=
  sum_list_with (λ n : node, if is_expanded n then 1 else 0) h.

Lemma expanded_nodes_flags h h' :
  is_expanded <$> h' = is_expanded <$> h → expanded_nodes h' = expanded_nodes h.
Proof.
  revert h'. induction h as [|n h IH]; intros [|n' h'] E; try done.
  injection E as E1 E2. unfold expanded_nodes in *. simpl. rewrite E1. f_equal. by apply IH.
Qed.

Lemma shapes_flags h h' : shapes h' = shapes h → is_expanded <$> h' = is_expanded <$> h.
Proof.
  unfold shapes. intros E.
  assert (∀ l : heap, is_expanded <$> l
            = (λ s : bool * option addr * list (nat * addr), s.1.1) <$> (shape <$> l)) as Hf.
  { intros l. rewrite <- list_fmap_compose. done. }
  by rewrite !Hf, E.
Qed.

Lemma expanded_nodes_app h1 h2 :
  expanded_nodes (h1 ++ h2) = expanded_nodes h1 + expanded_nodes h2.
Proof. unfold expanded_nodes. induction h1 as [|n h1 IH]; simpl; [done|]. rewrite IH. lia. Qed.

Lemma expanded_nodes_insert h (a : addr) n n' :
  h !! a = Some n → is_expanded n = false → is_expanded n' = true →
  expanded_nodes (<[a := n']> h) = S (expanded_nodes h).
Proof.
  revert a. induction h as [|n0 h IH]; intros [|a] Ha Hn Hn'; simpl in *; try done.
  - injection Ha as ->. unfold expanded_nodes. simpl. rewrite Hn, Hn'. done.
  - unfold expanded_nodes in *. simpl. rewrite (IH a Ha Hn Hn'). lia.
Qed.

Lemma expanded_nodes_imap (f : nat → num → node) (priors : list num) :
  (∀ j q, is_expanded (f j q) = false) → expanded_nodes (imap f priors) = 0.
Proof.
  revert f. induction priors as [|q priors IH]; intros f Hf; [done|].
  unfold expanded_nodes in *. simpl. rewrite Hf. apply (IH (f ∘ S)). intros j q'. apply Hf.
Qed.

(** A read expands one node, the leaf it selects, and allocates one node
    per prior that the evaluator returns for it. *)
Lemma read_growth (fuel : nat) (root : addr) (i : nat) h h' :
  read fuel root i h = Return h' →
  ∃ gs, length h' = length h + length (evaluate i gs).1 ∧
    expanded_nodes h' = S (expanded_nodes h).
Proof.
  unfold read. intros E. inv_bind E as [h1 leaf] Hsel. inv_bind E as nl Hn.
  apply deref_Return in Hn. exists (game_state_of nl).
  destruct (evaluate i (game_state_of nl)) as [priors v].
  inv_bind E as h2 Hexp.
  destruct (select_leaf_shapes _ _ _ _ _ Hsel) as (Hs1 & nl' & Hnl' & Hex).
  rewrite Hn in Hnl'. injection Hnl' as <-.
  destruct (expand_spec h1 leaf priors nl Hn) as (h2' & E2 & Hl2 & Hleaf2 & Hfr2 & Hnew2).
  rewrite Hexp in E2. injection E2 as <-.
  pose proof (backup_shapes _ _ _ _ _ E) as Hs3.
  simpl. split.
  - rewrite (shapes_length _ _ Hs3), Hl2, (shapes_length _ _ Hs1). done.
  - rewrite (expanded_nodes_flags _ _ (shapes_flags _ _ Hs3)).
    rewrite <- (expanded_nodes_flags _ _ (shapes_flags _ _ Hs1)).
    set (n2 := with_children (children_after 0 (length h1) (length priors) (children nl))
                             (set_expanded nl)) in *.
    set (news := imap (λ j q, init (play (game_state_of nl) j) (Some leaf) q) priors).
    assert (h2 = <[leaf := n2]> h1 ++ news) as ->.
    { apply list_eq. intros x.
      pose proof (lookup_lt_Some _ _ _ Hn) as Hlt.
      destruct (decide (x < length h1)) as [Hx|Hx].
      - rewrite lookup_app_l by (rewrite length_insert; lia).
        destruct (decide (x = leaf)) as [->|Hne].
        + by rewrite Hleaf2, list_lookup_insert_eq.
        + by rewrite (Hfr2 x Hne Hx), list_lookup_insert_ne.
      - rewrite lookup_app_r by (rewrite length_insert; lia).
        rewrite length_insert. unfold news. rewrite list_lookup_imap.
        destruct (priors !! (x - length h1)) as [q|] eqn:Hq; simpl.
        + specialize (Hnew2 _ _ Hq).
          replace (length h1 + (x - length h1)) with x in Hnew2 by lia. done.
        + apply lookup_ge_None. apply lookup_ge_None in Hq. lia. }
    rewrite expanded_nodes_app, (expanded_nodes_insert h1 leaf nl n2) by done.
    unfold news. rewrite (expanded_nodes_imap _ priors) by done. lia.
Qed.

Lemma reads_growth (fuel : nat) (root : addr) (m count : nat) : ∀ i h h',
  (∀ j gs, length (evaluate j gs).1 = m) →
  reads fuel root i count h = Return h' →
  length h' = length h + count * m ∧ expanded_nodes h' = expanded_nodes h + count.
Proof.
  induction count as [|count IH]; intros i h h' Hm E; simpl in E.
  - injection E as <-. lia.
  - inv_bind E as h1 Hr.
    destruct (read_growth _ _ _ _ _ Hr) as (gs & Hl1 & He1). rewrite Hm in Hl1.
    destruct (IH _ _ _ Hm E) as [Hl He]. lia.
Qed.

(** X4. When the evaluator returns [m ≥ 1] priors on every call (362 for
    [NeuralNet]), the loop of [UCT_search] with [N] reads returns a heap of
    [1 + N * m] nodes of which [N] are expanded: each read expands exactly
    one node.  The heap is a finite tree of height at most [N] whose
    expanded nodes have children and whose other nodes have none. *)
Theorem search_heap_growth (gs : game_state) (N m fuel : nat) :
  (∀ j gs, length (evaluate j gs).1 = m) → 1 ≤ m → N ≤ fuel →
  ∃ h rank,
    search_heap fuel gs N = Return h ∧
    length h = 1 + N * m ∧ expanded_nodes h = N ∧
    finite_tree h rank ∧ populated h ∧ unexpanded_childless h ∧ rank 0 ≤ N.
Proof.
  intros Hm Hm1 Hfuel.
  assert (∀ j gs, (evaluate j gs).1 ≠ []) as Hev.
  { intros j gs' E. specialize (Hm j gs'). rewrite E in Hm. simpl in Hm. lia. }
  destruct N as [|N].
  - exists [init gs None (num_of_nat 0)], (λ _, 0). split_and!; try done.
    + intros [|a] n Ha Hex; simpl in Ha; simplify_eq.
    + intros [|a] n Ha Hex; simpl in Ha; simplify_eq.
    + intros [|a] n Ha Hex; simpl in Ha; simplify_eq. done.
  - destruct (first_read fuel 0 gs Hev) as (h1 & dep1 & r1 & E1 & Hok1 & Hr1 & _).
    destruct (reads_inv fuel N 1 dep1 1 h1 r1 Hev Hok1) as (h & dep & r & E & Hok & Hr & _);
      [lia|done|].
    assert (search_heap fuel gs (S N) = Return h) as Eh.
    { unfold search_heap. simpl. rewrite E1. simpl. exact E. }
    destruct (reads_growth fuel 0 m (S N) 0 _ h Hm Eh) as [Hl He].
    exists h, (λ a, 1 + N - dep a). split_and!.
    + done.
    + simpl in Hl. lia.
    + done.
    + by apply tree_ok_finite_tree.
    + by eapply tree_ok_populated.
    + intros a n Ha Hex. apply lookup_shapes_Some in Ha. unfold shape in Ha.
      rewrite Hex in Ha. by eapply ok_childless.
    + lia.
Qed.

(** **** Visits flow down the tree *)

(** What a node passes on to a child: the visits of the child, and one
    more when the child is expanded, for the read that expanded it and was
    not counted as a visit of it. *)
Definition passed_on (h : heap) (c : addr) : nat := visits_of h c + expanded_of h c.

(** The visits of an expanded node are the visits it passed on to its
    children; a node that is not expanded has none. *)
Definition flow (h : heap) : Prop :=
  ∀ (a : addr) n, h !! a = Some n →
    number_visits n =
      if is_expanded n
      then visit_sum h (children n).*2 + expanded_count h (children n).*2
      else 0.

Definition distinct_children (h : heap) : Prop :=
  ∀ (a : addr) n, h !! a = Some n → NoDup (children n).*2.

Lemma flow_sum h (cs : list addr) :
  visit_sum h cs + expanded_count h cs = sum_list_with (passed_on h) cs.
Proof. unfold visit_sum, expanded_count. by rewrite sum_with_plus. Qed.

Lemma sum_with_zero {A} (f : A → nat) (l : list A) :
  (∀ y, y ∈ l → f y = 0) → sum_list_with f l = 0.
Proof.
  induction l as [|y l IH]; simpl; intros E; [done|].
  rewrite E, IH; [done| |apply elem_of_cons; by left].
  intros z Hz. apply E. apply elem_of_cons. by right.
Qed.

(** A read keeps the flow. *)
Lemma read_flow (fuel : nat) (root : addr) (i : nat) h h' (rank : addr → nat) (r : node) :
  finite_tree h rank → populated h → unexpanded_childless h →
  h !! root = Some r → parent r = None → rank root ≤ fuel →
  distinct_children h → flow h →
  read fuel root i h = Return h' →
  distinct_children h' ∧ flow h'.
Proof.
  intros Ht Hpop Hu Hr Hpar Hfuel Hdc Hfl E.
  destruct (read_walk fuel root i h rank r Ht Hpop Hu Hr Hpar Hfuel)
    as (h'' & path & leaf & nl & priors & v & E' & Hnl & Hexl & Hleaf & Hev & (rest & Erest)
        & Hlen & Hpathn & (nl' & Hnl' & Hexl' & Hcl' & _ & _ & _ & Hvl' & _)
        & Hother & Hnew & Hnd & Hpath & Hlinks).
  rewrite E in E'. injection E' as <-.
  assert (∀ (c : addr) nc, h !! c = Some nc →
            passed_on h' c = passed_on h c + (if decide (c ∈ (path ++ [leaf])) then 1 else 0)) as HA.
  { intros c nc Hc. unfold passed_on, visits_of, expanded_of. rewrite Hc. simpl.
    destruct (decide (c ∈ path)) as [Hin|Hnin].
    - destruct (Hpathn c nc Hin Hc) as (Hexc & nc' & Hc' & Hshape & _ & _ & Hv & _).
      injection Hshape as Hsh _ _.
      rewrite Hc'. simpl. rewrite Hsh, Hexc, Hv.
      rewrite decide_True by (apply elem_of_app; by left). lia.
    - destruct (decide (c = leaf)) as [->|Hne].
      + rewrite Hnl in Hc. injection Hc as <-. rewrite Hnl'. simpl.
        rewrite Hexl, Hexl', Hvl'.
        rewrite decide_True by (apply elem_of_app; right; by apply list_elem_of_singleton).
        lia.
      + rewrite (Hother c Hnin Hne) by by eapply lookup_lt_Some. rewrite Hc. simpl.
        rewrite decide_False; [lia|].
        intros [?|Hin]%elem_of_app; [done|]. by apply list_elem_of_singleton in Hin. }
  assert (∀ (c : addr) nc (x : addr), c ∈ (path ++ [leaf]) → h !! c = Some nc → parent nc = Some x →
            ∃ j, (path ++ [leaf]) !! j = Some x ∧ (path ++ [leaf]) !! S j = Some c ∧ x ∈ path) as HC.
  { intros c nc x Hin Hc Hp. apply list_elem_of_lookup in Hin as [j Hj].
    destruct j as [|j].
    - rewrite Erest in Hj. simpl in Hj. injection Hj as <-.
      rewrite Hr in Hc. injection Hc as <-. congruence.
    - pose proof (lookup_lt_Some _ _ _ Hj) as Hjlt.
      destruct (lookup_lt_is_Some_2 (path ++ [leaf]) j) as [z Hz]; [lia|].
      assert (path !! j = Some z) as Hzp.
      { rewrite length_app in Hjlt. simpl in Hjlt.
        by rewrite lookup_app_l in Hz by lia. }
      assert (z ∈ path) as Hzin by by eapply list_elem_of_lookup_2.
      destruct (Hlinks j z c Hz Hj) as (nz & Hnz & Hcin).
      destruct (Hpath z Hzin) as (nz' & Hnz' & Hexz).
      rewrite Hnz in Hnz'. injection Hnz' as <-.
      destruct (Ht z nz Hnz Hexz c Hcin) as (_ & nc' & Hnc' & Hpc).
      rewrite Hc in Hnc'. injection Hnc' as <-.
      assert (z = x) as -> by congruence. eauto. }
  assert (∀ (a : addr) n', h' !! a = Some n' →
            NoDup (children n').*2 ∧
            number_visits n' =
              if is_expanded n' then sum_list_with (passed_on h') (children n').*2 else 0)
    as Hall.
  { intros a n' Ha'.
    destruct (decide (a < length h)) as [Halt|Hage].
    - destruct (lookup_lt_is_Some_2 h a Halt) as [n Ha].
      pose proof (Hfl a n Ha) as Hfa. rewrite flow_sum in Hfa.
      destruct (decide (a ∈ path)) as [Hin|Hnin].
      + destruct (Hpathn a n Hin Ha) as (Hexa & n2 & Ha2 & Hshape & _ & _ & Hv & _).
        rewrite Ha' in Ha2. injection Ha2 as <-.
        injection Hshape as Hsh _ Hcs. rewrite Hcs, Hsh, Hexa.
        split; [by apply (Hdc a n)|].
        rewrite Hexa in Hfa. rewrite Hv, Hfa.
        apply list_elem_of_lookup in Hin as [j Hj].
        assert ((path ++ [leaf]) !! j = Some a) as Hja.
        { rewrite lookup_app_l; [done|]. by eapply lookup_lt_Some. }
        destruct (lookup_lt_is_Some_2 (path ++ [leaf]) (S j)) as [y Hy].
        { rewrite length_app. simpl. apply lookup_lt_Some in Hj. lia. }
        destruct (Hlinks j a y Hja Hy) as (n0 & Hn0 & Hyin).
        rewrite Ha in Hn0. injection Hn0 as <-.
        rewrite Nat.add_1_r. symmetry.
        apply (sum_with_bump (passed_on h) (passed_on h') _ y); [by apply (Hdc a n)|done|].
        intros c Hcin.
        destruct (Ht a n Ha Hexa c Hcin) as (_ & nc & Hnc & Hpc).
        rewrite (HA c nc Hnc). f_equal.
        destruct (decide (c ∈ (path ++ [leaf]))) as [Hcc|Hcc].
        * destruct (HC c nc a Hcc Hnc Hpc) as (j' & Hj' & Hsj' & _).
          assert (j' = j) as -> by by eapply NoDup_lookup.
          rewrite Hy in Hsj'. injection Hsj' as ->. by rewrite decide_True.
        * rewrite decide_False; [done|]. intros ->. apply Hcc.
          by eapply list_elem_of_lookup_2.
      + destruct (decide (a = leaf)) as [->|Hne].
        * rewrite Ha' in Hnl'. injection Hnl' as <-.
          rewrite Hnl in Ha. injection Ha as <-.
          rewrite Hcl', Hexl', seq_children. split; [apply NoDup_seq|].
          rewrite Hexl in Hfa. rewrite Hvl', Hfa. symmetry. apply sum_with_zero.
          intros c [Hc1 Hc2]%elem_of_seq.
          destruct (lookup_lt_is_Some_2 priors (c - length h)) as [q Hq]; [lia|].
          pose proof (Hnew _ _ Hq) as Hc.
          replace (length h + (c - length h)) with c in Hc by lia.
          unfold passed_on, visits_of, expanded_of. by rewrite Hc.
        * rewrite (Hother a Hnin Hne Halt), Ha in Ha'. injection Ha' as <-.
          split; [by apply (Hdc a n)|]. rewrite Hfa.
          destruct (is_expanded n) eqn:Hexa; [|done].
          apply sum_with_ext. intros c Hcin.
          destruct (Ht a n Ha Hexa c Hcin) as (_ & nc & Hnc & Hpc).
          rewrite (HA c nc Hnc), decide_False; [lia|].
          intros Hcc. destruct (HC c nc a Hcc Hnc Hpc) as (_ & _ & _ & Hin). done.
    - pose proof (lookup_lt_Some _ _ _ Ha') as Halt'. rewrite Hlen in Halt'.
      destruct (lookup_lt_is_Some_2 priors (a - length h)) as [q Hq]; [lia|].
      pose proof (Hnew _ _ Hq) as Hc.
      replace (length h + (a - length h)) with a in Hc by lia.
      rewrite Ha' in Hc. injection Hc as ->. simpl. split; [constructor|done]. }
  split.
  - intros a n' Ha'. by destruct (Hall a n' Ha').
  - intros a n' Ha'. rewrite flow_sum. by destruct (Hall a n' Ha').
Qed.

Lemma reads_flow (fuel count : nat) : ∀ t dep i h (r : node),
  (∀ j gs, (evaluate j gs).1 ≠ []) →
  tree_ok t dep (shapes h) → t + count ≤ S fuel → h !! 0 = Some r →
  distinct_children h → flow h →
  ∃ h', reads fuel 0 i count h = Return h' ∧ distinct_children h' ∧ flow h'.
Proof.
  induction count as [|count IH]; intros t dep i h r Hev Hok Hfuel Hr Hdc Hfl.
  - exists h. done.
  - destruct (read_step t dep fuel i h r Hev Hok)
      as (h1 & dep1 & r1 & E1 & Hok1 & Hr1 & _); [lia|done|].
    destruct (ok_root _ _ _ Hok) as (cs0 & Hroot & _).
    pose proof (lookup_shapes_Some _ _ _ Hr) as Hr'. rewrite Hroot in Hr'.
    injection Hr' as _ Hrp _.
    destruct (read_flow fuel 0 i h h1 (λ a, t - dep a) r) as [Hdc1 Hfl1]; try done.
    + by apply tree_ok_finite_tree.
    + by eapply tree_ok_populated.
    + intros a n Ha Hex. apply lookup_shapes_Some in Ha. unfold shape in Ha.
      rewrite Hex in Ha. exact (ok_childless _ _ _ Hok _ _ _ Ha).
    + lia.
    + destruct (IH (S t) dep1 (S i) h1 r1 Hev Hok1) as (h2 & E2 & Hdc2 & Hfl2);
        [lia|done..|].
      exists h2. simpl. rewrite E1. simpl. done.
Qed.

(** X10. In the tree that the loop of [UCT_search] returns, visits are
    conserved: the visit count of every expanded node is the sum, over its
    children, of the child's visit count plus 1 if the child is expanded;
    every node that is not expanded has visit count 0. *)
Theorem visits_flow (gs : game_state) (N fuel : nat) :
  (∀ j gs, (evaluate j gs).1 ≠ []) → N ≤ fuel →
  ∃ h,
    search_heap fuel gs N = Return h ∧
    ∀ (a : addr) n, h !! a = Some n →
      number_visits n =
        if is_expanded n
        then visit_sum h (children n).*2 + expanded_count h (children n).*2
        else 0.
Proof.
  intros Hev Hfuel. set (root := init gs None (num_of_nat 0)).
  assert (distinct_children [root] ∧ flow [root]) as [Hdc0 Hfl0].
  { split; intros [|a] n Ha; simpl in Ha; simplify_eq; [constructor|done]. }
  destruct N as [|N].
  - exists [root]. split; [done|]. exact Hfl0.
  - destruct (first_read fuel 0 gs Hev) as (h1 & dep1 & r1 & E1 & Hok1 & Hr1 & _).
    destruct (read_flow fuel 0 0 [root] h1 (λ _, 0) root) as [Hdc1 Hfl1]; try done.
    + intros [|a] n Ha Hex; simpl in Ha; simplify_eq.
    + intros [|a] n Ha Hex; simpl in Ha; simplify_eq.
    + intros [|a] n Ha Hex; simpl in Ha; simplify_eq. done.
    + lia.
    + destruct (reads_flow fuel N 1 dep1 1 h1 r1 Hev Hok1) as (h & E & _ & Hfl);
        [lia|done..|].
      exists h. split; [|exact Hfl].
      unfold search_heap. simpl. unfold root in E1. rewrite E1. simpl. exact E.
Qed.

End Reads.

(** An evaluator that finds no move to give a prior to. *)
Definition no_priors : Evaluator unit QArith_base.Q :=
  {| evaluate := λ _ _, ([], QArith_base.Qmake 0 1) |}.

(** Expanding the fresh root with the priors 1/4 and 3/4. *)
Lemma expand_fresh_witness :
  ∃ (h' : list qnode) n',
    expand fresh_root 0 [QArith_base.Qmake 1 4; QArith_base.Qmake 3 4] = Return h' ∧
    length h' = length fresh_root + 2 ∧
    h' !! 0 = Some n' ∧ is_expanded n' = true ∧
    children n' = (λ i, (i, length fresh_root + i)) <$> seq 0 2 ∧
    parent n' = None ∧ prior n' = num_of_nat 0 ∧ game_state_of n' = tt ∧
    total_value n' = num_of_nat 0 ∧ number_visits n' = 0 ∧
    (∀ x : addr, x ≠ 0 → x < length fresh_root → h' !! x = fresh_root !! x) ∧
    (∀ i q, [QArith_base.Qmake 1 4; QArith_base.Qmake 3 4] !! i = Some q →
       h' !! (length fresh_root + i) =
         Some {| game_state_of := play tt i; is_expanded := false;
                 parent := Some 0; children := []; prior := q;
                 total_value := num_of_nat 0; number_visits := 0 |}).
Proof.
  apply (expand_fresh fresh_root 0 (init tt None (num_of_nat 0))
           [QArith_base.Qmake 1 4; QArith_base.Qmake 3 4]); reflexivity.
Defined.

(** Two reads with the evaluator that gives no prior. *)
Lemma UCT_search_no_children_witness :
  @UCT_search _ _ _ _ no_priors 1 tt 2 = Raise ValueError.
Proof.
  apply (@UCT_search_no_children _ _ _ _ no_priors tt 2 1).
  - lia.
  - right. reflexivity.
Defined.

(** One read on the two-level tree with the fixed evaluator. *)
Lemma read_effect_witness :
  ∃ (h' : list qnode) path leaf nl priors v,
    read 1 0 0 two_level = Return h' ∧
    two_level !! leaf = Some nl ∧ is_expanded nl = false ∧ (leaf ∉ path) ∧
    evaluate 0 (game_state_of nl) = (priors, v) ∧
    (∃ rest, path ++ [leaf] = 0 :: rest) ∧
    length h' = length two_level + length priors ∧
    (∀ x nx, x ∈ path → two_level !! x = Some nx →
       is_expanded nx = true ∧
       ∃ nx', h' !! x = Some nx' ∧ shape nx' = shape nx ∧
         prior nx' = prior nx ∧ game_state_of nx' = game_state_of nx ∧
         number_visits nx' = number_visits nx + 1 ∧
         total_value nx' =
           (if decide (x = 0) then num_sub (total_value nx) (num_of_nat 1)
            else num_add (num_sub (total_value nx) (num_of_nat 1))
                         (num_add v (num_of_nat 1)))) ∧
    (∃ nl', h' !! leaf = Some nl' ∧ is_expanded nl' = true ∧
       children nl' = (λ j, (j, length two_level + j)) <$> seq 0 (length priors) ∧
       parent nl' = parent nl ∧ prior nl' = prior nl ∧
       game_state_of nl' = game_state_of nl ∧
       number_visits nl' = number_visits nl ∧
       total_value nl' =
         (if decide (leaf = 0) then total_value nl
          else num_add (total_value nl) (num_add v (num_of_nat 1)))) ∧
    (∀ x : addr, x ∉ path → x ≠ leaf → x < length two_level → h' !! x = two_level !! x) ∧
    (∀ j q, priors !! j = Some q →
       h' !! (length two_level + j) = Some (init (play (game_state_of nl) j) (Some leaf) q)).
Proof.
  apply (read_effect 1 0 0 two_level (λ a, match a with 0 => 1 | _ => 0 end) two_level_root).
  - exact two_level_finite_tree.
  - exact two_level_populated.
  - exact two_level_unexpanded_childless.
  - reflexivity.
  - reflexivity.
  - simpl. lia.
Defined.

(** The read of the witness: it walks from the root to the child with the
    larger prior, gives it two children, and leaves the value 0 + 1 there. *)
Lemma read_two_level :
  ∃ h' r c,
    read 1 0 0 two_level = Return h' ∧ length h' = 5 ∧
    h' !! 0 = Some r ∧ number_visits r = 1 ∧ total_value r = QArith_base.Qmake (-1) 1 ∧
    h' !! 2 = Some c ∧ is_expanded c = true ∧ children c = [(0, 3); (1, 4)] ∧
    number_visits c = 0 ∧ total_value c = QArith_base.Qmake 1 1 ∧
    h' !! 1 = two_level !! 1.
Proof. do 3 eexists. split_and!; reflexivity. Qed.

(** Three reads with the fixed evaluator, which returns two priors. *)
Lemma search_heap_growth_witness :
  ∃ (h : list qnode) rank,
    search_heap 3 tt 3 = Return h ∧
    length h = 1 + 3 * 2 ∧ expanded_nodes h = 3 ∧
    finite_tree h rank ∧ populated h ∧ unexpanded_childless h ∧ rank 0 ≤ 3.
Proof.
  apply (search_heap_growth (num := QArith_base.Q) tt 3 2 3).
  - reflexivity.
  - lia.
  - lia.
Defined.

(** The flow of visits in the tree of three reads. *)
Lemma visits_flow_witness :
  ∃ h : list qnode,
    search_heap 3 tt 3 = Return h ∧
    ∀ (a : addr) n, h !! a = Some n →
      number_visits n =
        if is_expanded n
        then visit_sum h (children n).*2 + expanded_count h (children n).*2
        else 0.
Proof.
  apply (visits_flow (num := QArith_base.Q) tt 3 3).
  - intros j gs. discriminate.
  - lia.
Defined.

End MCTS.

(** ** adi.py *)

Module ADI.
Import Py.

(** The interface of rubiks_cube.py ([RubiksCube], [RubiksAction]), which
    is not among the sources: the operations the trainer calls, as section 6
    of the specification lists them, taken as parameters.
    - [solved dim] is [RubiksCube(dim, shuffle=False)];
    - [actions dim] is the attribute [actions] of a cube of that dimension;
    - [step c a] is [c.step(RubiksAction(a))]: the cube afterwards, the raw
      state and the reward that the call returns;
    - [inverse_index dim a] is
      [index_actions[str(RubiksAction(a).get_inverse_action())]];
    - [from_one_hot dim x] is [RubiksCube(dim, cube=x)]. *)
Class CubeEnv (cube action raw onehot num : Type) : Type := {
  solved : nat → cube;
  actions : nat → list action;
  step : cube → action → cube * raw * num;
  inverse_index : nat → action → nat;
  state_one_hot : cube → onehot;
  from_one_hot : nat → onehot → cube;
  to_one_hot_cube : raw → onehot
}.

(** What the trainer uses of Keras: a model is an architecture with
    weights, and [compile] attaches an optimizer and the losses.
    [model_from_json] and [load_weights] fail on a file they cannot read. *)
Inductive optimizer (num : Type) : Type :=
| Adam (lr : num)      (* optimizers.Adam(lr=...) *)
| RMSprop.             (* the string 'rmsprop': RMSprop with its defaults *)
Arguments Adam {num} lr.
Arguments RMSprop {num}.

Record keras_model (arch wts num : Type) : Type := mkModel {
  architecture : arch;
  model_weights : wts;
  model_optimizer : option (optimizer num);
  model_losses : list (string * string)
}.
Arguments mkModel {arch wts num}.
Arguments architecture {arch wts num}.
Arguments model_weights {arch wts num}.
Arguments model_optimizer {arch wts num}.
Arguments model_losses {arch wts num}.

Class Keras (arch wts h5 onehot num : Type) : Type := {
  model_from_json : string → option (arch * wts);
  load_weights : arch → h5 → option wts;
  predict : arch → wts → onehot → num * list num
}.

(** The files the trainer reads: [open(path).read()], the weights file
    behind [load_weights(path)], and [np.load(path)]. *)
Record files (h5 ndarray : Type) : Type := mkFiles {
  read_text : string → option string;
  read_h5 : string → option h5;
  read_npy : string → option ndarray;
  path_sep : string          (* os.path.sep *)
}.
Arguments mkFiles {h5 ndarray}.
Arguments read_text {h5 ndarray}.
Arguments read_h5 {h5 ndarray}.
Arguments read_npy {h5 ndarray}.
Arguments path_sep {h5 ndarray}.

(** The two random generators: [draw i] is the number behind the [i]-th
    call of [random.choice], [np_random_permutation i n] the result of
    [np.random.permutation(range(n))] at that point. *)
Class RandomSource : Type := {
  draw : nat → nat;
  np_random_permutation : nat → nat → list nat
}.

(** An element of [load_files]: a [str], or anything else. *)
Inductive pyval : Type :=
| PStr (s : string)
| PNotStr.

(** *** Strings *)

Definition is_digit (c : ascii) : bool :=
  (48 <=? nat_of_ascii c) && (nat_of_ascii c <=? 57).

(** [re.findall(r'\d+', s)]: the maximal runs of decimal digits, from left
    to right.  [run] is the run being read.  (On the characters of code
    below 256, which [string] holds, [\d] matches the ten ASCII digits.) *)
Definition flush (run : string) : list string :=
  match run with
  | EmptyString => []
  | _ => [run]
  end.

Fixpoint findall_from (run : string) (s : string) : list string :=
  match s with
  | EmptyString => flush run
  | String c s' =>
      if is_digit c then findall_from (run ++ String c EmptyString) s'
      else flush run ++ findall_from EmptyString s'
  end.

Definition re_findall_digits (s : string) : list string := findall_from EmptyString s.

(** [int(digits)] on a run of decimal digits. *)
Definition digit_value (c : ascii) : Z := Z.of_nat (nat_of_ascii c - 48).

Fixpoint int_from (acc : Z) (s : string) : Z :=
  match s with
  | EmptyString => acc
  | String c s' => int_from (10 * acc + digit_value c) s'
  end.

Definition int (s : string) : Z := int_from 0 s.

(** *** numpy *)

Section Numpy.
Context {num : Type} `{PyNum num}.

(** [np.max] and [np.argmax] of a row: the first entry that no other entry
    exceeds, and its index. *)
Definition np_max (row : list num) : outcome num := max_by num_gtb (zip row row).

Definition np_argmax (row : list num) : outcome nat :=
  max_by num_gtb (zip (seq 0 (length row)) row).

(** [np.eye(n)[j]] *)
Definition np_eye_row (n j : nat) : list num :=
  (λ idx, if decide (idx = j) then num_of_nat 1 else num_of_nat 0) <$> seq 0 n.

(** [a.reshape((rows, cols))] of a flat array. *)
Definition np_reshape {A} (rows cols : nat) (a : list A) : outcome (list (list A)) :=
  if decide (rows * cols = length a) then Return (reshape (replicate rows cols) a)
  else Raise ValueError.

(** [a[indexes]] *)
Definition np_take {A} (a : list A) (indexes : list nat) : outcome (list A) :=
  for_each (λ i, match a !! i with Some y => Return y | None => Raise IndexError end) indexes.

(** A two-dimensional array with its shape: an array without rows still
    has a number of columns. *)
Record array2 : Type := mkArray2 {
  arr_cols : nat;
  arr_rows : list (list num)
}.

(** [np.asarray(rs)] of a list of rows of [n] entries each.  Of the empty
    list it is the empty one-dimensional array, of shape (0,), which
    arithmetic with a two-dimensional array reads as one row without
    columns. *)
Definition np_asarray_rows (n : nat) (rs : list (list num)) : array2 :=
  match rs with
  | [] => {| arr_cols := 0; arr_rows := [[]] |}
  | _ => {| arr_cols := n; arr_rows := rs |}
  end.

(** Broadcasting: two dimensions go together when they are equal or one of
    them is 1, which is then stretched to the other. *)
Definition broadcast_dim (a b : nat) : outcome nat :=
  if decide (a = b) then Return a
  else if decide (a = 1) then Return b
  else if decide (b = 1) then Return a
  else Raise ValueError.

Definition stretch {A} (n : nat) (l : list A) : list A :=
  match l with
  | [x] => replicate n x
  | _ => l
  end.

(** [a + b] *)
Definition np_add (a b : array2) : outcome array2 :=
  r ← broadcast_dim (length (arr_rows a)) (length (arr_rows b));
  c ← broadcast_dim (arr_cols a) (arr_cols b);
  Return {| arr_cols := c;
            arr_rows := zip_with (zip_with num_add)
                          (stretch r (stretch c <$> arr_rows a))
                          (stretch r (stretch c <$> arr_rows b)) |}.

(** [np.max(a, axis=1)] and [np.argmax(a, axis=1)]: an array without
    columns has no maximum along them, whether it has rows or not. *)
Definition np_max_axis1 (a : array2) : outcome (list num) :=
  if decide (arr_cols a = 0) then Raise ValueError else for_each np_max (arr_rows a).

Definition np_argmax_axis1 (a : array2) : outcome (list nat) :=
  if decide (arr_cols a = 0) then Raise ValueError else for_each np_argmax (arr_rows a).

(** The specification's reading of max and argmax with the standard
    tie-break: [y] stands at index [j] of [row], it exceeds every entry
    before it, and no entry after it exceeds it. *)
Definition first_max (row : list num) (j : nat) (y : num) : Prop :=
  row !! j = Some y ∧
  (∀ a x, a < j → row !! a = Some x → num_gtb y x = true) ∧
  (∀ a x, j < a → row !! a = Some x → num_gtb x y = false).

End Numpy.

(** [random.choice(seq)], with [u] the number drawn. *)
Definition choice {A} (u : nat) (seq : list A) : outcome A :=
  match seq !! (u mod length seq) with
  | Some y => Return y
  | None => Raise IndexError
  end.

(** [for i in range: s = body(i, s)] *)
Fixpoint for_loop {S} (body : nat → S → outcome S) (range : list nat) (s : S) : outcome S :=
  match range with
  | [] => Return s
  | i :: range' => s' ← body i s; for_loop body range' s'
  end.

(** *** The trainer *)

Section Definitions.
Context {cube action raw onehot num arch wts h5 ndarray : Type}.
Context `{PyNum num} `{CubeEnv cube action raw onehot num}.
Context `{Keras arch wts h5 onehot num} `{RandomSource}.

(** [class ADI]: the attributes that the methods below read or write.
    [load_files] is a sequence, as its annotation [Tuple[str, str]] says,
    of any length and of values that are strings or not. *)
Record ADI : Type := mkADI {
  k : nat;
  l : nat;
  initial_lr : num;
  load_files : list pyval;
  cube_dim : nat;
  shuffle : bool;
  current_iteration : Z;
  model : option (keras_model arch wts num)
}.

(** [_load_dataset] *)
Definition _load_dataset (fs : files h5 ndarray) (self : ADI)
  : outcome (Z * Z * Z * ndarray * ndarray) :=
  match load_files self with
  | [PStr file0; PStr file1] =>
      match re_findall_digits file0 with
      | [_; dim; k; l] =>
          match read_npy fs ("data" ++ path_sep fs ++ file0)%string with
          | None => Raise (FileNotFoundError ("data" ++ path_sep fs ++ file0)%string)
          | Some X =>
              match read_npy fs ("data" ++ path_sep fs ++ file1)%string with
              | None => Raise (FileNotFoundError ("data" ++ path_sep fs ++ file1)%string)
              | Some weights => Return (int dim, int k, int l, X, weights)
              end
          end
      | _ => Raise (AssertionError "Dataset file name incorrect")
      end
  | _ => Raise (AssertionError "Bad format for load_files parameter")
  end.

(** The list comprehension of the scrambling loops:
    [[idx for idx in range(n) if idx != inverse_previous_action_idx]]. *)
Definition candidates (n : nat) (inverse_previous_action_idx : option nat) : list nat :=
  filter (λ idx, Some idx ≠ inverse_previous_action_idx) (seq 0 n).

(** The variables of a scrambling loop. *)
Record scramble : Type := mkScramble {
  rubiks_cube : cube;
  inverse_previous_action_idx : option nat;
  rng_pos : nat
}.

(** What one step of a scrambling loop did: the index it excluded, the
    number drawn, the index chosen, and the one-hot state reached. *)
Record move : Type := mkMove {
  excluded : option nat;
  drawn : nat;
  action_idx : nat;
  state_after : onehot
}.

(** The four statements that the loops of [_generate_dataset] and
    [estimate_naive_accuracy] share: choose, build the action, step, look
    the inverse up. *)
Definition scramble_move (dim : nat) (st : scramble) : outcome (scramble * move) :=
  let u := draw (rng_pos st) in
  idx ← choice u (candidates (length (actions dim)) (inverse_previous_action_idx st));
  a ← match actions dim !! idx with Some a => Return a | None => Raise IndexError end;
  let c := (step (rubiks_cube st) a).1.1 in
  Return ({| rubiks_cube := c;
             inverse_previous_action_idx := Some (inverse_index dim a);
             rng_pos := S (rng_pos st) |},
          {| excluded := inverse_previous_action_idx st; drawn := u;
             action_idx := idx; state_after := state_one_hot c |}).

(** [weight = 1 / (shuffle + 1)], as an exact fraction. *)
Definition weight_of (shuffle : nat) : QArith_base.Q :=
  QArith_base.Qdiv (QArith_base.inject_Z 1) (QArith_base.inject_Z (Z.of_nat (shuffle + 1))).

(** The variables of [_generate_dataset]; [sequences] keeps, for the
    statements about them, the moves of every sequence generated. *)
Record dataset : Type := mkDataset {
  X : list onehot;
  weights : list QArith_base.Q;
  sequences : list (list move);
  next_draw : nat
}.

(** The body of the inner loop, [for shuffle in range(k)]. *)
Definition shuffle_body (dim : nat) (shuffle : nat)
    (s : scramble * list move * dataset) : outcome (scramble * list move * dataset) :=
  let '(st, moves, d) := s in
  '(st', m) ← scramble_move dim st;
  Return (st', moves ++ [m],
          {| X := X d ++ [state_one_hot (rubiks_cube st')];
             weights := weights d ++ [weight_of shuffle];
             sequences := sequences d; next_draw := rng_pos st' |}).

(** The body of the outer loop, [for iteration in range(l)]. *)
Definition iteration_body (dim k : nat) (iteration : nat) (d : dataset) : outcome dataset :=
  let st := {| rubiks_cube := solved dim; inverse_previous_action_idx := None;
               rng_pos := next_draw d |} in
  '(_, moves, d') ← for_loop (shuffle_body dim) (seq 0 k) (st, [], d);
  Return {| X := X d'; weights := weights d';
            sequences := sequences d' ++ [moves]; next_draw := next_draw d' |}.

(** [_generate_dataset(k, l, save_dataset)], from draw number [pos] on.
    The log lines and the files written are left out.  The permutation of
    the empty range is an array of floats, which numpy refuses as an index
    with [IndexError]. *)
Definition _generate_dataset (self : ADI) (pos : nat) (k l : nat) : outcome dataset :=
  d ← for_loop (iteration_body (cube_dim self) k) (seq 0 l)
        {| X := []; weights := []; sequences := []; next_draw := pos |};
  if shuffle self then
    let random_indexes := np_random_permutation (next_draw d) (l * k) in
    if decide (l * k = 0) then Raise IndexError else
    X' ← np_take (X d) random_indexes;
    weights' ← np_take (weights d) random_indexes;
    Return {| X := X'; weights := weights'; sequences := sequences d;
              next_draw := next_draw d |}
  else Return d.

(** The two losses that [_design_model] and [load_trained_model] compile
    the model with. *)
Definition losses : list (string * string) :=
  [("value_output", "mean_squared_error");
   ("policy_output", "categorical_crossentropy")]%string.

(** [load_trained_model(filename, current_iteration)] *)
Definition load_trained_model (fs : files h5 ndarray) (self : ADI)
    (filename : string) (iteration : Z) : outcome ADI :=
  let model_name_json := ("data/" ++ filename ++ ".json")%string in
  let model_name_h5 := ("data/" ++ filename ++ ".h5")%string in
  match read_text fs model_name_json with
  | None => Raise (FileNotFoundError model_name_json)
  | Some json =>
      match model_from_json json with
      | None => Raise ValueError
      | Some (a, w0) =>
          match read_h5 fs model_name_h5 with
          | None => Raise (FileNotFoundError model_name_h5)
          | Some file =>
              match load_weights a file with
              | None => Raise ValueError
              | Some w =>
                  let loaded_model :=
                    {| architecture := a; model_weights := w;
                       model_optimizer := Some RMSprop; model_losses := losses |} in
                  Return {| k := k self; l := l self; initial_lr := initial_lr self;
                            load_files := load_files self; cube_dim := cube_dim self;
                            shuffle := shuffle self;
                            current_iteration := iteration;
                            model := Some loaded_model |}
              end
          end
      end
  end.

(** Lines 223 to 240 of [train]: the targets of one batch.  For a sample
    [X_i] and an action, the reward of the step and the one-hot child. *)
Definition child (dim : nat) (X_i : onehot) (a : action) : num * onehot :=
  let r := step (from_one_hot dim X_i) a in (r.2, to_one_hot_cube r.1.2).

(** The arrays keep their shapes: of an empty batch [rewards] is the empty
    one-dimensional array, and [rewards + values] or the maximum along the
    columns raises [ValueError]. *)
Definition train_targets (m : keras_model arch wts num) (dim batch_size : nat)
    (X_batch : list onehot) : outcome (list num * list (list num)) :=
  let acts := actions dim in
  let rewards := (λ X_i, (λ a, (child dim X_i a).1) <$> acts) <$> X_batch in
  let states := (λ X_i, (λ a, (child dim X_i a).2) <$> acts) <$> X_batch in
  let rewards := np_asarray_rows (length acts) rewards in
  let states := concat states in
  let values := (λ s, (predict (architecture m) (model_weights m) s).1) <$> states in
  np_reshape batch_size (length acts) values ≫= λ values : list (list num),
  let values := {| arr_cols := length acts; arr_rows := values |} in
  np_add rewards values ≫= λ q : array2,
  np_max_axis1 q ≫= λ Y_v : list num,
  np_add rewards values ≫= λ q : array2,
  np_argmax_axis1 q ≫= λ best : list nat,
  Return (Y_v, np_eye_row (length acts) <$> best).

(** [estimate_naive_accuracy(depth, iterations)]: the score counted, as a
    fraction, and the moves of every scramble. *)
Definition depth_body (dim : nat) (depth_i : nat) (s : scramble * list move)
  : outcome (scramble * list move) :=
  '(st', m) ← scramble_move dim s.1; Return (st', s.2 ++ [m]).

Definition accuracy_body (m : keras_model arch wts num) (dim depth : nat) (iteration : nat)
    (s : nat * nat * list (list move)) : outcome (nat * nat * list (list move)) :=
  let '(score, pos, seqs) := s in
  let st := {| rubiks_cube := solved dim; inverse_previous_action_idx := None;
               rng_pos := pos |} in
  '(st', moves) ← for_loop (depth_body dim) (seq 0 depth) (st, []);
  let p := (predict (architecture m) (model_weights m) (state_one_hot (rubiks_cube st'))).2 in
  prediction ← np_argmax p;
  let hit := if decide (Some prediction = inverse_previous_action_idx st') then 1 else 0 in
  Return (score + hit, rng_pos st', seqs ++ [moves]).

Definition estimate_naive_accuracy (m : keras_model arch wts num) (dim pos : nat)
    (depth iterations : nat) : outcome (QArith_base.Q * list (list move)) :=
  '(score, _, seqs) ← for_loop (accuracy_body m dim depth) (seq 0 iterations) (0, pos, []);
  if decide (iterations = 0) then Raise ZeroDivisionError
  else Return (QArith_base.Qdiv (QArith_base.inject_Z (Z.of_nat score))
                                (QArith_base.inject_Z (Z.of_nat iterations)), seqs).

End Definitions.

Arguments ADI : clear implicits.
Arguments scramble : clear implicits.
Arguments move : clear implicits.
Arguments dataset : clear implicits.

(** *** A toy cube, a toy network and fixed random numbers *)

(** Twelve moves on a counter that starts at 0: move [2 i] adds [i + 1] and
    move [2 i + 1] takes [i + 1] off; so each is the inverse of the other.
    The reward is 1 on reaching 0 and -1 otherwise. *)
#[export] Instance counter_cube : CubeEnv Z nat Z Z QArith_base.Q := {|
  solved := λ _, 0%Z;
  actions := λ _, seq 0 12;
  step := λ c a,
    let c' := if Nat.even a then (c + Z.of_nat (a / 2 + 1))%Z
              else (c - Z.of_nat (a / 2 + 1))%Z in
    (c', c', if decide (c' = 0%Z) then QArith_base.Qmake 1 1 else QArith_base.Qmake (-1) 1);
  inverse_index := λ _ a, if Nat.even a then a + 1 else a - 1;
  state_one_hot := λ c, c;
  from_one_hot := λ _ x, x;
  to_one_hot_cube := λ r, r
|}.

(** A network whose value is minus the distance of the counter from 0, and
    whose policy puts everything on move 1. *)
#[export] Instance distance_net : Keras unit unit unit Z QArith_base.Q := {|
  model_from_json := λ json, if decide (json = "{}"%string) then Some (tt, tt) else None;
  load_weights := λ _ file, Some file;
  predict := λ _ _ s,
    (QArith_base.inject_Z (- Z.abs s),
     (λ i, if decide (i = 1) then QArith_base.Qmake 1 1 else QArith_base.Qmake 0 1)
       <$> seq 0 12)
|}.

#[export] Instance fixed_draws : RandomSource := {|
  draw := λ i, 5 * i + 3;
  np_random_permutation := λ _ n, reverse (seq 0 n)
|}.

Definition toy_model : keras_model unit unit QArith_base.Q :=
  {| architecture := tt; model_weights := tt;
     model_optimizer := Some (Adam (QArith_base.Qmake 1 100000));
     model_losses := losses |}.

Definition toy_trainer : ADI QArith_base.Q unit unit :=
  {| k := 2; l := 2; initial_lr := QArith_base.Qmake 1 100000;
     load_files := [PStr "scrambled_cubes_3x3_k25_l40000.npy";
                    PStr "weights_3x3_k25_l40000.npy"];
     cube_dim := 3; shuffle := true; current_iteration := 0;
     model := Some toy_model |}.

(** A data directory with one dataset and one checkpoint. *)
Definition toy_files : files unit nat :=
  {| read_text := λ path,
       if decide (path = "data/model_3x3_k25_l40000_iter10.json"%string)
       then Some "{}"%string else None;
     read_h5 := λ path,
       if decide (path = "data/model_3x3_k25_l40000_iter10.h5"%string)
       then Some tt else None;
     read_npy := λ path,
       if decide (path = "data/scrambled_cubes_3x3_k25_l40000.npy"%string) then Some 0
       else if decide (path = "data/weights_3x3_k25_l40000.npy"%string) then Some 1
       else None;
     path_sep := "/" |}.

(** *** Properties of the trainer *)

Section Properties.
Context {cube action raw onehot num arch wts h5 ndarray : Type}.
Context `{PyNum num} `{CubeEnv cube action raw onehot num}.
Context `{Keras arch wts h5 onehot num} `{RandomSource}.

Abbreviation trainer := (ADI num arch wts).

(** **** Loops and arrays *)

Lemma for_each_lookup {A B} (f : A → outcome B) (xs : list A) :
  (∀ x, x ∈ xs → ∃ y, f x = Return y) →
  ∃ ys, for_each f xs = Return ys ∧ length ys = length xs ∧
    ∀ i x, xs !! i = Some x → ∃ y, ys !! i = Some y ∧ f x = Return y.
Proof.
  intros Hdef. destruct (for_each_defined f xs) as [ys E].
  { apply Forall_forall. exact Hdef. }
  exists ys. pose proof (for_each_Return _ _ _ E) as HF. split_and!; [done| |].
  - symmetry. by eapply Forall2_length.
  - intros i x Hx. destruct (Forall2_lookup_l _ _ _ _ _ HF Hx) as (y & Hy & Hf). eauto.
Qed.

Lemma np_take_lookup {A} (a : list A) (indexes : list nat) :
  (∀ j, j ∈ indexes → j < length a) →
  ∃ ys, np_take a indexes = Return ys ∧ length ys = length indexes ∧
    ∀ p j, indexes !! p = Some j → ys !! p = a !! j.
Proof.
  intros Hin. unfold np_take.
  destruct (for_each_lookup
              (λ i, match a !! i with Some y => Return y | None => Raise IndexError end)
              indexes) as (ys & E & Hl & Hy).
  { intros j Hj. destruct (lookup_lt_is_Some_2 a j (Hin j Hj)) as [y ->]. eauto. }
  exists ys. split_and!; [done..|].
  intros p' j Hj. destruct (Hy _ _ Hj) as (y & Hyp & Hf).
  destruct (a !! j); [|discriminate]. by injection Hf as ->.
Qed.

Lemma zip_lookup_split {A B} (xs : list A) (ks : list B) pre x k post :
  zip xs ks = pre ++ (x, k) :: post →
  xs !! length pre = Some x ∧ ks !! length pre = Some k ∧
  (∀ a b, a < length pre → ks !! a = Some b → ∃ z, (z, b) ∈ pre) ∧
  (∀ a b, length pre < a → a < length xs → ks !! a = Some b → ∃ z, (z, b) ∈ post).
Proof.
  intros E.
  assert (∀ a, zip xs ks !! a = (pre ++ (x, k) :: post) !! a) as Hl by by rewrite E.
  assert (∀ a z b, zip xs ks !! a = Some (z, b) → xs !! a = Some z ∧ ks !! a = Some b) as Hz.
  { intros a z b Ha. apply lookup_zip_with_Some in Ha as (z' & b' & [= -> ->] & ? & ?). done. }
  split_and!.
  - eapply Hz. rewrite Hl. by apply list_lookup_middle.
  - eapply Hz. rewrite Hl. by apply list_lookup_middle.
  - intros a b Ha Hb.
    destruct (lookup_lt_is_Some_2 pre a Ha) as [[z b'] Hzb].
    assert (zip xs ks !! a = Some (z, b')) as Hzip.
    { rewrite Hl. by rewrite lookup_app_l. }
    apply Hz in Hzip as [_ Hb']. rewrite Hb in Hb'. injection Hb' as ->.
    exists z. by eapply list_elem_of_lookup_2.
  - intros a b Ha Hax Hb.
    destruct (lookup_lt_is_Some_2 xs a Hax) as [z Hxa].
    assert (zip xs ks !! a = Some (z, b)) as Hzip.
    { apply lookup_zip_with_Some. eauto. }
    rewrite Hl in Hzip. rewrite lookup_app_r in Hzip by lia.
    destruct (a - length pre) as [|d] eqn:Hd; [lia|]. simpl in Hzip.
    exists z. by eapply list_elem_of_lookup_2.
Qed.

Section Order.
Context `{!PyNumOrder num}.

Lemma max_by_zip_first_max {A} (xs : list A) (row : list num) x :
  length xs = length row →
  max_by num_gtb (zip xs row) = Return x →
  ∃ j y, xs !! j = Some x ∧ first_max row j y.
Proof.
  intros Hlen E.
  apply (max_by_first_maximal num_gtb gtb_irrefl gtb_trans gtb_incomp) in E
    as (pre & y & post & E & Hpre & Hpost).
  destruct (zip_lookup_split _ _ _ _ _ _ E) as (Hx & Hy & Hb & Ha).
  exists (length pre), y. split; [done|]. split_and!; [done| |].
  - intros a b Hlt Hrow. destruct (Hb a b Hlt Hrow) as [z Hin]. apply (Hpre _ Hin).
  - intros a b Hlt Hrow. destruct (Ha a b Hlt) as [z Hin]; [|done|apply (Hpost _ Hin)].
    rewrite Hlen. by eapply lookup_lt_Some.
Qed.

Lemma first_max_unique (row : list num) j y j' y' :
  first_max row j y → first_max row j' y' → j = j' ∧ y = y'.
Proof.
  intros (Hj & Hb & Ha) (Hj' & Hb' & Ha').
  assert (j = j') as ->.
  { destruct (Nat.lt_trichotomy j j') as [Hlt|[->|Hlt]]; [|done|].
    - pose proof (Hb' _ _ Hlt Hj). pose proof (Ha _ _ Hlt Hj'). congruence.
    - pose proof (Hb _ _ Hlt Hj'). pose proof (Ha' _ _ Hlt Hj). congruence. }
  split; congruence.
Qed.

Lemma np_max_argmax (row : list num) :
  row ≠ [] →
  ∃ j y, np_max row = Return y ∧ np_argmax row = Return j ∧ first_max row j y.
Proof.
  intros Hne. unfold np_max, np_argmax.
  destruct (max_by_defined num_gtb (zip row row)) as [y Ey].
  { destruct row; done. }
  destruct (max_by_defined num_gtb (zip (seq 0 (length row)) row)) as [j Ej].
  { destruct row; done. }
  destruct (max_by_zip_first_max row row y eq_refl Ey) as (j1 & y1 & Hj1 & Hm1).
  destruct (max_by_zip_first_max (seq 0 (length row)) row j (length_seq _ _) Ej)
    as (j2 & y2 & Hj2 & Hm2).
  apply lookup_seq in Hj2 as [-> _]. simpl in Hm2.
  destruct (first_max_unique _ _ _ _ _ Hm1 Hm2) as [-> ->].
  destruct Hm1 as (Hy & _). rewrite Hy in Hj1. injection Hj1 as ->.
  exists j2, y. done.
Qed.

End Order.

Lemma np_eye_row_lookup n j :
  length (np_eye_row (num := num) n j) = n ∧
  ∀ idx, idx < n →
    np_eye_row n j !! idx = Some (if decide (idx = j) then num_of_nat 1 else num_of_nat 0).
Proof.
  unfold np_eye_row. split; [by rewrite length_fmap, length_seq|].
  intros idx Hidx. by rewrite list_lookup_fmap, lookup_seq_lt.
Qed.

Lemma reshape_concat {A} (rows : list (list A)) n :
  Forall (λ r, length r = n) rows →
  reshape (replicate (length rows) n) (concat rows) = rows.
Proof.
  induction 1 as [|r rows Hr _ IH]; simpl; [done|].
  rewrite take_app_length', drop_app_length' by done. by rewrite IH.
Qed.

Lemma length_concat_uniform {A} (rows : list (list A)) n :
  Forall (λ r, length r = n) rows → length (concat rows) = length rows * n.
Proof. induction 1 as [|r rows Hr _ IH]; simpl; [done|]. rewrite length_app. lia. Qed.

Lemma zip_with_fmap_same {A B C D} (f : B → C → D) (g : A → B) (g' : A → C) (xs : list A) :
  zip_with f (g <$> xs) (g' <$> xs) = (λ x, f (g x) (g' x)) <$> xs.
Proof. induction xs as [|x xs IH]; csimpl; [done|]. by rewrite IH. Qed.

(** **** The targets of a batch *)

Lemma fmap_concat {A B} (f : A → B) (rows : list (list A)) :
  f <$> concat rows = concat ((λ r : list A, f <$> r) <$> rows).
Proof. induction rows as [|r rows IH]; csimpl; [done|]. by rewrite fmap_app, IH. Qed.

Lemma fmap_rows {A B C} (f : B → C) (g : A → list B) (xs : list A) :
  (λ r : list B, f <$> r) <$> (g <$> xs) = (λ x, f <$> g x) <$> xs.
Proof. induction xs as [|x xs IH]; csimpl; [done|]. by rewrite IH. Qed.

Lemma stretch_length {A} n (l : list A) : length l = n → stretch n l = l.
Proof. destruct l as [|x [|y l]]; simpl; intros <-; done. Qed.

Lemma broadcast_dim_same n : broadcast_dim n n = Return n.
Proof. unfold broadcast_dim. by rewrite decide_True. Qed.

(** Two arrays of the same shape, the first one with rows, are added entry
    by entry. *)
Lemma np_add_same_shape n (a b : list (list num)) :
  a ≠ [] → length a = length b →
  Forall (λ r, length r = n) a → Forall (λ r, length r = n) b →
  np_add (np_asarray_rows n a) {| arr_cols := n; arr_rows := b |}
  = Return {| arr_cols := n; arr_rows := zip_with (zip_with num_add) a b |}.
Proof.
  intros Ha Hlen Hra Hrb.
  assert (np_asarray_rows n a = {| arr_cols := n; arr_rows := a |}) as ->
    by (by destruct a).
  assert (∀ rs : list (list num), Forall (λ r, length r = n) rs → stretch n <$> rs = rs)
    as Hrows.
  { induction 1 as [|r rs Hr _ IH]; csimpl; [done|]. by rewrite IH, stretch_length. }
  unfold np_add. cbn [arr_cols arr_rows].
  rewrite Hlen, !broadcast_dim_same, !Return_bind. cbv beta.
  rewrite !Hrows by done.
  rewrite (stretch_length _ a) by done. by rewrite (stretch_length _ b).
Qed.

(** An empty batch has no targets: the computation raises. *)
Lemma train_targets_empty_batch (m : keras_model arch wts num) (dim batch_size : nat) :
  train_targets m dim batch_size [] = Raise ValueError.
Proof.
  unfold train_targets. cbv zeta. csimpl. unfold np_reshape.
  case_decide as Hsize; [|done].
  rewrite Return_bind. cbv beta.
  unfold np_add. cbn [arr_cols arr_rows np_asarray_rows].
  assert (∀ b, broadcast_dim 1 b = Return b) as Hone.
  { intros b. unfold broadcast_dim. repeat case_decide; by subst. }
  assert (∀ c, broadcast_dim 0 c = Return 0 ∨ broadcast_dim 0 c = Raise ValueError) as Hzero.
  { intros c. unfold broadcast_dim. repeat case_decide; subst; auto; lia. }
  change (length [[]]) with 1. rewrite Hone, Return_bind. cbv beta.
  destruct (Hzero (length (actions dim))) as [-> | ->]; [|done].
  rewrite Return_bind. cbv beta. rewrite Return_bind. cbv beta.
  unfold np_max_axis1. cbn [arr_cols]. by rewrite decide_True.
Qed.

(** The specification's one-step lookahead, from the environment and the
    network alone: the reward of the move, made on the cube rebuilt from
    the sample, plus the value that the network predicts for the one-hot
    state that the move leads to. *)
Definition lookahead (m : keras_model arch wts num) (dim : nat) (X_i : onehot) (a : action)
  : num :=
  let '(_, states_a, reward_a) := step (from_one_hot dim X_i) a in
  num_add reward_a
          (predict (architecture m) (model_weights m) (to_one_hot_cube states_a)).1.

Lemma lookahead_child (m : keras_model arch wts num) (dim : nat) (X_i : onehot) (a : action) :
  num_add (child dim X_i a).1
          (predict (architecture m) (model_weights m) (child dim X_i a).2).1
  = lookahead m dim X_i a.
Proof. unfold lookahead, child. by destruct (step (from_one_hot dim X_i) a) as [[? ?] ?]. Qed.

(** C1. In the target computation of [train], on a batch that is not empty,
    with [batch_size] its size, as both ways of drawing a batch make it, and
    a cube that has moves: for every sampled state the value target is the
    maximum over the moves of the lookahead, reward plus predicted value of
    the child, and the policy target is the one-hot vector, over the moves,
    of the first index that reaches this maximum. *)
Theorem train_targets_spec `{!PyNumOrder num} (m : keras_model arch wts num)
    (dim batch_size : nat) (X_batch : list onehot) :
  X_batch ≠ [] → batch_size = length X_batch → actions dim ≠ [] →
  ∃ Y_v Y_p,
    train_targets m dim batch_size X_batch = Return (Y_v, Y_p) ∧
    length Y_v = length X_batch ∧ length Y_p = length X_batch ∧
    ∀ i X_i, X_batch !! i = Some X_i →
      ∃ j y row,
        Y_v !! i = Some y ∧ Y_p !! i = Some row ∧
        first_max (lookahead m dim X_i <$> actions dim) j y ∧
        j < length (actions dim) ∧
        length row = length (actions dim) ∧
        ∀ idx, idx < length (actions dim) →
          row !! idx = Some (if decide (idx = j) then num_of_nat 1 else num_of_nat 0).
Proof.
  intros Hbatch -> Hacts. unfold train_targets.
  set (acts := actions dim) in *.
  set (value := λ s : onehot, (predict (architecture m) (model_weights m) s).1).
  cbv zeta.
  set (rowsV := (λ X_i, (λ a, value (child dim X_i a).2) <$> acts) <$> X_batch).
  assert (value <$> concat ((λ X_i, (λ a, (child dim X_i a).2) <$> acts) <$> X_batch)
          = concat rowsV) as ->.
  { rewrite fmap_concat, fmap_rows. f_equal. unfold rowsV.
    apply list_fmap_ext. intros _ X_i _. by rewrite <- list_fmap_compose. }
  assert (Forall (λ r : list num, length r = length acts) rowsV) as Hrows.
  { apply Forall_fmap, Forall_forall. intros X_i _. simpl. by rewrite length_fmap. }
  assert (length rowsV = length X_batch) as HlenV by (unfold rowsV; by rewrite length_fmap).
  unfold np_reshape. rewrite decide_True.
  2:{ rewrite (length_concat_uniform _ _ Hrows). lia. }
  rewrite <- HlenV, (reshape_concat _ _ Hrows), Return_bind. cbv beta.
  rewrite np_add_same_shape; try done.
  2:{ by destruct X_batch. }
  2:{ by rewrite length_fmap. }
  2:{ apply Forall_fmap, Forall_forall. intros X_i _. simpl. by rewrite length_fmap. }
  set (q := (λ X_i, lookahead m dim X_i <$> acts) <$> X_batch).
  assert (zip_with (zip_with num_add)
            ((λ X_i, (λ a, (child dim X_i a).1) <$> acts) <$> X_batch) rowsV = q) as ->.
  { unfold rowsV, q. rewrite zip_with_fmap_same.
    apply list_fmap_ext. intros _ X_i _.
    rewrite (zip_with_fmap_same num_add (λ a, (child dim X_i a).1)
               (λ a, value (child dim X_i a).2) acts).
    apply list_fmap_ext. intros _ a _. apply lookahead_child. }
  rewrite !HlenV. clear rowsV Hrows HlenV.
  rewrite Return_bind. cbv beta. unfold np_max_axis1, np_argmax_axis1. cbn [arr_cols arr_rows].
  rewrite !decide_False by (by destruct acts).
  assert (∀ row, row ∈ q → row ≠ []) as Hne.
  { intros row (X_i & -> & _)%list_elem_of_fmap. destruct acts; done. }
  destruct (for_each_lookup np_max q) as (Y_v & EY & HlY & HY).
  { intros row Hrow. destruct (np_max_argmax row (Hne _ Hrow)) as (j & y & Hy & _). eauto. }
  destruct (for_each_lookup np_argmax q) as (best & EB & HlB & HB).
  { intros row Hrow. destruct (np_max_argmax row (Hne _ Hrow)) as (j & y & _ & Hj & _). eauto. }
  rewrite EY, !Return_bind. cbv beta. cbn [arr_cols arr_rows].
  rewrite decide_False by (by destruct acts).
  rewrite EB, Return_bind. cbv beta.
  assert (length q = length X_batch) as Hlq by (unfold q; by rewrite length_fmap).
  exists Y_v, (np_eye_row (length acts) <$> best). split_and!.
  - done.
  - lia.
  - rewrite length_fmap. lia.
  - intros i X_i Hi.
    assert (q !! i = Some (lookahead m dim X_i <$> acts)) as Hqi.
    { unfold q. by rewrite list_lookup_fmap, Hi. }
    destruct (HY _ _ Hqi) as (y & Hy & Emax).
    destruct (HB _ _ Hqi) as (j & Hj & Earg).
    destruct (np_max_argmax (lookahead m dim X_i <$> acts)) as (j0 & y0 & E1 & E2 & Hfm).
    { apply Hne. by eapply list_elem_of_lookup_2. }
    rewrite Emax in E1. injection E1 as <-. rewrite Earg in E2. injection E2 as <-.
    destruct (np_eye_row_lookup (length acts) j) as [Hlen Hrow].
    exists j, y, (np_eye_row (length acts) j). split_and!; try done.
    + by rewrite list_lookup_fmap, Hj.
    + destruct Hfm as (Hjy & _). apply lookup_lt_Some in Hjy.
      by rewrite length_fmap in Hjy.
Qed.

(** **** The scrambling loops *)

Lemma candidates_spec n (e : option nat) idx :
  idx ∈ candidates n e ↔ idx < n ∧ Some idx ≠ e.
Proof.
  unfold candidates. rewrite list_elem_of_filter, elem_of_seq. split.
  - intros [? [_ ?]]. split; [lia|done].
  - intros [? ?]. split; [done|lia].
Qed.

Lemma candidates_NoDup n (e : option nat) : NoDup (candidates n e).
Proof. apply NoDup_filter, NoDup_seq. Qed.

Lemma candidates_length n (e : option nat) : n - 1 ≤ length (candidates n e).
Proof.
  unfold candidates. destruct e as [e|].
  - assert (length (filter (λ idx, Some idx ≠ Some e) (seq 0 n))
            = n - (if decide (e < n) then 1 else 0)) as ->; [|case_decide; lia].
    induction n as [|n IH]; [by case_decide|].
    rewrite seq_S, filter_app, length_app, IH. simpl.
    rewrite filter_cons, filter_nil.
    destruct (decide (Some n ≠ Some e)) as [Hne|Heq]; simpl.
    + assert (n ≠ e) by congruence. repeat case_decide; lia.
    + assert (n = e) by (destruct (decide (n = e)); [done|exfalso; apply Heq; congruence]).
      repeat case_decide; lia.
  - rewrite filter_all by done. rewrite length_seq. lia.
Qed.

Lemma choice_Return {A} (u : nat) (xs : list A) y :
  choice u xs = Return y ↔ xs !! (u mod length xs) = Some y.
Proof. unfold choice. destruct (xs !! _); split; congruence. Qed.

Lemma choice_defined {A} (u : nat) (xs : list A) :
  xs ≠ [] → ∃ y, choice u xs = Return y.
Proof.
  intros Hne. destruct (lookup_lt_is_Some_2 xs (u mod length xs)) as [y Hy].
  { apply Nat.mod_upper_bound. destruct xs; simpl; [done|lia]. }
  exists y. by apply choice_Return.
Qed.

(** Every item of a duplicate-free list is the choice of exactly one
    residue of the number drawn: equally likely draws make equally likely
    choices. *)
Lemma choice_one_residue {A} (xs : list A) y :
  NoDup xs → y ∈ xs →
  ∃ r, r < length xs ∧ xs !! r = Some y ∧ ∀ r', xs !! r' = Some y → r' = r.
Proof.
  intros Hnd [r Hr]%list_elem_of_lookup. exists r. split_and!; [by eapply lookup_lt_Some|done|].
  intros r' Hr'. by eapply NoDup_lookup.
Qed.

Lemma scramble_move_Return dim (st st' : scramble cube) (m : move onehot) :
  scramble_move dim st = Return (st', m) →
  excluded m = inverse_previous_action_idx st ∧
  drawn m = draw (rng_pos st) ∧
  choice (drawn m) (candidates (length (actions dim)) (excluded m)) = Return (action_idx m) ∧
  state_after m = state_one_hot (rubiks_cube st') ∧
  rng_pos st' = S (rng_pos st) ∧
  ∃ a, actions dim !! action_idx m = Some a ∧
       inverse_previous_action_idx st' = Some (inverse_index dim a) ∧
       rubiks_cube st' = (step (rubiks_cube st) a).1.1.
Proof.
  unfold scramble_move. intros E. inv_bind E as idx Hidx. inv_bind E as a Ha.
  destruct (actions dim !! idx) as [a'|] eqn:Hact; [|discriminate].
  injection Ha as ->. injection E as <- <-. simpl. split_and!; try done. eauto.
Qed.

Lemma scramble_move_defined dim (st : scramble cube) :
  2 ≤ length (actions dim) → ∃ r, scramble_move dim st = Return r.
Proof.
  intros Hn. unfold scramble_move.
  set (cands := candidates _ _).
  destruct (choice_defined (draw (rng_pos st)) cands) as [idx Hidx].
  { pose proof (candidates_length (length (actions dim)) (inverse_previous_action_idx st))
      as Hcl.
    fold cands in Hcl. destruct cands; simpl in *; [lia|done]. }
  rewrite Hidx, Return_bind.
  assert (idx ∈ cands) as Hin.
  { apply choice_Return in Hidx. by eapply list_elem_of_lookup_2. }
  apply candidates_spec in Hin as [Hlt _].
  destruct (lookup_lt_is_Some_2 (actions dim) idx Hlt) as [a ->].
  rewrite Return_bind. eauto.
Qed.

(** The moves of a scramble, from the first one on: each excludes what the
    one before it set, is the choice of the next number drawn among the
    candidates, and sets the index of its inverse for the next. *)
Inductive chained (dim : nat) : nat → option nat → list (move onehot) → Prop :=
| chained_nil pos e : chained dim pos e []
| chained_cons pos e m a ms :
    excluded m = e →
    drawn m = draw pos →
    choice (drawn m) (candidates (length (actions dim)) e) = Return (action_idx m) →
    actions dim !! action_idx m = Some a →
    chained dim (S pos) (Some (inverse_index dim a)) ms →
    chained dim pos e (m :: ms).

(** What the specification says of a scramble sequence whose first draw is
    number [pos]: the first move excludes nothing; every move is
    [random.choice], with a draw of its own, among the indices left; and a
    move is never the inverse, by the lookup, of the move before. *)
Definition scramble_ok (dim pos : nat) (ms : list (move onehot)) : Prop :=
  (∀ m, ms !! 0 = Some m → excluded m = None) ∧
  (∀ j m, ms !! j = Some m →
     drawn m = draw (pos + j) ∧
     choice (drawn m) (candidates (length (actions dim)) (excluded m))
       = Return (action_idx m)) ∧
  (∀ j m1 m2, ms !! j = Some m1 → ms !! S j = Some m2 →
     ∃ a1, actions dim !! action_idx m1 = Some a1 ∧
           excluded m2 = Some (inverse_index dim a1) ∧
           action_idx m2 ≠ inverse_index dim a1).

Lemma chained_facts dim pos e ms :
  chained dim pos e ms →
  (∀ m, ms !! 0 = Some m → excluded m = e) ∧
  (∀ j m, ms !! j = Some m →
     drawn m = draw (pos + j) ∧
     choice (drawn m) (candidates (length (actions dim)) (excluded m))
       = Return (action_idx m)) ∧
  (∀ j m1 m2, ms !! j = Some m1 → ms !! S j = Some m2 →
     ∃ a1, actions dim !! action_idx m1 = Some a1 ∧
           excluded m2 = Some (inverse_index dim a1) ∧
           action_idx m2 ≠ inverse_index dim a1).
Proof.
  induction 1 as [pos e|pos e m a ms He Hdr Hch Ha Hms (IH1 & IH2 & IH3)].
  - split_and!.
    + intros m Hm. by rewrite lookup_nil in Hm.
    + intros j m Hm. by rewrite lookup_nil in Hm.
    + intros j m1 m2 Hm. by rewrite lookup_nil in Hm.
  - split_and!.
    + intros m' [= <-]. done.
    + intros [|j] m' Hm'; simpl in Hm'.
      * injection Hm' as <-. rewrite Nat.add_0_r, He. done.
      * destruct (IH2 j m' Hm') as [Hd Hc]. split; [|done].
        rewrite Hd. f_equal. lia.
    + intros [|j] m1 m2 Hm1 Hm2; simpl in Hm1, Hm2.
      * injection Hm1 as <-. exists a. pose proof (IH1 _ Hm2) as Hex. split_and!; [done..|].
        destruct (IH2 0 m2 Hm2) as [_ Hc]. rewrite Hex in Hc.
        apply choice_Return in Hc. apply list_elem_of_lookup_2 in Hc.
        apply candidates_spec in Hc as [_ Hne]. congruence.
      * eauto.
Qed.

Lemma chained_ok dim pos ms : chained dim pos None ms → scramble_ok dim pos ms.
Proof. apply chained_facts. Qed.

Lemma for_loop_defined {S} (body : nat → S → outcome S) (range : list nat) (s : S) :
  (∀ i s, ∃ s', body i s = Return s') → ∃ s', for_loop body range s = Return s'.
Proof.
  intros Hb. revert s. induction range as [|i range IH]; intros s; simpl; [eauto|].
  destruct (Hb i s) as [s1 ->]. rewrite Return_bind. apply IH.
Qed.

(** The inner loop of [_generate_dataset]. *)
Lemma shuffle_loop dim n : ∀ s0 (st : scramble cube) moves (d : dataset onehot) st' moves' d',
  for_loop (shuffle_body dim) (seq s0 n) (st, moves, d) = Return (st', moves', d') →
  rng_pos st = next_draw d →
  ∃ new, moves' = moves ++ new ∧ length new = n ∧
    X d' = X d ++ (state_after <$> new) ∧
    weights d' = weights d ++ (weight_of <$> seq s0 n) ∧
    sequences d' = sequences d ∧ next_draw d' = rng_pos st' ∧
    rng_pos st' = rng_pos st + n ∧
    chained dim (rng_pos st) (inverse_previous_action_idx st) new.
Proof.
  induction n as [|n IH]; intros s0 st moves d st' moves' d' E Hpos; simpl in E.
  - injection E as <- <- <-. exists []. rewrite !app_nil_r, Nat.add_0_r.
    split_and!; try done. constructor.
  - inv_bind E as [[st1 moves1] d1] Hbody. unfold shuffle_body in Hbody.
    inv_bind Hbody as [st1' m] Hmove. injection Hbody as -> <- <-.
    destruct (scramble_move_Return _ _ _ _ Hmove) as (Hex & Hdr & Hch & Hst & Hrp & a & Ha & Hinv & Hcube).
    destruct (IH _ _ _ _ _ _ _ E eq_refl) as (new & -> & Hlen & HX & HW & HS & HN & HP & Hchain).
    exists (m :: new). simpl in *. split_and!.
    + by rewrite <- app_assoc.
    + by rewrite Hlen.
    + rewrite HX, <- app_assoc, Hst. done.
    + rewrite HW, <- app_assoc. done.
    + done.
    + done.
    + lia.
    + econstructor; [done|done| |done|].
      * by rewrite <- Hex.
      * by rewrite <- Hinv, <- Hrp.
Qed.

Lemma shuffle_loop_defined dim (range : list nat) (s : scramble cube * list (move onehot) * dataset onehot) :
  2 ≤ length (actions dim) → ∃ s', for_loop (shuffle_body dim) range s = Return s'.
Proof.
  intros Hacts. apply for_loop_defined. intros j [[st moves] d]. unfold shuffle_body.
  destruct (scramble_move_defined dim st Hacts) as [[st' m] ->].
  rewrite Return_bind. eauto.
Qed.

(** The outer loop of [_generate_dataset]. *)
Lemma iteration_loop dim k n : ∀ i0 (d d' : dataset onehot),
  for_loop (iteration_body dim k) (seq i0 n) d = Return d' →
  ∃ seqs : list (list (move onehot)), length seqs = n ∧
    Forall (λ ms, length ms = k) seqs ∧
    (∀ i ms, seqs !! i = Some ms → chained dim (next_draw d + i * k) None ms) ∧
    sequences d' = sequences d ++ seqs ∧
    next_draw d' = next_draw d + n * k ∧
    X d' = X d ++ concat ((λ ms : list (move onehot), state_after <$> ms) <$> seqs) ∧
    weights d' = weights d ++ concat (replicate n (weight_of <$> seq 0 k)).
Proof.
  induction n as [|n IH]; intros i0 d d' E; simpl in E.
  - injection E as <-. exists []. simpl. rewrite !app_nil_r, Nat.add_0_r.
    split_and!; done.
  - inv_bind E as d1 Hbody. unfold iteration_body in Hbody.
    inv_bind Hbody as [[st1 moves] d0] Hloop. injection Hbody as <-.
    destruct (shuffle_loop _ _ _ _ _ _ _ _ _ Hloop eq_refl)
      as (new & -> & Hlen & HX & HW & HS & HN & HP & Hchain).
    destruct (IH _ _ _ E) as (seqs & Hl & HF & Hch & HS' & HN' & HX' & HW').
    simpl in *. exists (new :: seqs). split_and!.
    + simpl. by rewrite Hl.
    + constructor; done.
    + intros [|i] ms Hi; simpl in Hi.
      * injection Hi as <-. by rewrite Nat.add_0_r.
      * specialize (Hch i ms Hi).
        replace (next_draw d + S i * k) with (next_draw d0 + i * k) by lia. done.
    + rewrite HS', HS, <- app_assoc. done.
    + lia.
    + rewrite HX', HX, <- app_assoc. done.
    + rewrite HW', HW, <- app_assoc. done.
Qed.

Lemma iteration_loop_defined dim k (range : list nat) (d : dataset onehot) :
  2 ≤ length (actions dim) → ∃ d', for_loop (iteration_body dim k) range d = Return d'.
Proof.
  intros Hacts. apply for_loop_defined. intros i d1. unfold iteration_body.
  destruct (shuffle_loop_defined dim (seq 0 k)
              ({| rubiks_cube := solved dim; inverse_previous_action_idx := None;
                  rng_pos := next_draw d1 |}, [], d1) Hacts) as [[[st moves] d2] ->].
  rewrite Return_bind. eauto.
Qed.

(** The two loops of [estimate_naive_accuracy]. *)
Lemma depth_loop dim n : ∀ s0 (st : scramble cube) moves st' moves',
  for_loop (depth_body dim) (seq s0 n) (st, moves) = Return (st', moves') →
  ∃ new, moves' = moves ++ new ∧ length new = n ∧
    rng_pos st' = rng_pos st + n ∧
    chained dim (rng_pos st) (inverse_previous_action_idx st) new.
Proof.
  induction n as [|n IH]; intros s0 st moves st' moves' E; simpl in E.
  - injection E as <- <-. exists []. rewrite app_nil_r, Nat.add_0_r.
    split_and!; try done. constructor.
  - inv_bind E as [st1 moves1] Hbody. unfold depth_body in Hbody. simpl in Hbody.
    inv_bind Hbody as [st1' m] Hmove. injection Hbody as -> <-.
    destruct (scramble_move_Return _ _ _ _ Hmove) as (Hex & Hdr & Hch & Hst & Hrp & a & Ha & Hinv & Hcube).
    destruct (IH _ _ _ _ _ E) as (new & -> & Hlen & HP & Hchain).
    exists (m :: new). split_and!.
    + by rewrite <- app_assoc.
    + simpl. by rewrite Hlen.
    + lia.
    + econstructor; [done|done| |done|].
      * by rewrite <- Hex.
      * by rewrite <- Hinv, <- Hrp.
Qed.

Lemma accuracy_loop (m : keras_model arch wts num) dim depth n :
  ∀ i0 score pos seqs0 score' pos' seqs',
  for_loop (accuracy_body m dim depth) (seq i0 n) (score, pos, seqs0)
    = Return (score', pos', seqs') →
  ∃ seqs : list (list (move onehot)), seqs' = seqs0 ++ seqs ∧ length seqs = n ∧
    Forall (λ ms, length ms = depth) seqs ∧
    (∀ i ms, seqs !! i = Some ms → chained dim (pos + i * depth) None ms).
Proof.
  induction n as [|n IH]; intros i0 score pos seqs0 score' pos' seqs' E; simpl in E.
  - injection E as <- <- <-. exists []. rewrite app_nil_r. split_and!; done.
  - inv_bind E as [[score1 pos1] seqs1] Hbody. unfold accuracy_body in Hbody.
    inv_bind Hbody as [st1 moves] Hloop. inv_bind Hbody as prediction Hpred.
    injection Hbody as <- <- <-.
    destruct (depth_loop _ _ _ _ _ _ _ Hloop) as (new & -> & Hlen & HP & Hchain).
    destruct (IH _ _ _ _ _ _ _ E) as (seqs & -> & Hl & HF & Hch).
    simpl in *. exists (new :: seqs). split_and!.
    + by rewrite <- app_assoc.
    + simpl. by rewrite Hl.
    + constructor; done.
    + intros [|i] ms Hi; simpl in Hi.
      * injection Hi as <-. by rewrite Nat.add_0_r.
      * specialize (Hch i ms Hi).
        replace (pos + S i * depth) with (rng_pos st1 + i * depth) by lia. done.
Qed.

Lemma np_argmax_defined (row : list num) : row ≠ [] → ∃ j, np_argmax row = Return j.
Proof. intros Hne. apply max_by_defined. destruct row; done. Qed.

Lemma estimate_naive_accuracy_defined (m : keras_model arch wts num) dim pos depth iterations :
  2 ≤ length (actions dim) → 1 ≤ iterations →
  (∀ s, (predict (architecture m) (model_weights m) s).2 ≠ []) →
  ∃ r, estimate_naive_accuracy m dim pos depth iterations = Return r.
Proof.
  intros Hacts Hit Hpol. unfold estimate_naive_accuracy.
  destruct (for_loop_defined (accuracy_body m dim depth) (seq 0 iterations) (0, pos, []))
    as [[[score pos'] seqs] ->].
  { intros i [[score pos1] seqs]. unfold accuracy_body.
    destruct (for_loop_defined (depth_body dim) (seq 0 depth)
                ({| rubiks_cube := solved dim; inverse_previous_action_idx := None;
                    rng_pos := pos1 |}, [])) as [[st' moves] ->].
    { intros j [st moves]. unfold depth_body. simpl.
      destruct (scramble_move_defined dim st Hacts) as [[st' mv] ->].
      rewrite Return_bind. eauto. }
    rewrite Return_bind.
    destruct (np_argmax_defined _ (Hpol (state_one_hot (rubiks_cube st')))) as [j ->].
    rewrite Return_bind. eauto. }
  rewrite Return_bind. rewrite decide_False by lia. eauto.
Qed.

Lemma generate_dataset_defined (self : trainer) (pos k l : nat) :
  2 ≤ length (actions (cube_dim self)) →
  (∀ i n, np_random_permutation i n ≡ₚ seq 0 n) →
  (shuffle self = true → 1 ≤ l * k) →
  ∃ d, _generate_dataset self pos k l = Return d.
Proof.
  intros Hacts Hperm Hsize. unfold _generate_dataset.
  destruct (iteration_loop_defined (cube_dim self) k (seq 0 l)
              {| X := []; weights := []; sequences := []; next_draw := pos |} Hacts)
    as [d0 E0].
  destruct (iteration_loop _ _ _ _ _ _ E0) as (seqs & Hlen & HF & _ & _ & _ & HX & HW).
  simpl in HX, HW. rewrite E0, Return_bind.
  destruct (shuffle self); [|eauto].
  rewrite decide_False by (specialize (Hsize eq_refl); lia).
  assert (∀ j, j ∈ np_random_permutation (next_draw d0) (l * k) → j < l * k) as Hin.
  { intros j Hj. rewrite Hperm in Hj. apply elem_of_seq in Hj. lia. }
  destruct (np_take_lookup (X d0) (np_random_permutation (next_draw d0) (l * k)))
    as (X' & -> & _).
  { intros j Hj. rewrite HX, (length_concat_uniform _ k).
    - rewrite length_fmap, Hlen. auto.
    - apply Forall_fmap. eapply Forall_impl; [exact HF|]. intros ms Hms. simpl.
      by rewrite length_fmap. }
  destruct (np_take_lookup (weights d0) (np_random_permutation (next_draw d0) (l * k)))
    as (W' & -> & _).
  { intros j Hj. rewrite HW, (length_concat_uniform _ k).
    - rewrite length_replicate. auto.
    - apply Forall_replicate. by rewrite length_fmap, length_seq. }
  rewrite !Return_bind. eauto.
Qed.

(** Shuffling a dataset without samples raises: the index is an array of
    floats. *)
Lemma generate_dataset_empty_shuffled (self : trainer) (pos k l : nat) :
  shuffle self = true → l * k = 0 → _generate_dataset self pos k l = Raise IndexError.
Proof.
  intros Hsh Hsize. unfold _generate_dataset.
  assert (∃ d0, for_loop (iteration_body (cube_dim self) k) (seq 0 l)
                  {| X := []; weights := []; sequences := []; next_draw := pos |}
                = Return d0) as [d0 ->].
  { destruct (decide (k = 0)) as [->|Hk].
    - apply for_loop_defined. intros i d1. unfold iteration_body. simpl. eauto.
    - assert (l = 0) as -> by nia. simpl. eauto. }
  rewrite Return_bind, Hsh. by rewrite decide_True.
Qed.

(** C5. In every scramble sequence that [_generate_dataset] or
    [estimate_naive_accuracy] produces ([l] sequences of [k] moves for the
    one, [iterations] sequences of [depth] moves for the other, and both
    return on a cube with at least two moves, the one unless it is to
    shuffle a dataset without samples, which raises [IndexError], the other
    for at least one iteration): the first move excludes no index; every
    move is [random.choice], with a draw of its own, applied to the list of
    the legal move indices other than the excluded one; and no move is the
    inverse, by the lookup [index_actions], of the move before it.  The
    choice is uniform in that every index left is the choice of exactly one
    residue of the number drawn. *)
Theorem scrambles_avoid_inverse :
  (∀ n (e : option nat) idx, idx ∈ candidates n e ↔ idx < n ∧ Some idx ≠ e) ∧
  (∀ n (e : option nat) idx, idx ∈ candidates n e →
     ∃ r, r < length (candidates n e) ∧
       ∀ u, choice u (candidates n e) = Return idx ↔ u mod length (candidates n e) = r) ∧
  (∀ (self : trainer) pos k l,
     2 ≤ length (actions (cube_dim self)) →
     (∀ i n, np_random_permutation i n ≡ₚ seq 0 n) →
     (shuffle self = true → 1 ≤ l * k) →
     ∃ d, _generate_dataset self pos k l = Return d) ∧
  (∀ (self : trainer) pos k l,
     shuffle self = true → l * k = 0 →
     _generate_dataset self pos k l = Raise IndexError) ∧
  (∀ (self : trainer) pos k l d,
     _generate_dataset self pos k l = Return d →
     length (sequences d) = l ∧
     ∀ i ms, sequences d !! i = Some ms →
       length ms = k ∧ scramble_ok (cube_dim self) (pos + i * k) ms) ∧
  (∀ (m : keras_model arch wts num) dim pos depth iterations,
     2 ≤ length (actions dim) → 1 ≤ iterations →
     (∀ s, (predict (architecture m) (model_weights m) s).2 ≠ []) →
     ∃ r, estimate_naive_accuracy m dim pos depth iterations = Return r) ∧
  (∀ (m : keras_model arch wts num) dim pos depth iterations r,
     estimate_naive_accuracy m dim pos depth iterations = Return r →
     length r.2 = iterations ∧
     ∀ i ms, r.2 !! i = Some ms →
       length ms = depth ∧ scramble_ok dim (pos + i * depth) ms).
Proof.
  split_and!.
  - apply candidates_spec.
  - intros n e idx Hin.
    destruct (choice_one_residue _ _ (candidates_NoDup n e) Hin) as (r & Hr & Hy & Huniq).
    exists r. split; [done|]. intros u. rewrite choice_Return. split.
    + apply Huniq.
    + by intros ->.
  - apply generate_dataset_defined.
  - apply generate_dataset_empty_shuffled.
  - intros self pos k l d E. unfold _generate_dataset in E.
    inv_bind E as d0 Hloop.
    destruct (iteration_loop _ _ _ _ _ _ Hloop) as (seqs & Hlen & HF & Hch & HS & _).
    simpl in HS, Hch.
    assert (sequences d = seqs) as ->.
    { destruct (shuffle self); [|by injection E as <-].
      destruct (decide (l * k = 0)); [discriminate|].
      inv_bind E as X' HX. inv_bind E as W' HW. by injection E as <-. }
    split; [done|]. intros i ms Hi. split.
    + by eapply (Forall_lookup_1 _ _ _ _ HF).
    + apply chained_ok. auto.
  - apply estimate_naive_accuracy_defined.
  - intros m dim pos depth iterations r E. unfold estimate_naive_accuracy in E.
    inv_bind E as [[score pos'] seqs'] Hloop.
    destruct (accuracy_loop _ _ _ _ _ _ _ _ _ _ _ Hloop) as (seqs & -> & Hlen & HF & Hch).
    destruct (decide (iterations = 0)); [discriminate|]. injection E as <-. simpl.
    split; [done|]. intros i ms Hi. split.
    + by eapply (Forall_lookup_1 _ _ _ _ HF).
    + apply chained_ok. auto.
Qed.

(** **** The dataset *)

Lemma lookup_concat_uniform {A} (rows : list (list A)) k i s :
  Forall (λ r, length r = k) rows → s < k →
  concat rows !! (i * k + s) = rows !! i ≫= (λ r, r !! s).
Proof.
  intros HF Hs. revert i. induction HF as [|r rows Hr _ IH]; intros i; simpl.
  - by rewrite !lookup_nil.
  - destruct i as [|i]; simpl.
    + rewrite lookup_app_l by lia. done.
    + rewrite lookup_app_r by lia. rewrite <- IH. f_equal. lia.
Qed.

(** The weight of step [shuffle] is the fraction 1 / (shuffle + 1) itself. *)
Lemma weight_of_fraction shuffle :
  weight_of shuffle = QArith_base.Qmake 1 (Pos.of_succ_nat shuffle).
Proof. unfold weight_of. by rewrite Nat.add_1_r. Qed.

Lemma weight_of_bounds shuffle :
  QArith_base.Qlt (QArith_base.inject_Z 0) (weight_of shuffle) ∧
  QArith_base.Qle (weight_of shuffle) (QArith_base.inject_Z 1).
Proof.
  unfold weight_of, QArith_base.Qdiv, QArith_base.Qmult, QArith_base.Qinv,
    QArith_base.Qlt, QArith_base.Qle, QArith_base.inject_Z. simpl.
  destruct (Z.of_nat (shuffle + 1)) as [|q|q] eqn:E; simpl; lia.
Qed.

(** C4. For [k ≥ 1] and [l ≥ 1], on a cube with at least two moves,
    [_generate_dataset] returns two arrays of length [l * k].  The entry at
    position [p] of both arrays comes from one recorded sample, number [j]
    in the order of generation ([j = p] without shuffling): the state
    reached at step [j mod k] of sequence [j / k], and as weight the
    fraction of numerator 1 and denominator [j mod k + 1].  Every weight is
    greater than 0 and at most 1. *)
Theorem generate_dataset_spec (self : trainer) (pos k l : nat) :
  1 ≤ k → 1 ≤ l → 2 ≤ length (actions (cube_dim self)) →
  (∀ i n, np_random_permutation i n ≡ₚ seq 0 n) →
  ∃ d origin,
    _generate_dataset self pos k l = Return d ∧
    length (X d) = l * k ∧ length (weights d) = l * k ∧
    length (sequences d) = l ∧
    Forall (λ w, QArith_base.Qlt (QArith_base.inject_Z 0) w ∧
                 QArith_base.Qle w (QArith_base.inject_Z 1)) (weights d) ∧
    origin ≡ₚ seq 0 (l * k) ∧
    (shuffle self = false → origin = seq 0 (l * k)) ∧
    ∀ p j, origin !! p = Some j →
      ∃ ms m,
        sequences d !! (j / k) = Some ms ∧ ms !! (j mod k) = Some m ∧
        X d !! p = Some (state_after m) ∧
        weights d !! p = Some (QArith_base.Qmake 1 (Pos.of_succ_nat (j mod k))).
Proof.
  intros Hk Hl Hacts Hperm. setoid_rewrite <- weight_of_fraction.
  unfold _generate_dataset.
  set (dim := cube_dim self).
  destruct (iteration_loop_defined dim k (seq 0 l)
              {| X := []; weights := []; sequences := []; next_draw := pos |} Hacts)
    as [d0 E0].
  destruct (iteration_loop _ _ _ _ _ _ E0) as (seqs & Hlen & HF & _ & HS & _ & HX & HW).
  simpl in HS, HX, HW. rewrite E0, Return_bind.
  set (rowsX := (λ ms : list (move onehot), state_after <$> ms) <$> seqs) in *.
  set (rowsW := replicate l (weight_of <$> seq 0 k)) in *.
  assert (Forall (λ r : list onehot, length r = k) rowsX) as HFX.
  { apply Forall_fmap. eapply Forall_impl; [exact HF|]. intros ms Hms. simpl.
    by rewrite length_fmap. }
  assert (Forall (λ r : list QArith_base.Q, length r = k) rowsW) as HFW.
  { apply Forall_replicate. by rewrite length_fmap, length_seq. }
  assert (length (X d0) = l * k) as HlX.
  { rewrite HX, (length_concat_uniform _ _ HFX). unfold rowsX. by rewrite length_fmap, Hlen. }
  assert (length (weights d0) = l * k) as HlW.
  { rewrite HW, (length_concat_uniform _ _ HFW). unfold rowsW. by rewrite length_replicate. }
  assert (∀ j, j < l * k →
            ∃ ms m, seqs !! (j / k) = Some ms ∧ ms !! (j mod k) = Some m ∧
              X d0 !! j = Some (state_after m) ∧
              weights d0 !! j = Some (weight_of (j mod k))) as Hsample.
  { intros j Hj.
    assert (j mod k < k) as Hmod by (apply Nat.mod_upper_bound; lia).
    assert (j / k < l) as Hdiv by (apply Nat.Div0.div_lt_upper_bound; lia).
    assert (j = j / k * k + j mod k) as Hjk.
    { rewrite (Nat.div_mod_eq j k) at 1. lia. }
    destruct (lookup_lt_is_Some_2 seqs (j / k)) as [ms Hms]; [lia|].
    pose proof (Forall_lookup_1 _ _ _ _ HF Hms) as Hmsl. simpl in Hmsl.
    destruct (lookup_lt_is_Some_2 ms (j mod k)) as [m Hm]; [lia|].
    assert (∀ {A} (rows : list (list A)), Forall (λ r, length r = k) rows →
              concat rows !! j = rows !! (j / k) ≫= (λ r, r !! (j mod k))) as Hcat.
    { intros A rows Hrows. rewrite <- (lookup_concat_uniform rows k _ _ Hrows Hmod).
      f_equal. exact Hjk. }
    exists ms, m. split_and!; [done..| |].
    - rewrite HX, (Hcat _ _ HFX). unfold rowsX.
      rewrite list_lookup_fmap, Hms. simpl. by rewrite list_lookup_fmap, Hm.
    - rewrite HW, (Hcat _ _ HFW). unfold rowsW.
      rewrite lookup_replicate_2 by done. simpl.
      by rewrite list_lookup_fmap, lookup_seq_lt. }
  assert (∀ (d : dataset onehot) (origin : list nat),
            length origin = l * k →
            (∀ p j, origin !! p = Some j →
               j < l * k ∧ X d !! p = X d0 !! j ∧ weights d !! p = weights d0 !! j) →
            length (weights d) = l * k →
            sequences d = seqs →
            Forall (λ w, QArith_base.Qlt (QArith_base.inject_Z 0) w ∧
                         QArith_base.Qle w (QArith_base.inject_Z 1)) (weights d) ∧
            ∀ p j, origin !! p = Some j →
              ∃ ms m,
                sequences d !! (j / k) = Some ms ∧ ms !! (j mod k) = Some m ∧
                X d !! p = Some (state_after m) ∧
                weights d !! p = Some (weight_of (j mod k))) as Hfinal.
  { intros d origin Hlo Horigin HlWd Hseqs. split.
    - apply Forall_lookup. intros p' w Hw.
      destruct (lookup_lt_is_Some_2 origin p') as [j Hj].
      { rewrite Hlo, <- HlWd. by eapply lookup_lt_Some. }
      destruct (Horigin _ _ Hj) as (Hjlt & _ & HWj).
      destruct (Hsample j Hjlt) as (ms & m & _ & _ & _ & HWm).
      rewrite HWj, HWm in Hw. injection Hw as <-. apply weight_of_bounds.
    - intros p' j Hj. destruct (Horigin _ _ Hj) as (Hjlt & HXj & HWj).
      destruct (Hsample j Hjlt) as (ms & m & Hms & Hm & HXm & HWm).
      exists ms, m. rewrite Hseqs, HXj, HWj. done. }
  destruct (shuffle self) eqn:Hsh.
  - set (perm := np_random_permutation (next_draw d0) (l * k)).
    pose proof (Hperm (next_draw d0) (l * k)) as Hp. fold perm in Hp.
    assert (∀ j, j ∈ perm → j < l * k) as Hin.
    { intros j Hj. rewrite Hp in Hj. apply elem_of_seq in Hj. lia. }
    assert (length perm = l * k) as Hlp by by rewrite Hp, length_seq.
    destruct (np_take_lookup (X d0) perm) as (X' & EX & HlX' & HX').
    { intros j Hj. rewrite HlX. auto. }
    destruct (np_take_lookup (weights d0) perm) as (W' & EW & HlW' & HW').
    { intros j Hj. rewrite HlW. auto. }
    rewrite decide_False by nia.
    rewrite EX, Return_bind, EW, Return_bind.
    eexists _, perm. split; [reflexivity|]. simpl.
    destruct (Hfinal {| X := X'; weights := W'; sequences := sequences d0;
                        next_draw := next_draw d0 |} perm) as [HFw Hpj]; simpl.
    + done.
    + intros p' j Hj. split_and!; [apply Hin; by eapply list_elem_of_lookup_2|eauto..].
    + lia.
    + done.
    + split_and!; [lia|lia|by rewrite HS|done|done|done|exact Hpj].
  - exists d0, (seq 0 (l * k)). split; [reflexivity|].
    destruct (Hfinal d0 (seq 0 (l * k))) as [HFw Hpj].
    + by rewrite length_seq.
    + intros p' j [-> Hlt]%lookup_seq. done.
    + done.
    + done.
    + split_and!; [done|done|by rewrite HS|done|done|done|exact Hpj].
Qed.

(** **** Loading *)


(** C9. When data/<filename>.json holds an architecture and
    data/<filename>.h5 weights for it, [load_trained_model] returns; the
    trainer then holds the model of that architecture and those weights,
    compiled with the RMSprop optimizer and the losses mean squared error
    (value head) and categorical cross-entropy (policy head), and its
    [current_iteration] is the argument.  The model is the same whatever
    trainer the method is called on (so whatever its [initial_lr]), and no
    other path of the file system matters. *)
Theorem load_trained_model_spec (fs : files h5 ndarray) (self : trainer)
    (filename : string) (iteration : Z) json a w0 file w :
  read_text fs ("data/" ++ filename ++ ".json")%string = Some json →
  model_from_json json = Some (a, w0) →
  read_h5 fs ("data/" ++ filename ++ ".h5")%string = Some file →
  load_weights a file = Some w →
  ∃ self',
    load_trained_model fs self filename iteration = Return self' ∧
    model self' =
      Some {| architecture := a; model_weights := w;
              model_optimizer := Some RMSprop;
              model_losses := [("value_output", "mean_squared_error");
                               ("policy_output", "categorical_crossentropy")]%string |} ∧
    current_iteration self' = iteration ∧
    initial_lr self' = initial_lr self ∧
    (∀ other : trainer, ∃ other',
       load_trained_model fs other filename iteration = Return other' ∧
       model other' = model self') ∧
    (∀ fs' : files h5 ndarray,
       read_text fs' ("data/" ++ filename ++ ".json")%string = Some json →
       read_h5 fs' ("data/" ++ filename ++ ".h5")%string = Some file →
       load_trained_model fs' self filename iteration = Return self').
Proof.
  intros Hjson Hmodel Hh5 Hw. unfold load_trained_model.
  rewrite Hjson, Hmodel, Hh5, Hw. eexists. split_and!; try reflexivity.
  - intros other. eexists. split; reflexivity.
  - intros fs' -> ->. by rewrite Hmodel, Hw.
Qed.

End Properties.

(** *** Examples *)

(** The targets of the batch of the two counter states 0 and 3.  From 0
    the moves 0 and 1 both reach the maximum -2, and the first one is
    marked; from 3 move 5 reaches 0 and earns the reward. *)
Lemma train_targets_example :
  ∃ row0 row5,
    train_targets toy_model 3 2 [0%Z; 3%Z]
      = Return ([QArith_base.Qmake (-2) 1; QArith_base.Qmake 1 1], [row0; row5]) ∧
    row0 = np_eye_row 12 0 ∧ row5 = np_eye_row 12 5.
Proof. do 2 eexists. split_and!; reflexivity. Qed.

Lemma train_targets_spec_witness :
  ∃ Y_v Y_p,
    train_targets toy_model 3 2 [0%Z; 3%Z] = Return (Y_v, Y_p) ∧
    length Y_v = length [0%Z; 3%Z] ∧ length Y_p = length [0%Z; 3%Z] ∧
    ∀ i X_i, [0%Z; 3%Z] !! i = Some X_i →
      ∃ j y row,
        Y_v !! i = Some y ∧ Y_p !! i = Some row ∧
        first_max (lookahead toy_model 3 X_i <$> actions 3) j y ∧
        j < length (actions (action := nat) 3) ∧
        length row = length (actions (action := nat) 3) ∧
        ∀ idx, idx < length (actions (action := nat) 3) →
          row !! idx = Some (if decide (idx = j) then num_of_nat 1 else num_of_nat 0).
Proof.
  apply (train_targets_spec toy_model 3 2 [0%Z; 3%Z]); [done|..].
  - reflexivity.
  - discriminate.
Defined.

Lemma fixed_draws_permutation i n : np_random_permutation i n ≡ₚ seq 0 n.
Proof. apply reverse_Permutation. Qed.

(** Two sequences of two scrambles each, shuffled. *)
Lemma generate_dataset_spec_witness :
  ∃ (d : dataset Z) origin,
    _generate_dataset toy_trainer 0 2 2 = Return d ∧
    length (X d) = 2 * 2 ∧ length (weights d) = 2 * 2 ∧
    length (sequences d) = 2 ∧
    Forall (λ w, QArith_base.Qlt (QArith_base.inject_Z 0) w ∧
                 QArith_base.Qle w (QArith_base.inject_Z 1)) (weights d) ∧
    origin ≡ₚ seq 0 (2 * 2) ∧
    (shuffle toy_trainer = false → origin = seq 0 (2 * 2)) ∧
    ∀ p j, origin !! p = Some j →
      ∃ ms m,
        sequences d !! (j / 2) = Some ms ∧ ms !! (j mod 2) = Some m ∧
        X d !! p = Some (state_after m) ∧
        weights d !! p = Some (QArith_base.Qmake 1 (Pos.of_succ_nat (j mod 2))).
Proof.
  apply (generate_dataset_spec toy_trainer 0 2 2).
  - lia.
  - lia.
  - simpl. lia.
  - exact fixed_draws_permutation.
Defined.

(** The dataset of the witness: the moves drawn, and the arrays. *)
Lemma generate_dataset_example :
  ∃ d : dataset Z,
    _generate_dataset toy_trainer 0 2 2 = Return d ∧
    (λ ms : list (move Z), action_idx <$> ms) <$> sequences d = [[3; 9]; [1; 8]] ∧
    (λ ms : list (move Z), excluded <$> ms) <$> sequences d
      = [[None; Some 2]; [None; Some 0]] ∧
    X d = [4%Z; (-1)%Z; (-7)%Z; (-2)%Z] ∧
    weights d = [QArith_base.Qmake 1 2; QArith_base.Qmake 1 1;
                 QArith_base.Qmake 1 2; QArith_base.Qmake 1 1].
Proof. eexists. split_and!; reflexivity. Qed.

(** Two scrambles of depth 1 from draw number 9 on: the first applies move
    0, whose inverse is the move 1 that the toy network predicts; the second
    applies move 5.  And one scramble of depth 2 from the first draw on. *)
Lemma estimate_naive_accuracy_example :
  (∃ seqs : list (list (move Z)),
     estimate_naive_accuracy toy_model 3 9 1 2 = Return (QArith_base.Qmake 1 2, seqs) ∧
     (λ ms : list (move Z), action_idx <$> ms) <$> seqs = [[0]; [5]]) ∧
  (∃ seqs : list (list (move Z)),
     estimate_naive_accuracy toy_model 3 0 2 1 = Return (QArith_base.Qmake 0 1, seqs) ∧
     (λ ms : list (move Z), action_idx <$> ms) <$> seqs = [[3; 9]] ∧
     (λ ms : list (move Z), excluded <$> ms) <$> seqs = [[None; Some 2]]).
Proof. split; eexists; split_and!; reflexivity. Qed.

(** The file name of the specification's example, and one with only three
    integers in it. *)
Lemma load_dataset_example :
  re_findall_digits "scrambled_cubes_3x3_k25_l40000.npy" = ["3"; "3"; "25"; "40000"]%string ∧
  _load_dataset toy_files toy_trainer = Return (3%Z, 25%Z, 40000%Z, 0, 1) ∧
  _load_dataset toy_files
    {| k := 2; l := 2; initial_lr := QArith_base.Qmake 1 100000;
       load_files := [PStr "scrambled_cubes_3_k25_l40000.npy"; PStr "weights.npy"];
       cube_dim := 3; shuffle := true; current_iteration := 0%Z;
       model := Some toy_model |}
    = Raise (AssertionError "Dataset file name incorrect") ∧
  _load_dataset toy_files
    {| k := 2; l := 2; initial_lr := QArith_base.Qmake 1 100000;
       load_files := [PStr "scrambled_cubes_3x3_k25_l40000.npy"];
       cube_dim := 3; shuffle := true; current_iteration := 0%Z;
       model := Some toy_model |}
    = Raise (AssertionError "Bad format for load_files parameter").
Proof. split_and!; reflexivity. Qed.

(** Loading the checkpoint of the toy data directory at iteration 10. *)
Lemma load_trained_model_spec_witness :
  ∃ self',
    load_trained_model toy_files toy_trainer "model_3x3_k25_l40000_iter10" 10 = Return self' ∧
    model self' =
      Some {| architecture := tt; model_weights := tt;
              model_optimizer := Some RMSprop;
              model_losses := [("value_output", "mean_squared_error");
                               ("policy_output", "categorical_crossentropy")]%string |} ∧
    current_iteration self' = 10%Z ∧
    initial_lr self' = initial_lr toy_trainer ∧
    (∀ other : ADI QArith_base.Q unit unit, ∃ other',
       load_trained_model toy_files other "model_3x3_k25_l40000_iter10" 10 = Return other' ∧
       model other' = model self') ∧
    (∀ fs' : files unit nat,
       read_text fs' ("data/" ++ "model_3x3_k25_l40000_iter10" ++ ".json")%string
         = Some "{}"%string →
       read_h5 fs' ("data/" ++ "model_3x3_k25_l40000_iter10" ++ ".h5")%string = Some tt →
       load_trained_model fs' toy_trainer "model_3x3_k25_l40000_iter10" 10 = Return self').
Proof.
  apply (load_trained_model_spec toy_files toy_trainer "model_3x3_k25_l40000_iter10" 10
           "{}"%string tt tt tt tt); reflexivity.
Defined.

(** *** The files written: datasets and checkpoints *)

(** [format] of an integer that is not negative: its decimal digits. *)
Definition format_int (n : nat) : string :=
  DecimalString.NilEmpty.string_of_uint (Nat.to_uint n).

(** [np.save(path, a)], [open(path, 'w').write(text)] and the file that
    [save_weights(path)] writes: the store afterwards.  Directories are not
    modelled: a store maps whole paths to contents. *)
Definition np_save {h5 ndarray} (fs : files h5 ndarray) (path : string) (a : ndarray)
  : files h5 ndarray :=
  {| read_text := read_text fs; read_h5 := read_h5 fs;
     read_npy := λ p, if decide (p = path) then Some a else read_npy fs p;
     path_sep := path_sep fs |}.

Definition write_text {h5 ndarray} (fs : files h5 ndarray) (path : string) (text : string)
  : files h5 ndarray :=
  {| read_text := λ p, if decide (p = path) then Some text else read_text fs p;
     read_h5 := read_h5 fs; read_npy := read_npy fs; path_sep := path_sep fs |}.

Definition write_h5 {h5 ndarray} (fs : files h5 ndarray) (path : string) (file : h5)
  : files h5 ndarray :=
  {| read_text := read_text fs;
     read_h5 := λ p, if decide (p = path) then Some file else read_h5 fs p;
     read_npy := read_npy fs; path_sep := path_sep fs |}.

(** What [save_trained_model] uses of Keras: [model.to_json()] and the
    contents of the file that [model.save_weights] writes. *)
Class KerasSave (arch wts h5 : Type) : Type := {
  to_json : arch → string;
  save_weights : wts → h5
}.

Section Saving.
Context {cube action raw onehot num arch wts h5 : Type}.
Context `{PyNum num} `{CubeEnv cube action raw onehot num}.
Context `{Keras arch wts h5 onehot num} `{RandomSource} `{KerasSave arch wts h5}.

Abbreviation trainer := (ADI num arch wts).
(** An array on disk is the array of states or the array of weights. *)
Abbreviation ndarray := (list onehot + list QArith_base.Q)%type.

(** Lines 131 and 132: the names of the two files of a dataset. *)
Definition samples_file (dim k l : nat) : string :=
  ("data/scrambled_cubes_" ++ format_int dim ++ "x" ++ format_int dim
     ++ "_k" ++ format_int k ++ "_l" ++ format_int l ++ ".npy")%string.

Definition weights_file (dim k l : nat) : string :=
  ("data/weights_" ++ format_int dim ++ "x" ++ format_int dim
     ++ "_k" ++ format_int k ++ "_l" ++ format_int l ++ ".npy")%string.

(** [_generate_dataset(k, l, save_dataset)] with the files it writes. *)
Definition _generate_dataset_saving (fs : files h5 ndarray) (self : trainer) (pos k l : nat)
    (save_dataset : bool) : outcome (dataset onehot * files h5 ndarray) :=
  d ← _generate_dataset self pos k l;
  if save_dataset then
    let fs1 := np_save fs (samples_file (cube_dim self) k l) (inl (X d)) in
    let fs2 := np_save fs1 (weights_file (cube_dim self) k l) (inr (weights d)) in
    Return (d, fs2)
  else Return (d, fs).

(** [save_trained_model(filename)] *)
Definition save_trained_model {nd : Type} (fs : files h5 nd) (self : trainer)
    (filename : string) : outcome (files h5 nd) :=
  let model_name_json := (filename ++ ".json")%string in
  let model_name_h5 := (filename ++ ".h5")%string in
  match model self with
  | None => Raise AttributeError
  | Some m =>
      let fs1 := write_text fs model_name_json (to_json (architecture m)) in
      Return (write_h5 fs1 model_name_h5 (save_weights (model_weights m)))
  end.

(** **** Decimal digits *)

Fixpoint digits (s : string) : bool :=
  match s with
  | EmptyString => true
  | String c s' => is_digit c && digits s'
  end.

Lemma append_cons (c : ascii) (s1 s2 : string) :
  (String c s1 ++ s2 = String c (s1 ++ s2))%string.
Proof. reflexivity. Qed.

Lemma append_nil_l (s : string) : (EmptyString ++ s = s)%string.
Proof. reflexivity. Qed.

Lemma append_assoc_string (s1 s2 s3 : string) :
  ((s1 ++ s2) ++ s3 = s1 ++ (s2 ++ s3))%string.
Proof.
  induction s1 as [|c s1 IH]; [done|]. rewrite !append_cons. by f_equal.
Qed.

Lemma append_nil_r_string (s : string) : (s ++ EmptyString = s)%string.
Proof. induction s as [|c s IH]; [done|]. rewrite append_cons. by f_equal. Qed.

Lemma digits_string_of_uint d : digits (DecimalString.NilEmpty.string_of_uint d) = true.
Proof. induction d; simpl; done. Qed.

Lemma digits_format_int n : digits (format_int n) = true.
Proof. apply digits_string_of_uint. Qed.

Lemma format_int_nonempty n : format_int n ≠ EmptyString.
Proof.
  unfold format_int. intros E.
  assert (Nat.to_uint n = Decimal.Nil) as E0.
  { destruct (Nat.to_uint n); simpl in E; done. }
  pose proof (DecimalNat.Unsigned.of_to n) as Hn. rewrite E0 in Hn. simpl in Hn. subst n.
  discriminate E0.
Qed.

Lemma int_from_string_of_uint d (acc : nat) :
  int_from (Z.of_nat acc) (DecimalString.NilEmpty.string_of_uint d)
  = Z.of_nat (Nat.of_uint_acc d acc).
Proof.
  revert acc. induction d; intros acc; simpl; [done|..];
    rewrite <- IHd; f_equal; rewrite Nat.tail_mul_spec;
    unfold digit_value; simpl; lia.
Qed.

(** [int] reads back what [format] printed. *)
Lemma int_format_int n : int (format_int n) = Z.of_nat n.
Proof.
  unfold int, format_int. rewrite (int_from_string_of_uint _ 0).
  change (Nat.of_uint_acc (Nat.to_uint n) 0) with (Nat.of_uint (Nat.to_uint n)).
  by rewrite DecimalNat.Unsigned.of_to.
Qed.

Lemma findall_from_run (run ds rest : string) :
  digits ds = true →
  findall_from run (ds ++ rest) = findall_from (run ++ ds) rest.
Proof.
  revert run. induction ds as [|c ds IH]; intros run Hd.
  - by rewrite append_nil_l, append_nil_r_string.
  - simpl in Hd. apply andb_true_iff in Hd as [Hc Hd].
    rewrite append_cons. simpl. rewrite Hc, (IH _ Hd).
    by rewrite append_assoc_string.
Qed.

Lemma flush_nonempty (run : string) : run ≠ EmptyString → flush run = [run].
Proof. by destruct run. Qed.

(** The digit runs of a dataset file name. *)
Lemma findall_samples_name (D1 D2 K L : string) :
  digits D1 = true → digits D2 = true → digits K = true → digits L = true →
  D1 ≠ EmptyString → D2 ≠ EmptyString → K ≠ EmptyString → L ≠ EmptyString →
  re_findall_digits ("scrambled_cubes_" ++ D1 ++ "x" ++ D2 ++ "_k" ++ K ++ "_l" ++ L ++ ".npy")
  = [D1; D2; K; L].
Proof.
  intros Hd1 Hd2 Hd3 Hd4 N1 N2 N3 N4. unfold re_findall_digits.
  change (findall_from EmptyString
            (D1 ++ String "x" (D2 ++ String "_" (String "k"
               (K ++ String "_" (String "l" (L ++ ".npy"))))))
          = [D1; D2; K; L])%string.
  rewrite (findall_from_run _ D1), append_nil_l by done. simpl.
  rewrite (flush_nonempty D1) by done.
  rewrite (findall_from_run _ D2), append_nil_l by done. simpl.
  rewrite (flush_nonempty D2) by done.
  rewrite (findall_from_run _ K), append_nil_l by done. simpl.
  rewrite (flush_nonempty K) by done.
  rewrite (findall_from_run _ L), append_nil_l by done. simpl.
  rewrite (flush_nonempty L) by done.
  done.
Qed.


Lemma samples_file_not_weights_file dim k l dim' k' l' :
  samples_file dim k l ≠ weights_file dim' k' l'.
Proof.
  unfold samples_file, weights_file. rewrite !append_cons. intros E. discriminate E.
Qed.

(** **** Round trips *)

(** X7. What [_generate_dataset] saves, [_load_dataset] loads: given the names
    of the two files it wrote, relative to data/, and the path separator
    [/], it returns the dimension, [k] and [l] of the generation and the
    two arrays. *)
Theorem saved_dataset_loads (fs : files h5 ndarray) (self loader : trainer)
    (pos k l : nat) (d : dataset onehot) (fs' : files h5 ndarray) (name0 name1 : string) :
  path_sep fs = "/"%string →
  _generate_dataset_saving fs self pos k l true = Return (d, fs') →
  samples_file (cube_dim self) k l = ("data/" ++ name0)%string →
  weights_file (cube_dim self) k l = ("data/" ++ name1)%string →
  load_files loader = [PStr name0; PStr name1] →
  _load_dataset fs' loader
  = Return (Z.of_nat (cube_dim self), Z.of_nat k, Z.of_nat l, inl (X d), inr (weights d)).
Proof.
  intros Hsep E Hn0 Hn1 Hload. unfold _generate_dataset_saving in E.
  inv_bind E as d0 Hg. injection E as -> <-.
  set (dim := cube_dim self) in *.
  assert (("scrambled_cubes_" ++ format_int dim ++ "x" ++ format_int dim
             ++ "_k" ++ format_int k ++ "_l" ++ format_int l ++ ".npy")%string = name0) as Hname.
  { apply (inj (String.append "data/")). exact Hn0. }
  unfold _load_dataset. rewrite Hload, <- Hname.
  rewrite findall_samples_name
    by first [apply digits_format_int | apply format_int_nonempty].
  rewrite Hname. cbn [path_sep np_save]. rewrite Hsep.
  change ("data" ++ "/" ++ name0)%string with ("data/" ++ name0)%string.
  change ("data" ++ "/" ++ name1)%string with ("data/" ++ name1)%string.
  rewrite <- Hn0, <- Hn1. cbn [read_npy np_save].
  rewrite (decide_False (P := samples_file dim k l = weights_file dim k l))
    by apply samples_file_not_weights_file.
  rewrite !decide_True by done.
  by rewrite !int_format_int.
Qed.

(** X8. What [save_trained_model] saves under data/<filename>,
    [load_trained_model(filename)] loads: when Keras reads back the JSON
    and the weights that it wrote, the loaded model has the architecture
    and the weights of the saved one; its optimizer is RMSprop, whatever
    the saved model was compiled with. *)
Theorem saved_model_loads {nd : Type} (fs fs' : files h5 nd) (self loader : trainer)
    (m : keras_model arch wts num) (filename : string) (iteration : Z) (w0 : wts) :
  model self = Some m →
  model_from_json (to_json (architecture m)) = Some (architecture m, w0) →
  load_weights (architecture m) (save_weights (model_weights m)) = Some (model_weights m) →
  save_trained_model fs self ("data/" ++ filename) = Return fs' →
  ∃ loader',
    load_trained_model fs' loader filename iteration = Return loader' ∧
    model loader' =
      Some {| architecture := architecture m; model_weights := model_weights m;
              model_optimizer := Some RMSprop; model_losses := losses |} ∧
    current_iteration loader' = iteration.
Proof.
  intros Hm Hjson Hw E. unfold save_trained_model in E. rewrite Hm in E.
  injection E as <-. unfold load_trained_model. cbn [read_text read_h5 write_h5 write_text].
  rewrite !decide_True by (by rewrite append_assoc_string).
  rewrite Hjson, Hw. eexists. split_and!; reflexivity.
Qed.


End Saving.

(** **** Examples *)

#[export] Instance toy_save : KerasSave unit unit unit :=
  {| to_json := λ _, "{}"%string; save_weights := λ w, w |}.

(** A data directory with nothing in it. *)
Definition no_files {nd : Type} : files unit nd :=
  {| read_text := λ _, None; read_h5 := λ _, None; read_npy := λ _, None;
     path_sep := "/" |}.

(** The dataset of two sequences of two scrambles, and the store after
    saving it. *)
Definition toy_dataset : dataset Z :=
  Eval vm_compute in
    match _generate_dataset toy_trainer 0 2 2 with
    | Return d => d
    | _ => {| X := []; weights := []; sequences := []; next_draw := 0 |}
    end.

Definition toy_saved : files unit (list Z + list QArith_base.Q) :=
  np_save (np_save no_files (samples_file 3 2 2) (inl (X toy_dataset)))
          (weights_file 3 2 2) (inr (weights toy_dataset)).

Definition toy_loader : ADI QArith_base.Q unit unit :=
  {| k := 25; l := 100; initial_lr := QArith_base.Qmake 1 100000;
     load_files := [PStr "scrambled_cubes_3x3_k2_l2.npy"; PStr "weights_3x3_k2_l2.npy"];
     cube_dim := 2; shuffle := true; current_iteration := 0; model := None |}.

Lemma saved_dataset_loads_witness :
  _load_dataset toy_saved toy_loader
  = Return (Z.of_nat (cube_dim toy_trainer), Z.of_nat 2, Z.of_nat 2,
            inl (X toy_dataset), inr (weights toy_dataset)).
Proof.
  apply (saved_dataset_loads no_files toy_trainer toy_loader 0 2 2 toy_dataset toy_saved
           "scrambled_cubes_3x3_k2_l2.npy" "weights_3x3_k2_l2.npy"); reflexivity.
Defined.

(** The store after saving the toy model under data/checkpoint. *)
Definition toy_checkpoint : files unit nat :=
  write_h5 (write_text no_files "data/checkpoint.json" "{}") "data/checkpoint.h5" tt.

Lemma saved_model_loads_witness :
  ∃ loader',
    load_trained_model toy_checkpoint toy_loader "checkpoint" 7 = Return loader' ∧
    model loader' =
      Some {| architecture := architecture toy_model; model_weights := model_weights toy_model;
              model_optimizer := Some RMSprop; model_losses := losses |} ∧
    current_iteration loader' = 7%Z.
Proof.
  apply (saved_model_loads no_files toy_checkpoint toy_trainer toy_loader toy_model
           "checkpoint" 7 tt); reflexivity.
Defined.



(** *** The states of a scramble, and the score of the accuracy estimate *)

Section Scrambles.
Context {cube action raw onehot num arch wts h5 : Type}.
Context `{PyNum num} `{CubeEnv cube action raw onehot num}.
Context `{Keras arch wts h5 onehot num} `{RandomSource}.

Abbreviation trainer := (ADI num arch wts).

(** The cube after the moves of the given indices, applied to [c] in
    order. *)
Fixpoint replay (dim : nat) (c : cube) (idxs : list nat) : option cube :=
  match idxs with
  | [] => Some c
  | idx :: idxs' =>
      match actions dim !! idx with
      | Some a => replay dim (step c a).1.1 idxs'
      | None => None
      end
  end.

(** The moves of a scramble that starts at cube [c]: each records the
    one-hot state of the cube after its step. *)
Inductive trace (dim : nat) : cube → list (move onehot) → Prop :=
| trace_nil c : trace dim c []
| trace_cons c m a ms :
    actions dim !! action_idx m = Some a →
    state_after m = state_one_hot (step c a).1.1 →
    trace dim (step c a).1.1 ms →
    trace dim c (m :: ms).

Lemma trace_replay dim c (ms : list (move onehot)) :
  trace dim c ms →
  ∀ j mv, ms !! j = Some mv →
    ∃ c', replay dim c (action_idx <$> take (S j) ms) = Some c' ∧
          state_after mv = state_one_hot c'.
Proof.
  induction 1 as [c|c m a ms Ha Hst Htr IH]; intros j mv Hj.
  - by rewrite lookup_nil in Hj.
  - destruct j as [|j]; simpl in Hj.
    + injection Hj as <-. exists (step c a).1.1.
      change (take 1 (m :: ms)) with [m]. simpl. by rewrite Ha.
    + destruct (IH j mv Hj) as (c' & Hr & Hs). exists c'. split; [|done].
      change (take (S (S j)) (m :: ms)) with (m :: take (S j) ms).
      rewrite fmap_cons. simpl. by rewrite Ha.
Qed.

Lemma shuffle_loop_trace dim n :
  ∀ s0 (st : scramble cube) moves (d : dataset onehot) st' moves' d',
  for_loop (shuffle_body dim) (seq s0 n) (st, moves, d) = Return (st', moves', d') →
  ∃ new, moves' = moves ++ new ∧ trace dim (rubiks_cube st) new.
Proof.
  induction n as [|n IH]; intros s0 st moves d st' moves' d' E; simpl in E.
  - injection E as <- <- <-. exists []. rewrite app_nil_r. split; [done|constructor].
  - inv_bind E as [[st1 moves1] d1] Hbody. unfold shuffle_body in Hbody.
    inv_bind Hbody as [st1' m] Hmove. injection Hbody as -> <- <-.
    destruct (scramble_move_Return _ _ _ _ Hmove)
      as (Hex & Hdr & Hch & Hst & Hrp & a & Ha & Hinv & Hcube).
    destruct (IH _ _ _ _ _ _ _ E) as (new & -> & Htr).
    exists (m :: new). split; [by rewrite <- app_assoc|].
    apply (trace_cons dim _ m a); [done|by rewrite Hst, Hcube|by rewrite <- Hcube].
Qed.

Lemma iteration_loop_trace dim k n : ∀ i0 (d d' : dataset onehot),
  for_loop (iteration_body dim k) (seq i0 n) d = Return d' →
  ∃ seqs, sequences d' = sequences d ++ seqs ∧ Forall (trace dim (solved dim)) seqs.
Proof.
  induction n as [|n IH]; intros i0 d d' E; simpl in E.
  - injection E as <-. exists []. by rewrite app_nil_r.
  - inv_bind E as d1 Hbody. unfold iteration_body in Hbody.
    inv_bind Hbody as [[st1 moves] d0] Hloop. injection Hbody as <-.
    destruct (shuffle_loop_trace _ _ _ _ _ _ _ _ _ Hloop) as (new & -> & Htr).
    destruct (shuffle_loop _ _ _ _ _ _ _ _ _ Hloop eq_refl) as (new' & Enew & _ & _ & _ & HS & _).
    destruct (IH _ _ _ E) as (seqs & HS' & HF). simpl in *.
    exists (new :: seqs). split; [|by constructor].
    rewrite HS', HS, <- app_assoc. done.
Qed.

Lemma np_take_Return {A} (a : list A) (indexes : list nat) (ys : list A) :
  np_take a indexes = Return ys →
  ∀ p y, ys !! p = Some y → ∃ q, indexes !! p = Some q ∧ a !! q = Some y.
Proof.
  intros E p y Hy. apply for_each_Return in E.
  destruct (Forall2_lookup_r _ _ _ _ _ E Hy) as (q & Hq & Hf).
  exists q. split; [done|]. destruct (a !! q); [|discriminate]. by injection Hf as ->.
Qed.

(** X5. Every state of the dataset is a state reached from the solved cube
    by a scramble of [n] moves, with [1 ≤ n ≤ k] and no move the inverse of
    the one before; the weight at the same position of the weights array
    is the fraction of numerator 1 and denominator [n], the reciprocal of
    the depth of the scramble.  Shuffling keeps each state with its
    weight. *)
Theorem dataset_samples_reachable (self : trainer) (pos k l : nat) (d : dataset onehot)
    (p : nat) (x : onehot) (w : QArith_base.Q) :
  _generate_dataset self pos k l = Return d →
  X d !! p = Some x → weights d !! p = Some w →
  ∃ (idxs : list nat) (c : cube),
    1 ≤ length idxs ∧ length idxs ≤ k ∧
    replay (cube_dim self) (solved (cube_dim self)) idxs = Some c ∧
    x = state_one_hot c ∧
    w = QArith_base.Qmake 1 (Pos.of_nat (length idxs)) ∧
    ∀ j i1 i2 a1, idxs !! j = Some i1 → idxs !! S j = Some i2 →
      actions (cube_dim self) !! i1 = Some a1 → i2 ≠ inverse_index (cube_dim self) a1.
Proof.
  intros E Hx Hw. unfold _generate_dataset in E.
  set (dim := cube_dim self) in *.
  inv_bind E as d0 Hloop.
  destruct (iteration_loop _ _ _ _ _ _ Hloop) as (seqs & Hlen & HF & Hch & HS & _ & HX & HW).
  destruct (iteration_loop_trace _ _ _ _ _ _ Hloop) as (seqs' & HS' & Htr).
  simpl in HS, HS', HX, HW, Hch. rewrite HS in HS'. subst seqs'.
  assert (∃ q, X d0 !! q = Some x ∧ weights d0 !! q = Some w) as (q & Hxq & Hwq).
  { destruct (shuffle self).
    - destruct (decide (l * k = 0)); [discriminate|].
      inv_bind E as X' HX'. inv_bind E as W' HW'. injection E as <-. simpl in Hx, Hw.
      destruct (np_take_Return _ _ _ HX' p x Hx) as (q & Hq & Hxq).
      destruct (np_take_Return _ _ _ HW' p w Hw) as (q' & Hq' & Hwq).
      rewrite Hq in Hq'. injection Hq' as <-. eauto.
    - injection E as <-. eauto. }
  clear E Hx Hw.
  set (rowsX := (λ ms : list (move onehot), state_after <$> ms) <$> seqs) in *.
  set (rowsW := replicate l (weight_of <$> seq 0 k)) in *.
  assert (Forall (λ r : list onehot, length r = k) rowsX) as HFX.
  { apply Forall_fmap. eapply Forall_impl; [exact HF|]. intros ms Hms. simpl.
    by rewrite length_fmap. }
  assert (Forall (λ r : list QArith_base.Q, length r = k) rowsW) as HFW.
  { apply Forall_replicate. by rewrite length_fmap, length_seq. }
  assert (q < l * k) as Hq.
  { apply lookup_lt_Some in Hxq. rewrite HX, (length_concat_uniform _ _ HFX) in Hxq.
    unfold rowsX in Hxq. by rewrite length_fmap, Hlen in Hxq. }
  assert (1 ≤ k) as Hk by (destruct k; lia).
  assert (q mod k < k) as Hmod by (apply Nat.mod_upper_bound; lia).
  assert (q / k < l) as Hdiv by (apply Nat.Div0.div_lt_upper_bound; lia).
  assert (q = q / k * k + q mod k) as Hqk.
  { rewrite (Nat.div_mod_eq q k) at 1. lia. }
  destruct (lookup_lt_is_Some_2 seqs (q / k)) as [ms Hms]; [lia|].
  pose proof (Forall_lookup_1 _ _ _ _ HF Hms) as Hmsl. simpl in Hmsl.
  destruct (lookup_lt_is_Some_2 ms (q mod k)) as [mv Hmv]; [lia|].
  assert (x = state_after mv) as ->.
  { rewrite HX, Hqk, (lookup_concat_uniform _ k _ _ HFX Hmod) in Hxq. unfold rowsX in Hxq.
    rewrite list_lookup_fmap, Hms in Hxq. simpl in Hxq.
    rewrite list_lookup_fmap, Hmv in Hxq. by injection Hxq as <-. }
  assert (w = weight_of (q mod k)) as ->.
  { rewrite HW, Hqk, (lookup_concat_uniform _ k _ _ HFW Hmod) in Hwq. unfold rowsW in Hwq.
    rewrite lookup_replicate_2 in Hwq by done. simpl in Hwq.
    rewrite list_lookup_fmap, lookup_seq_lt in Hwq by done. by injection Hwq as <-. }
  pose proof (Forall_lookup_1 _ _ _ _ Htr Hms) as Htrace. simpl in Htrace.
  destruct (trace_replay _ _ _ Htrace _ _ Hmv) as (c & Hr & Hc).
  destruct (chained_facts _ _ _ _ (Hch _ _ Hms)) as (_ & _ & Hinv).
  exists (action_idx <$> take (S (q mod k)) ms), c.
  rewrite length_fmap, length_take_le by lia.
  split_and!; [lia|lia|done|done|by rewrite weight_of_fraction, Pos.of_nat_succ|].
  intros j i1 i2 a1 Hi1 Hi2 Ha1.
  rewrite list_lookup_fmap in Hi1, Hi2.
  destruct (take (S (q mod k)) ms !! j) as [m1|] eqn:Hm1; [|done].
  destruct (take (S (q mod k)) ms !! S j) as [m2|] eqn:Hm2; [|done].
  simpl in Hi1, Hi2. injection Hi1 as <-. injection Hi2 as <-.
  apply lookup_take_Some in Hm1 as [Hm1 _]. apply lookup_take_Some in Hm2 as [Hm2 _].
  destruct (Hinv j m1 m2 Hm1 Hm2) as (a1' & Ha1' & _ & Hne).
  rewrite Ha1 in Ha1'. by injection Ha1' as <-.
Qed.

(** **** The accuracy estimate *)

(** A scramble is a hit when the move that the network gives the highest
    policy to, in the state after the last move, is the inverse of that
    last move.  The empty scramble is no hit. *)
Definition undoes (m : keras_model arch wts num) (dim : nat) (ms : list (move onehot)) : bool :=
  match last ms with
  | None => false
  | Some mv =>
      match actions dim !! action_idx mv,
            np_argmax (predict (architecture m) (model_weights m) (state_after mv)).2 with
      | Some a, Return prediction => bool_decide (prediction = inverse_index dim a)
      | _, _ => false
      end
  end.

Definition hits (m : keras_model arch wts num) (dim : nat) (seqs : list (list (move onehot)))
  : nat :=
  sum_list_with (λ ms, if undoes m dim ms then 1 else 0) seqs.

Lemma hits_le m dim seqs : hits m dim seqs ≤ length seqs.
Proof.
  unfold hits. induction seqs as [|ms seqs IH]; simpl; [done|].
  destruct (undoes m dim ms); lia.
Qed.

Lemma hits_empty m dim seqs : Forall (λ ms, length ms = 0) seqs → hits m dim seqs = 0.
Proof.
  unfold hits. induction 1 as [|ms seqs Hms _ IH]; simpl; [done|].
  destruct ms; [|done]. by rewrite IH.
Qed.

Lemma depth_loop_end dim n : ∀ s0 (st : scramble cube) moves st' moves',
  for_loop (depth_body dim) (seq s0 n) (st, moves) = Return (st', moves') →
  ∃ new, moves' = moves ++ new ∧
    match last new with
    | None => st' = st
    | Some mv =>
        state_after mv = state_one_hot (rubiks_cube st') ∧
        ∃ a, actions dim !! action_idx mv = Some a ∧
             inverse_previous_action_idx st' = Some (inverse_index dim a)
    end.
Proof.
  induction n as [|n IH]; intros s0 st moves st' moves' E; simpl in E.
  - injection E as <- <-. exists []. by rewrite app_nil_r.
  - inv_bind E as [st1 moves1] Hbody. unfold depth_body in Hbody. simpl in Hbody.
    inv_bind Hbody as [st1' m] Hmove. injection Hbody as -> <-.
    destruct (scramble_move_Return _ _ _ _ Hmove)
      as (Hex & Hdr & Hch & Hst & Hrp & a & Ha & Hinv & Hcube).
    destruct (IH _ _ _ _ _ E) as (new & -> & Hlast).
    exists (m :: new). split; [by rewrite <- app_assoc|].
    rewrite last_cons. destruct (last new) as [mv|]; [done|].
    subst st'. eauto.
Qed.

Lemma accuracy_loop_score (m : keras_model arch wts num) dim depth n :
  ∀ i0 score pos seqs0 score' pos' seqs',
  for_loop (accuracy_body m dim depth) (seq i0 n) (score, pos, seqs0)
    = Return (score', pos', seqs') →
  ∃ seqs, seqs' = seqs0 ++ seqs ∧ score' = score + hits m dim seqs.
Proof.
  induction n as [|n IH]; intros i0 score pos seqs0 score' pos' seqs' E; simpl in E.
  - injection E as <- <- <-. exists []. rewrite app_nil_r. unfold hits. simpl.
    split; [done|lia].
  - inv_bind E as [[score1 pos1] seqs1] Hbody. unfold accuracy_body in Hbody.
    inv_bind Hbody as [st1 moves] Hloop. inv_bind Hbody as prediction Hpred.
    injection Hbody as <- <- <-.
    destruct (depth_loop_end _ _ _ _ _ _ _ Hloop) as (new & -> & Hlast).
    destruct (IH _ _ _ _ _ _ _ E) as (seqs & -> & ->).
    exists (new :: seqs). split; [by rewrite <- app_assoc|].
    unfold hits. simpl. fold (hits m dim seqs).
    assert ((if decide (Some prediction = inverse_previous_action_idx st1) then 1 else 0)
            = (if undoes m dim new then 1 else 0)) as ->; [|lia].
    unfold undoes. destruct (last new) as [mv|].
    + destruct Hlast as (Hst & a & Ha & Hinv). rewrite Ha, Hst, Hpred, Hinv.
      clear E. case_decide; case_bool_decide; congruence.
    + subst st1. clear E. done.
Qed.

(** X6. [estimate_naive_accuracy] on a cube with at least two moves and a
    network whose policy is not empty.  With no iteration it ends in the
    division of 0 by 0.  Otherwise it returns the fraction of hits among
    [iterations] scrambles of [depth] moves each: at most 1, and 0 when
    [depth] is 0, whatever the network predicts. *)
Theorem estimate_naive_accuracy_score (m : keras_model arch wts num)
    (dim pos depth iterations : nat) :
  2 ≤ length (actions dim) →
  (∀ s, (predict (architecture m) (model_weights m) s).2 ≠ []) →
  (iterations = 0 →
     estimate_naive_accuracy m dim pos depth iterations = Raise ZeroDivisionError) ∧
  (1 ≤ iterations →
     ∃ seqs,
       estimate_naive_accuracy m dim pos depth iterations
       = Return (QArith_base.Qdiv (QArith_base.inject_Z (Z.of_nat (hits m dim seqs)))
                                  (QArith_base.inject_Z (Z.of_nat iterations)), seqs) ∧
       length seqs = iterations ∧ Forall (λ ms, length ms = depth) seqs ∧
       hits m dim seqs ≤ iterations ∧
       (depth = 0 → hits m dim seqs = 0)).
Proof.
  intros Hacts Hpol. split.
  - intros ->. done.
  - intros Hit.
    destruct (estimate_naive_accuracy_defined m dim pos depth iterations Hacts Hit Hpol)
      as [r Er].
    pose proof Er as E. unfold estimate_naive_accuracy in E.
    inv_bind E as [[score pos'] seqs'] Hloop.
    destruct (accuracy_loop _ _ _ _ _ _ _ _ _ _ _ Hloop) as (seqs & Eseqs & Hlen & HF & _).
    destruct (accuracy_loop_score _ _ _ _ _ _ _ _ _ _ _ Hloop) as (seqs2 & Eseqs2 & Hscore).
    simpl in Eseqs, Eseqs2. subst seqs'. subst seqs2. simpl in Hscore. subst score.
    rewrite decide_False in E by lia. injection E as <-.
    exists seqs. split_and!; [done|done|done| |].
    + rewrite <- Hlen. apply hits_le.
    + intros ->. by apply hits_empty.
Qed.

(** **** The two scrambling loops are one procedure *)

Lemma shuffle_depth_loop dim n :
  ∀ s0 s1 (st : scramble cube) moves (d : dataset onehot) st' moves' d',
  for_loop (shuffle_body dim) (seq s0 n) (st, moves, d) = Return (st', moves', d') →
  for_loop (depth_body dim) (seq s1 n) (st, moves) = Return (st', moves').
Proof.
  induction n as [|n IH]; intros s0 s1 st moves d st' moves' d' E; simpl in E |- *.
  - by injection E as <- <- <-.
  - inv_bind E as [[st1 moves1] d1] Hbody. unfold shuffle_body in Hbody.
    inv_bind Hbody as [st1' mv] Hmove. injection Hbody as -> <- <-.
    assert (depth_body dim s1 (st, moves) = Return (st1, moves ++ [mv])) as ->.
    { unfold depth_body. cbn [fst snd]. by rewrite Hmove. }
    rewrite Return_bind. by eapply IH.
Qed.

Lemma iteration_accuracy_loop (m : keras_model arch wts num) dim k n :
  (∀ s, (predict (architecture m) (model_weights m) s).2 ≠ []) →
  ∀ i0 (d d' : dataset onehot) score seqs0,
  for_loop (iteration_body dim k) (seq i0 n) d = Return d' →
  ∃ seqs score',
    sequences d' = sequences d ++ seqs ∧
    for_loop (accuracy_body m dim k) (seq i0 n) (score, next_draw d, seqs0)
    = Return (score', next_draw d', seqs0 ++ seqs).
Proof.
  intros Hpol. induction n as [|n IH]; intros i0 d d' score seqs0 E; simpl in E |- *.
  - injection E as <-. exists [], score. by rewrite !app_nil_r.
  - inv_bind E as d1 Hbody. unfold iteration_body in Hbody.
    inv_bind Hbody as [[st1 moves] d0] Hloop. injection Hbody as <-.
    destruct (shuffle_loop _ _ _ _ _ _ _ _ _ Hloop eq_refl)
      as (new & Enew & _ & _ & _ & HS & HN & _).
    pose proof (shuffle_depth_loop _ _ _ 0 _ _ _ _ _ _ Hloop) as Hdepth.
    unfold accuracy_body at 1. rewrite Hdepth, Return_bind.
    destruct (np_argmax_defined _ (Hpol (state_one_hot (rubiks_cube st1)))) as [j Hj].
    rewrite Hj, !Return_bind.
    set (d1 := {| X := X d0; weights := weights d0; sequences := sequences d0 ++ [moves];
                  next_draw := next_draw d0 |}) in *.
    destruct (IH (S i0) d1 d'
                (score + (if decide (Some j = inverse_previous_action_idx st1) then 1 else 0))
                (seqs0 ++ [moves]) E) as (seqs & score' & HS' & Eacc).
    exists (moves :: seqs), score'. split.
    + rewrite HS'. unfold d1. simpl. by rewrite HS, <- app_assoc.
    + unfold d1 in Eacc. simpl in Eacc. rewrite HN in Eacc.
      rewrite <- app_assoc in Eacc. exact Eacc.
Qed.

(** X11. [estimate_naive_accuracy] scrambles as [_generate_dataset] does:
    started at the same draw of the random generator, with [depth = k] and
    [iterations = l], it evaluates the network after exactly the scrambles,
    move for move and state for state, that the generation records. *)
Theorem accuracy_scrambles_as_dataset (self : trainer) (m : keras_model arch wts num)
    (pos k l : nat) (d : dataset onehot) :
  1 ≤ l →
  (∀ s, (predict (architecture m) (model_weights m) s).2 ≠ []) →
  _generate_dataset self pos k l = Return d →
  ∃ accuracy,
    estimate_naive_accuracy m (cube_dim self) pos k l = Return (accuracy, sequences d).
Proof.
  intros Hl Hpol E. unfold _generate_dataset in E. inv_bind E as d0 Hloop.
  destruct (iteration_accuracy_loop m _ _ _ Hpol _ _ _ 0 [] Hloop)
    as (seqs & score' & HS & Eacc).
  simpl in HS, Eacc.
  assert (sequences d = seqs) as ->.
  { destruct (shuffle self); [|by injection E as <-].
    destruct (decide (l * k = 0)); [discriminate|].
    inv_bind E as X' HX. inv_bind E as W' HW. by injection E as <-. }
  unfold estimate_naive_accuracy. rewrite Eacc, Return_bind.
  rewrite decide_False by lia. eauto.
Qed.

End Scrambles.

(** The first state of the shuffled toy dataset is the counter 4, reached
    by the moves 1 and 8; its weight is 1/2. *)
Lemma dataset_samples_reachable_witness :
  ∃ (idxs : list nat) (c : Z),
    1 ≤ length idxs ∧ length idxs ≤ 2 ∧
    replay (cube_dim toy_trainer) (solved (cube_dim toy_trainer)) idxs = Some c ∧
    4%Z = state_one_hot c ∧
    QArith_base.Qmake 1 2 = QArith_base.Qmake 1 (Pos.of_nat (length idxs)) ∧
    ∀ j i1 i2 (a1 : nat), idxs !! j = Some i1 → idxs !! S j = Some i2 →
      actions (cube_dim toy_trainer) !! i1 = Some a1 →
      i2 ≠ inverse_index (cube_dim toy_trainer) a1.
Proof.
  apply (dataset_samples_reachable toy_trainer 0 2 2 toy_dataset 0 4%Z
           (QArith_base.Qmake 1 2));
    reflexivity.
Defined.

Lemma replay_toy_sample : replay 3 (solved 3) [1; 8] = Some 4%Z.
Proof. reflexivity. Qed.

(** Two scrambles of depth 1 with the toy network. *)
Lemma estimate_naive_accuracy_score_witness :
  (2 = 0 →
     estimate_naive_accuracy toy_model 3 9 1 2 = Raise ZeroDivisionError) ∧
  (1 ≤ 2 →
     ∃ seqs : list (list (move Z)),
       estimate_naive_accuracy toy_model 3 9 1 2
       = Return (QArith_base.Qdiv (QArith_base.inject_Z (Z.of_nat (hits toy_model 3 seqs)))
                                  (QArith_base.inject_Z (Z.of_nat 2)), seqs) ∧
       length seqs = 2 ∧ Forall (λ ms, length ms = 1) seqs ∧
       hits toy_model 3 seqs ≤ 2 ∧
       (1 = 0 → hits toy_model 3 seqs = 0)).
Proof.
  apply (estimate_naive_accuracy_score toy_model 3 9 1 2).
  - simpl. lia.
  - intros s. discriminate.
Defined.

(** The accuracy estimate over the scrambles of the toy dataset. *)
Lemma accuracy_scrambles_as_dataset_witness :
  ∃ accuracy,
    estimate_naive_accuracy toy_model (cube_dim toy_trainer) 0 2 2
    = Return (accuracy, sequences toy_dataset).
Proof.
  apply (accuracy_scrambles_as_dataset toy_trainer toy_model 0 2 2 toy_dataset).
  - lia.
  - intros s. discriminate.
  - reflexivity.
Defined.

End ADI.
